(** * CHAMP alignment engine: a shallow embedding and its properties

    The development follows [champ/imagedata.py] and
    [champ/fastqimagealigner.py], and the parts of [champ/align.py] and
    [champ/readmap.py] that drive the engine and prepare its reads.
    Floating-point numbers are idealised as
    rationals ([Q]); numeric routines of numpy/scipy whose results are not
    rational (Euclidean norm, least squares, trigonometry, the FFT itself)
    and the methods of the tile class [FastqTileRCs], which lives in
    [champ/fastqtilercs.py], are taken as parameters of the model. *)

From Stdlib Require Import QArith Qabs Qround ZArith Lia Ascii.
From stdpp Require Import gmap strings list sorting fin_maps fin_sets pretty.

#[global] Set Warnings "-clear-no-such-hyp".

(** ** Python exceptions and results *)

Inductive exn : Type :=
| RuntimeError (msg : string)
| ValueError (msg : string)
| IndexError (msg : string)
| KeyError (key : string)
| AttributeError (attr : string)
| LinAlgError (msg : string)
| AssertionError
| ZeroDivisionError.

Inductive result (A : Type) : Type :=
| Ok (a : A)
| Raise (e : exn).
Arguments Ok {A} a.
Arguments Raise {A} e.

Definition rbind {A B} (r : result A) (k : A → result B) : result B :=
  match r with
  | Ok a => k a
  | Raise e => Raise e
  end.

#[global] Instance result_ret : MRet result := λ A a, Ok a.
#[global] Instance result_bind : MBind result := λ A B k r, rbind r k.

Definition is_ok {A} (r : result A) : Prop := ∃ a, r = Ok a.

(** Strict comparison of rationals, as a boolean. *)
Definition Qltb (x y : Q) : bool := negb (Qle_bool y x).
Arguments Qltb : simpl never.

(** ** [champ/imagedata.py] *)

Module ImageData.

(** A 2-D pixel grid, row by row. *)
Definition pixels : Type := list (list Q).

(** The attributes of an [ImageData] object the engine reads.  [fft] is
    [None] until [set_fft] has run. *)
Record t : Type := mk {
  image : pixels;
  um_per_pixel : Q;
  fft : option pixels
}.

(** [image.shape] of a 2-D array. *)
Definition shape (im : pixels) : Z * Z :=
  (Z.of_nat (length im),
   Z.of_nat (match im with [] => 0 | r :: _ => length r end)).

(** Every row is as long as the first one. *)
Definition rectangular (im : pixels) : Prop :=
  Forall (λ r, Z.of_nat (length r) = (shape im).2) im.

(** Ascending sort, as [np.median] does on the flattened array. *)
Fixpoint insert_sorted (x : Q) (l : list Q) : list Q :=
  match l with
  | [] => [x]
  | y :: l' => if Qle_bool x y then x :: l else y :: insert_sorted x l'
  end.

Definition np_sort (l : list Q) : list Q := foldr insert_sorted [] l.

(** [np.median]: the middle element, or the mean of the two middle
    elements; [None] stands for the NaN of an empty array. *)
Definition np_median (l : list Q) : option Q :=
  let s := np_sort l in
  let n := length s in
  if (n =? 0)%nat then None
  else if Nat.odd n then s !! (n / 2)%nat
  else a ← s !! (n / 2 - 1)%nat; b ← s !! (n / 2)%nat; Some ((a + b) / 2)%Q.

(** [median_normalize]: [image /= float(med); image -= 1.0].  An image
    without pixels is left as it is.  When the median is zero the float
    result holds inf/NaN, which rationals do not represent: [None]. *)
Definition median_normalize (im : pixels) : option pixels :=
  match np_median (concat im) with
  | None => Some im
  | Some med =>
      if Qeq_bool med 0 then None
      else Some (map (map (λ p, p / med - 1)%Q) im)
  end.

(** Modelled from the spec: [misc.next_power_of_2] is in [champ/misc.py],
    which is not part of the sources at hand; the spec has it return the
    smallest power of two that is at least its argument. *)
Definition next_power_of_2 (x : Z) : Z := 2 ^ Z.log2_up x.

(** [np.pad(image, ((a, b), (c, d)), mode='constant')]: [a] zero rows
    above, [b] below, [c] zero columns left, [d] right.  numpy refuses a
    negative pad width. *)
Definition np_pad (im : pixels) (rows cols : Z * Z) : result pixels :=
  if bool_decide (0 ≤ rows.1 ∧ 0 ≤ rows.2 ∧ 0 ≤ cols.1 ∧ 0 ≤ cols.2)%Z then
    let left := replicate (Z.to_nat cols.1) 0%Q in
    let right := replicate (Z.to_nat cols.2) 0%Q in
    let blank :=
      replicate (Z.to_nat (cols.1 + (shape im).2 + cols.2)) 0%Q in
    Ok (replicate (Z.to_nat rows.1) blank
          ++ map (λ r, left ++ r ++ right) im
          ++ replicate (Z.to_nat rows.2) blank)
  else Raise (ValueError "index can't contain negative values").

Definition fft_error : exn :=
  ValueError "FFT of microscope image is not a power of 2, this will cause the program to stall.".

(** The side of the square the image is padded to. *)
Definition fft_dimension (im : pixels) (padding : Z * Z) : Z :=
  let totalx := (padding.1 + (shape im).1)%Z in
  let totaly := (padding.2 + (shape im).2)%Z in
  Z.max (next_power_of_2 totalx) (next_power_of_2 totaly).

(** [set_fft], with the padding routine as a parameter.  The transform
    [np.fft.fft2(padded_im)] has the shape of [padded_im]; the model keeps
    the padded image it is computed from. *)
Definition set_fft_with (pad : pixels → Z * Z → Z * Z → result pixels)
    (im : pixels) (padding : Z * Z) : result pixels :=
  let totalx := (padding.1 + (shape im).1)%Z in
  let totaly := (padding.2 + (shape im).2)%Z in
  let dimension := fft_dimension im padding in
  padded_im ←
    pad im (padding.1, dimension - totalx)%Z (padding.2, dimension - totaly)%Z;
  if bool_decide (shape padded_im ≠ (dimension, dimension)) then Raise fft_error
  else Ok padded_im.

Definition set_fft : pixels → Z * Z → result pixels := set_fft_with np_pad.

(** A constant image of [h] rows and [w] columns. *)
Definition constant_image (h w : nat) (m : Q) : pixels :=
  replicate h (replicate w m).

End ImageData.

(** ** [champ/fastqimagealigner.py] *)

Module Aligner.

Definition point : Type := Q * Q.

(** A hit is a pair (cluster index, index among the in-frame reads). *)
Definition hit : Type := nat * nat.

(** [tile.snr]: a ratio of correlations; dividing a positive numpy float
    by a zero control correlation gives inf. *)
Inductive snr_value : Type :=
| SNR (q : Q)
| SNR_inf.

(** The attributes of a [FastqTileRCs] object the engine touches.  An
    attribute that a tile acquires only once it is aligned is an option. *)
Record Tile : Type := mkTile {
  key : string;
  read_names : list string;
  rcs : list point;
  aligned_rcs : option (list point);
  rotation : option Q;
  snr : option snr_value
}.

(** The methods of [FastqTileRCs] the engine calls. *)
Class TileMethods (transform : Type) : Type := {
  fft_align_with_im : Tile → ImageData.t → Q * transform;
  set_aligned_rcs : Tile → transform → Tile;
  set_aligned_rcs_given_transform : Tile → Q → Q → point → Tile;
  set_correlation : Tile → ImageData.pixels → Tile;
  set_snr_with_control_corr : Tile → Q → Tile
}.

(** The numeric routines the engine calls: [scipy.spatial.KDTree] and its
    [query], [np.linalg.norm], [np.linalg.lstsq], [np.arctan2], [np.cos].
    Building a tree and solving a system may fail ([None]). *)
Class Numerics (kdtree : Type) : Type := {
  KDTree : list point → option kdtree;
  query : kdtree → point → Q * nat;
  linalg_norm : point → Q;
  linalg_lstsq : list (list Q) → list Q → option (Q * Q * Q * Q);
  arctan2 : Q → Q → Q;
  cos : Q → Q
}.

(** The four hit categories, and the mutual hits they are carved from. *)
Record HitSets : Type := mkHits {
  non_mutual_hits : gset hit;
  mutual_hits : gset hit;
  bad_mutual_hits : gset hit;
  good_mutual_hits : gset hit;
  exclusive_hits : gset hit
}.

(** The attributes of a [FastqImageAligner].  [hitting_tiles] holds
    objects of [fastq_tiles]; the model holds their keys, so that a change
    to a tile is seen through both.  [clusters] is [clusters.point_rcs]. *)
Record FastqImageAligner : Type := mkAligner {
  fastq_tiles : gmap string Tile;
  image_data : ImageData.t;
  fq_im_scaled_dims : Z * Z;
  control_corr : Q;
  clusters : list point;
  hitting_tiles : list string;
  rcs_in_frame : list (string * (Z * Z));
  aligned_rcs_in_frame : list point;
  hits : HitSets
}.

Definition with_fastq_tiles (v : gmap string Tile) (s : FastqImageAligner) :=
  mkAligner v (image_data s) (fq_im_scaled_dims s) (control_corr s)
    (clusters s) (hitting_tiles s) (rcs_in_frame s) (aligned_rcs_in_frame s)
    (hits s).
Definition with_image_data (v : ImageData.t) (s : FastqImageAligner) :=
  mkAligner (fastq_tiles s) v (fq_im_scaled_dims s) (control_corr s)
    (clusters s) (hitting_tiles s) (rcs_in_frame s) (aligned_rcs_in_frame s)
    (hits s).
Definition with_control_corr (v : Q) (s : FastqImageAligner) :=
  mkAligner (fastq_tiles s) (image_data s) (fq_im_scaled_dims s) v
    (clusters s) (hitting_tiles s) (rcs_in_frame s) (aligned_rcs_in_frame s)
    (hits s).
Definition with_hitting_tiles (v : list string) (s : FastqImageAligner) :=
  mkAligner (fastq_tiles s) (image_data s) (fq_im_scaled_dims s)
    (control_corr s) (clusters s) v (rcs_in_frame s) (aligned_rcs_in_frame s)
    (hits s).
Definition with_rcs_in_frame (v : list (string * (Z * Z)))
    (s : FastqImageAligner) :=
  mkAligner (fastq_tiles s) (image_data s) (fq_im_scaled_dims s)
    (control_corr s) (clusters s) (hitting_tiles s) v (aligned_rcs_in_frame s)
    (hits s).
Definition with_aligned_rcs_in_frame (v : list point) (s : FastqImageAligner) :=
  mkAligner (fastq_tiles s) (image_data s) (fq_im_scaled_dims s)
    (control_corr s) (clusters s) (hitting_tiles s) (rcs_in_frame s) v
    (hits s).
Definition with_hits (v : HitSets) (s : FastqImageAligner) :=
  mkAligner (fastq_tiles s) (image_data s) (fq_im_scaled_dims s)
    (control_corr s) (clusters s) (hitting_tiles s) (rcs_in_frame s)
    (aligned_rcs_in_frame s) v.

(** A method of the engine: it reads and changes the object, and returns
    or raises; the object keeps the changes made before an exception. *)
Definition M (A : Type) : Type := FastqImageAligner → result A * FastqImageAligner.

Definition ret {A} (a : A) : M A := λ s, (Ok a, s).
Definition raise {A} (e : exn) : M A := λ s, (Raise e, s).
Definition bind {A B} (m : M A) (k : A → M B) : M B :=
  λ s, match m s with
       | (Ok a, s') => k a s'
       | (Raise e, s') => (Raise e, s')
       end.
Definition get : M FastqImageAligner := λ s, (Ok s, s).
Definition modify (f : FastqImageAligner → FastqImageAligner) : M unit :=
  λ s, (Ok tt, f s).
Definition lift {A} (r : result A) : M A := λ s, (r, s).

#[global] Instance M_ret : MRet M := @ret.
#[global] Instance M_bind : MBind M := λ A B k m, bind m k.

(** [for x in l: acc = body acc x], stopping at the first exception. *)
Fixpoint fold_each {A B} (l : list A) (acc : B) (body : B → A → M B) : M B :=
  match l with
  | [] => ret acc
  | x :: l' => acc' ← body acc x; fold_each l' acc' body
  end.

(** [for x in l: body x]. *)
Definition for_each {A} (l : list A) (body : A → M unit) : M unit :=
  fold_each l tt (λ _, body).

Definition index_error : exn := IndexError "index out of bounds".

(** [l[i]] for a non-negative index. *)
Definition index {A} (l : list A) (i : nat) : result A :=
  match l !! i with
  | Some x => Ok x
  | None => Raise index_error
  end.

(** [enumerate(l)]. *)
Definition enumerate {A} (l : list A) : list (nat * A) := imap pair l.

(** [int(x)] and [astype(np.int)]: truncation towards zero. *)
Definition trunc (x : Q) : Z := Z.quot (Qnum x) (Zpos (Qden x)).

(** [self.fastq_tiles[key]]. *)
Definition tile_of (k : string) : M Tile :=
  λ s, match fastq_tiles s !! k with
       | Some t => (Ok t, s)
       | None => (Raise (KeyError k), s)
       end.

(** A change to the tile object stored under [k]. *)
Definition update_tile (k : string) (t : Tile) : M unit :=
  modify (λ s, with_fastq_tiles (<[k := t]> (fastq_tiles s)) s).

Section engine.
Context {transform kdtree : Type}.
Context `{!TileMethods transform} `{!Numerics kdtree}.

(** *** Rough alignment: [find_hitting_tiles] *)

(** [possible_tiles[:9] + "1" + possible_tiles[10:]]: the key with its
    tenth character, the side of the chip, set to 1. *)
Definition side1_key (k : string) : string :=
  String.substring 0 9 k +:+ "1" +:+ String.substring 10 (String.length k) k.

(** [[self.fastq_tiles[key] for key in keys if key in self.fastq_tiles]];
    a tile object is named by its key. *)
Definition tiles_of_keys (tiles : gmap string Tile) (keys : list string)
    : list string :=
  filter (λ k, is_Some (tiles !! k)) keys.

(** Lines 130-142: the tiles that are correlated against the image. *)
Definition possible_tiles (side1 : bool) (possible_tile_keys : list string)
    (s : FastqImageAligner) : list string :=
  let possible_tiles :=
    if side1 then
      let floor_possible_tile_keys := map side1_key possible_tile_keys in
      tiles_of_keys (fastq_tiles s) floor_possible_tile_keys
    else tiles_of_keys (fastq_tiles s) possible_tile_keys in
  let possible_tiles := tiles_of_keys (fastq_tiles s) possible_tile_keys in
  possible_tiles.

(** [impossible_tiles.sort(key=lambda tile: -len(tile.read_names))]: a
    stable sort, most reads first. *)
Fixpoint insert_by_reads (x : string * Tile) (l : list (string * Tile))
    : list (string * Tile) :=
  match l with
  | [] => [x]
  | y :: l' =>
      if (length (read_names y.2) <=? length (read_names x.2))%nat
      then x :: l else y :: insert_by_reads x l'
  end.

Definition sort_by_reads (l : list (string * Tile)) : list (string * Tile) :=
  foldr insert_by_reads [] l.

(** Line 147: the tiles of the catalogue that are not candidates, in the
    order of [self.fastq_tiles.values()]. *)
Definition impossible_tiles (possible : list string) (s : FastqImageAligner)
    : list (string * Tile) :=
  filter (λ kt, kt.1 ∉ possible) (map_to_list (fastq_tiles s)).

(** Lines 148-150. *)
Definition control_tiles (possible : list string) (s : FastqImageAligner)
    : list string :=
  (take 2 (sort_by_reads (impossible_tiles possible s))).*1.

(** Lines 155-163, one control tile. *)
Definition control_step (control_tile : string) : M unit :=
  tile ← tile_of control_tile;
  s ← get;
  let corr := (fft_align_with_im tile (image_data s)).1 in
  if Qltb (control_corr s) corr then modify (with_control_corr corr)
  else mret tt.

(** [max_corr / self.control_corr]. *)
Definition snr_of (max_corr control : Q) : snr_value :=
  if Qeq_bool control 0 then SNR_inf else SNR (max_corr / control).

Definition with_snr (v : snr_value) (t : Tile) : Tile :=
  mkTile (key t) (read_names t) (rcs t) (aligned_rcs t) (rotation t) (Some v).

(** Lines 166-177, one candidate tile. *)
Definition hitting_step (snr_thresh : Q) (k : string) : M unit :=
  tile ← tile_of k;
  s ← get;
  let '(max_corr, align_tr) := fft_align_with_im tile (image_data s) in
  if Qltb (snr_thresh * control_corr s) max_corr then
    let tile := set_aligned_rcs tile align_tr in
    let tile := with_snr (snr_of max_corr (control_corr s)) tile in
    update_tile k tile;;
    modify (λ s, with_hitting_tiles (hitting_tiles s ++ [k]) s)
  else mret tt.

Definition find_hitting_tiles (side1 : bool) (possible_tile_keys : list string)
    (snr_thresh : Q) : M unit :=
  s ← get;
  let possible_tiles := possible_tiles side1 possible_tile_keys s in
  let control_tiles := control_tiles possible_tiles s in
  padded ← lift (ImageData.set_fft (ImageData.image (image_data s))
                   (fq_im_scaled_dims s));
  modify (with_image_data
            (ImageData.mk (ImageData.image (image_data s))
               (ImageData.um_per_pixel (image_data s)) (Some padded)));;
  modify (with_control_corr 0);;
  for_each control_tiles control_step;;
  modify (with_hitting_tiles []);;
  for_each possible_tiles (hitting_step snr_thresh).

(** *** Hit classification: [find_points_in_frame], [find_hits] *)

(** [0 <= pt[0] < im_shape[0] and 0 <= pt[1] < im_shape[1]]. *)
Definition in_frame (im_shape : Z * Z) (pt : point) : bool :=
  Qle_bool 0 pt.1 && Qltb pt.1 (inject_Z im_shape.1)
  && Qle_bool 0 pt.2 && Qltb pt.2 (inject_Z im_shape.2).

(** An attribute that may be missing. *)
Definition attr {A} (name : string) (o : option A) : result A :=
  match o with
  | Some a => Ok a
  | None => Raise (AttributeError name)
  end.

(** Lines 197-199, for the read at position [ipt.1] of [tile]. *)
Definition frame_point (im_shape : Z * Z) (tile : Tile) (rcs : list (Z * Z))
    (aligned_rcs_in_frame : list point) (ipt : nat * point) : M (list point) :=
  if in_frame im_shape ipt.2 then
    rc ← lift (index rcs ipt.1);
    modify (λ s, with_rcs_in_frame (rcs_in_frame s ++ [(key tile, rc)]) s);;
    mret (aligned_rcs_in_frame ++ [ipt.2])
  else mret aligned_rcs_in_frame.

(** Lines 195-199, for the tile stored under [k]. *)
Definition frame_tile (im_shape : Z * Z) (aligned_rcs_in_frame : list point)
    (k : string) : M (list point) :=
  tile ← tile_of k;
  let rcs := map (λ rc : point, (trunc rc.1, trunc rc.2)) (rcs tile) in
  pts ← lift (attr "aligned_rcs" (aligned_rcs tile));
  fold_each (enumerate pts) aligned_rcs_in_frame (frame_point im_shape tile rcs).

(** [consider_tiles] is [None] for ['all'], or one tile. *)
Definition find_points_in_frame (consider_tiles : option string) : M unit :=
  modify (with_rcs_in_frame []);;
  s ← get;
  let im_shape := ImageData.shape (ImageData.image (image_data s)) in
  let considered_tiles :=
    match consider_tiles with
    | None => hitting_tiles s
    | Some tile => [tile]
    end in
  aligned_rcs_in_frame ← fold_each considered_tiles [] (frame_tile im_shape);
  modify (with_aligned_rcs_in_frame aligned_rcs_in_frame).

(** [single_hit_dist]: the distance between a cluster and an in-frame
    read, both looked up by index. *)
Definition single_hit_dist (s : FastqImageAligner) (h : hit) : result Q :=
  c ← index (clusters s) h.1;
  a ← index (aligned_rcs_in_frame s) h.2;
  Ok (linalg_norm ((c.1 - a.1)%Q, (c.2 - a.2)%Q)).

(** [hit_dists], for any way [dist] of measuring one hit. *)
Fixpoint dists_of (dist : hit → result Q) (hits : list hit) : result (list Q) :=
  match hits with
  | [] => Ok []
  | h :: hits' => d ← dist h; ds ← dists_of dist hits'; Ok (d :: ds)
  end.

Definition hit_dists (s : FastqImageAligner) : list hit → result (list Q) :=
  dists_of (single_hit_dist s).

Definition percentile_range_error : exn :=
  ValueError "Percentiles must be in the range [0, 100]".
Definition percentile_empty_error : exn :=
  IndexError "index -1 is out of bounds for axis 0 with size 0".

(** [np.percentile(a, q)] with numpy's default linear interpolation; it
    raises on an empty array. *)
Definition np_percentile (a : list Q) (q : Q) : result Q :=
  let a := ImageData.np_sort a in
  let n := length a in
  if Qltb q 0 || Qltb 100 q then Raise percentile_range_error
  else if (n =? 0)%nat then Raise percentile_empty_error
  else
    let indices := (q / 100 * inject_Z (Z.of_nat n - 1))%Q in
    let below := Z.to_nat (Qfloor indices) in
    let above := Nat.min (S below) (n - 1) in
    let weight_above := (indices - inject_Z (Qfloor indices))%Q in
    x1 ← index a below;
    x2 ← index a above;
    Ok (x1 * (1 - weight_above) + x2 * weight_above)%Q.

(** [[hit for hit in hits if dist(hit) <= thresh]]. *)
Fixpoint hits_within (dist : hit → result Q) (thresh : Q) (hits : list hit)
    : result (list hit) :=
  match hits with
  | [] => Ok []
  | h :: hits' =>
      d ← dist h;
      rest ← hits_within dist thresh hits';
      Ok (if Qle_bool d thresh then h :: rest else rest)
  end.

Definition remove_longest_hits (s : FastqImageAligner) (hits : list hit)
    (pct_thresh : Q) : result (list hit) :=
  match hits with
  | [] => Ok []
  | _ =>
      dists ← hit_dists s hits;
      thresh ← np_percentile dists (pct_thresh * 100)%Q;
      hits_within (single_hit_dist s) thresh hits
  end.

(** Lines 227-235: the two directional nearest-neighbour relations. *)
Definition cluster_to_aligned_indexes (aligned_tree : kdtree)
    (point_rcs : list point) : gset hit :=
  list_to_set (imap (λ i pt, (i, (query aligned_tree pt).2)) point_rcs).

Definition aligned_to_cluster_indexs_rev (cluster_tree : kdtree)
    (aligned : list point) : gset hit :=
  list_to_set (imap (λ i pt, ((query cluster_tree pt).2, i)) aligned).

(** Lines 240-246. *)
Definition mutual (c2a a2c : gset hit) : gset hit := c2a ∩ a2c.

Definition non_mutual (c2a a2c : gset hit) : gset hit :=
  (c2a ∖ a2c) ∪ (a2c ∖ c2a).

Definition uncapped_exclusive (c2a a2c : gset hit) : gset hit :=
  let cluster_in_non_mutual : gset nat := set_map fst (non_mutual c2a a2c) in
  let aligned_in_non_mutual : gset nat := set_map snd (non_mutual c2a a2c) in
  filter (λ h, (h.1 ∉ cluster_in_non_mutual) ∧ (h.2 ∉ aligned_in_non_mutual))
    (mutual c2a a2c).

(** Lines 253-258. *)
Definition good_hit_threshold (dist : hit → result Q) (um_per_pixel : Q)
    (exclusive : gset hit) : result Q :=
  if Qeq_bool um_per_pixel 0 then Raise ZeroDivisionError
  else if (trunc (16 / um_per_pixel) =? 60)%Z then Ok 5%Q
  else dists ← dists_of dist (elements exclusive); np_percentile dists 95.

(** Lines 261-262. *)
Definition capped_exclusive (dist : hit → result Q) (threshold : Q)
    (exclusive : gset hit) : result (gset hit) :=
  kept ← hits_within dist threshold (elements exclusive);
  Ok (list_to_set kept).

(** Line 268. *)
Definition third_wheels (non_mutual_hits : gset hit) (h : hit) : list hit :=
  filter (λ tup, h.1 = tup.1 ∨ h.2 = tup.2) (elements non_mutual_hits).

Definition min_error : exn := ValueError "min() arg is an empty sequence".

(** [min(l)]. *)
Definition py_min (l : list Q) : result Q :=
  match l with
  | [] => Raise min_error
  | x :: l' => Ok (foldl (λ m y, if Qltb y m then y else m) x l')
  end.
Arguments py_min : simpl never.

(** Lines 264-270: the loop over [mutual_hits - exclusive_hits], here over
    the list [todo] of its elements. *)
Fixpoint recover_good (dist : hit → result Q) (threshold : Q)
    (non_mutual_hits : gset hit) (todo : list hit) (good : gset hit)
    : result (gset hit) :=
  match todo with
  | [] => Ok good
  | h :: todo' =>
      d ← dist h;
      if Qltb threshold d then
        recover_good dist threshold non_mutual_hits todo' good
      else
        ds ← dists_of dist (third_wheels non_mutual_hits h);
        closest ← py_min ds;
        if Qltb (2 * threshold) closest then
          recover_good dist threshold non_mutual_hits todo' ({[h]} ∪ good)
        else recover_good dist threshold non_mutual_hits todo' good
  end.

(** Lines 276-280: the assertion. *)
Definition partition_check (hs : HitSets) (c2a a2c : gset hit) : bool :=
  bool_decide (non_mutual_hits hs ∪ bad_mutual_hits hs ∪ good_mutual_hits hs
                 ∪ exclusive_hits hs = c2a ∪ a2c)
  && (size (non_mutual_hits hs) + size (bad_mutual_hits hs)
      + size (good_mutual_hits hs) + size (exclusive_hits hs)
      =? size (c2a ∪ a2c))%nat.

(** Lines 240-280: from the two relations to the four categories. *)
Definition classify_hits (dist : hit → result Q) (um_per_pixel : Q)
    (c2a a2c : gset hit) : result HitSets :=
  let mutual_hits := mutual c2a a2c in
  let non_mutual_hits := non_mutual c2a a2c in
  let exclusive_hits := uncapped_exclusive c2a a2c in
  good_hit_threshold ← good_hit_threshold dist um_per_pixel exclusive_hits;
  exclusive_hits ← capped_exclusive dist good_hit_threshold exclusive_hits;
  good_mutual_hits ←
    recover_good dist good_hit_threshold non_mutual_hits
      (elements (mutual_hits ∖ exclusive_hits)) ∅;
  let bad_mutual_hits := mutual_hits ∖ exclusive_hits ∖ good_mutual_hits in
  let hs := mkHits non_mutual_hits mutual_hits bad_mutual_hits good_mutual_hits
              exclusive_hits in
  if partition_check hs c2a a2c then Ok hs else Raise AssertionError.

Definition kdtree_error : exn := ValueError "KDTree: no data points".

Definition build_tree (pts : list point) : result kdtree :=
  match KDTree pts with
  | Some tree => Ok tree
  | None => Raise kdtree_error
  end.

Definition find_hits (consider_tiles : option string) : M unit :=
  find_points_in_frame consider_tiles;;
  s ← get;
  cluster_tree ← lift (build_tree (clusters s));
  aligned_tree ← lift (build_tree (aligned_rcs_in_frame s));
  let c2a := cluster_to_aligned_indexes aligned_tree (clusters s) in
  let a2c := aligned_to_cluster_indexs_rev cluster_tree (aligned_rcs_in_frame s) in
  hs ← lift (classify_hits (single_hit_dist s)
               (ImageData.um_per_pixel (image_data s)) c2a a2c);
  modify (with_hits hs).

(** *** Precision alignment: [least_squares_mapping], [precision_align_only] *)

(** Lines 339-342: the candidate hit pool of one tile, exclusive and
    good-mutual hits without the longest ones. *)
Definition tile_hits (pct_thresh : Q) (tile : string) : M (list hit) :=
  find_hits (Some tile);;
  s ← get;
  let raw_hits :=
    elements (exclusive_hits (hits s)) ++ elements (good_mutual_hits (hits s)) in
  lift (remove_longest_hits s raw_hits pct_thresh).

(** Lines 347-356: the two rows of [A] and of [b] that one hit gives. *)
Definition equations_of (s : FastqImageAligner) (h : hit)
    : result (list (list Q) * list Q) :=
  rc ← index (rcs_in_frame s) h.2;
  let xir := inject_Z rc.2.1 in
  let yir := inject_Z rc.2.2 in
  c ← index (clusters s) h.1;
  Ok ([[xir; - yir; 1; 0]; [yir; xir; 0; 1]]%Q, [c.1; c.2]).

Fixpoint system_of (s : FastqImageAligner) (hits : list hit)
    : result (list (list Q) * list Q) :=
  match hits with
  | [] => Ok ([], [])
  | h :: hits' =>
      eq ← equations_of s h;
      rest ← system_of s hits';
      Ok (eq.1 ++ rest.1, eq.2 ++ rest.2)
  end.

Definition lstsq_error : exn :=
  LinAlgError "SVD did not converge in Linear Least Squares".

(** Lines 347-365: solve for the transform and apply it to the tile. *)
Definition refit_tile (k : string) (hits : list hit) : M unit :=
  s ← get;
  Ab ← lift (system_of s hits);
  x ← lift (match linalg_lstsq Ab.1 Ab.2 with
            | Some x => Ok x
            | None => Raise lstsq_error
            end);
  let '(alpha, beta, x_offset, y_offset) := x in
  let offset := (x_offset, y_offset) in
  let theta := arctan2 beta alpha in
  let lbda := (alpha / cos theta)%Q in
  tile ← tile_of k;
  let tile := set_aligned_rcs_given_transform tile lbda theta offset in
  let tile := set_correlation tile (ImageData.image (image_data s)) in
  let tile := set_snr_with_control_corr tile (control_corr s) in
  update_tile k tile.

(** Lines 339-365, for one hitting tile. *)
Definition mapping_step (pct_thresh : Q) (min_hits : Z)
    (found_good_mapping : bool) (tile : string) : M bool :=
  hits ← tile_hits pct_thresh tile;
  if (Z.of_nat (length hits) <? min_hits)%Z then mret found_good_mapping
  else refit_tile tile hits;; mret true.

Definition least_squares_mapping (pct_thresh : Q) (min_hits : Z) : M bool :=
  s ← get;
  fold_each (hitting_tiles s) false (mapping_step pct_thresh min_hits).

Definition alignment_not_found : exn := RuntimeError "Alignment not found".
Definition could_not_align : exn := ValueError "Could not precision align!".

Definition precision_align_only (min_hits : Z) : M unit :=
  s ← get;
  match hitting_tiles s with
  | [] => raise alignment_not_found
  | _ =>
      found_good_mapping ← least_squares_mapping (9 # 10) min_hits;
      if negb found_good_mapping then raise could_not_align
      else find_hits None
  end.

(** *** Output: [read_names_rcs] *)

(** The lines a tile contributes: its reads, paired with their aligned
    positions as [izip] does, that lie in the frame. *)
Definition lines_of_tile (im_shape : Z * Z) (names : list string)
    (pts : list point) : list (string * Q * Q) :=
  (λ np : string * point, (np.1, np.2.1, np.2.2))
    <$> filter (λ np : string * point, in_frame im_shape np.2 = true)
          (zip names pts).

(** The generator, run to its end from the tiles [tiles]: the lines it
    yields, and the exception that ended it, if one did.  A line
    ['%s\t%f\t%f\n'] is modelled by the triple it prints. *)
Fixpoint read_names_rcs_from (s : FastqImageAligner) (tiles : list string)
    : list (string * Q * Q) * option exn :=
  match tiles with
  | [] => ([], None)
  | k :: tiles' =>
      match fastq_tiles s !! k with
      | None => ([], Some (KeyError k))
      | Some tile =>
          match rotation tile with
          | None => read_names_rcs_from s tiles'
          | Some _ =>
              match aligned_rcs tile with
              | None => ([], Some (AttributeError "aligned_rcs"))
              | Some pts =>
                  let im_shape :=
                    ImageData.shape (ImageData.image (image_data s)) in
                  let rest := read_names_rcs_from s tiles' in
                  (lines_of_tile im_shape (read_names tile) pts ++ rest.1,
                   rest.2)
              end
          end
      end
  end.

Definition read_names_rcs (s : FastqImageAligner)
    : list (string * Q * Q) * option exn :=
  read_names_rcs_from s (hitting_tiles s).

End engine.

End Aligner.

(** ** Stand-ins for the tile class and the numeric routines

    Exact, computable instances of the two interfaces, for running the
    engine on small inputs. *)

Module Sample.
Import Aligner.

(** A tile whose correlation with any image is looked up in [corr] by its
    key, with no translation; a transform scales and shifts, and sets the
    rotation attribute. *)
Definition move (lbda : Q) (offset : point) (p : point) : point :=
  (lbda * p.1 + offset.1, lbda * p.2 + offset.2)%Q.

Definition tiles (corr : string → Q) : TileMethods point := {|
  fft_align_with_im t _ := (corr (key t), (0, 0)%Q);
  set_aligned_rcs t tr :=
    mkTile (key t) (read_names t) (rcs t) (Some (move 1 tr <$> rcs t))
      (Some 0%Q) (snr t);
  set_aligned_rcs_given_transform t lbda theta offset :=
    mkTile (key t) (read_names t) (rcs t) (Some (move lbda offset <$> rcs t))
      (Some theta) (snr t);
  set_correlation t _ := t;
  set_snr_with_control_corr t c := with_snr (snr_of (corr (key t)) c) t
|}.

Definition sqdist (p q : point) : Q :=
  ((p.1 - q.1) * (p.1 - q.1) + (p.2 - q.2) * (p.2 - q.2))%Q.

(** The index of the point of [pts] nearest to [p], and how far it is
    (squared); [best] is the nearest one seen so far. *)
Fixpoint nearest (p : point) (pts : list point) (i : nat) (best : Q * nat)
    : Q * nat :=
  match pts with
  | [] => best
  | q :: pts' =>
      nearest p pts' (S i)
        (if Qltb (sqdist p q) best.1 then (sqdist p q, i) else best)
  end.

(** Trees are lists of points, searched exhaustively; the norm is the
    taxicab norm, which is the Euclidean one on axis-parallel segments; the
    solver answers the identity transform. *)
Definition numerics : Numerics (list point) := {|
  KDTree pts := match pts with [] => None | _ => Some pts end;
  query tree p :=
    match tree with
    | [] => (0%Q, 0%nat)
    | q :: tree' => nearest p tree' 1 (sqdist p q, 0%nat)
    end;
  linalg_norm p := (Qabs p.1 + Qabs p.2)%Q;
  linalg_lstsq _ _ := Some (1, 0, 0, 0)%Q;
  arctan2 _ _ := 0%Q;
  cos _ := 1%Q
|}.

Definition no_hits : HitSets := mkHits ∅ ∅ ∅ ∅ ∅.

Definition tile (k : string) (names : list string) (pts : list point)
    (aligned : option (list point)) (rot : option Q) : Tile :=
  mkTile k names pts aligned rot None.

(** A catalogue of three tiles, two on side 2 of lane 1 and one on side 1,
    and a 12 by 12 image at 4/15 micron per pixel (so that int(16 / 4/15)
    is 60) with four clusters.  Tile 2101 correlates with the image at 10,
    tile 1101 at 3, tile 2102 at 2; tile 2101 is aligned and hitting. *)
Definition corr_table (k : string) : Q :=
  if String.eqb k "lane1tile2101" then 10
  else if String.eqb k "lane1tile1101" then 3
  else if String.eqb k "lane1tile2102" then 2
  else 1.

Definition chip_tiles : TileMethods point := tiles corr_table.

Definition frame : ImageData.t :=
  ImageData.mk (ImageData.constant_image 12 12 0) (4 # 15) None.

Definition tile_2101 : Tile :=
  tile "lane1tile2101" ["r1"; "r2"; "r3"; "r4"]
    [(1, 2); (5, 5); (20, 20); (9, 8)]%Q
    (Some [(1, 2); (5, 5); (20, 20); (9, 8)]%Q) (Some 0%Q).

Definition tile_1101 : Tile :=
  tile "lane1tile1101" ["a"; "b"] [(1, 1); (2, 2)]%Q None None.

Definition tile_2102 : Tile :=
  tile "lane1tile2102" ["a"; "b"; "c"] [(1, 1); (2, 2); (3, 3)]%Q None None.

Definition catalogue : gmap string Tile :=
  <["lane1tile2101" := tile_2101]>
    (<["lane1tile1101" := tile_1101]> (<["lane1tile2102" := tile_2102]> ∅)).

Definition chip : FastqImageAligner :=
  mkAligner catalogue frame (3, 3)%Z 0 [(1, 1); (5, 5); (9, 9); (9, 7)]%Q
    ["lane1tile2101"] [] [] no_hits.


(** The same engine with tile 1101, which has no rotation, listed as
    hitting before tile 2101. *)
Definition chip_partial : FastqImageAligner :=
  with_hitting_tiles ["lane1tile1101"; "lane1tile2101"] chip.

End Sample.

(** ** Notions used to state the properties *)

Module Notions.
Import Aligner.

Section notions.
Context {transform kdtree : Type}.
Context `{!TileMethods transform} `{!Numerics kdtree}.

(** The peak correlation of the tile stored under [k] with the image of
    [s]. *)
Definition peak_corr (s : FastqImageAligner) (k : string) : Q :=
  match fastq_tiles s !! k with
  | Some t => (fft_align_with_im t (image_data s)).1
  | None => 0
  end.

(** The running maximum of lines 153-163, from [c0]. *)
Definition max_corr_from (c0 : Q) (corrs : list Q) : Q :=
  foldl (λ c corr, if Qltb c corr then corr else c) c0 corrs.

(** The test of line 174 on the tile stored under [k]. *)
Definition exceeds (snr_thresh : Q) (s : FastqImageAligner) (k : string) : bool :=
  Qltb (snr_thresh * control_corr s) (peak_corr s k).


(** The exceptions that the tile store, the numeric routines and the
    look-ups by index raise. *)
Inductive engine_error : exn → Prop :=
| engine_key k : engine_error (KeyError k)
| engine_attribute a : engine_error (AttributeError a)
| engine_index msg : engine_error (IndexError msg)
| engine_zero_division : engine_error ZeroDivisionError
| engine_linalg msg : engine_error (LinAlgError msg)
| engine_kdtree : engine_error kdtree_error
| engine_percentile : engine_error percentile_range_error.

(** Two states of the engine with the same catalogue, image, clusters and
    hitting tiles; they may differ in what the last hit classification
    left: the in-frame reads and the hit categories. *)
Definition same_inputs (s s' : FastqImageAligner) : Prop :=
  fastq_tiles s = fastq_tiles s'
  ∧ image_data s = image_data s'
  ∧ fq_im_scaled_dims s = fq_im_scaled_dims s'
  ∧ control_corr s = control_corr s'
  ∧ clusters s = clusters s'
  ∧ hitting_tiles s = hitting_tiles s'.

(** The four categories are pairwise disjoint and together make [all]. *)
Definition partition_of (hs : HitSets) (all : gset hit) : Prop :=
  non_mutual_hits hs ## bad_mutual_hits hs
  ∧ non_mutual_hits hs ## good_mutual_hits hs
  ∧ non_mutual_hits hs ## exclusive_hits hs
  ∧ bad_mutual_hits hs ## good_mutual_hits hs
  ∧ bad_mutual_hits hs ## exclusive_hits hs
  ∧ good_mutual_hits hs ## exclusive_hits hs
  ∧ non_mutual_hits hs ∪ bad_mutual_hits hs ∪ good_mutual_hits hs
      ∪ exclusive_hits hs = all.


End notions.
End Notions.

(** ** Notions and models for the further properties *)

(** ** More notions for hit classification *)

Module HitNotions.
Import Aligner Notions.

(** No two hits of the set share a cluster or a read. *)
Definition one_to_one (hs : gset hit) : Prop :=
  ∀ h h', h ∈ hs → h' ∈ hs → h.1 = h'.1 ∨ h.2 = h'.2 → h = h'.

(** The hits of all four categories. *)
Definition all_hits (hs : HitSets) : gset hit :=
  non_mutual_hits hs ∪ bad_mutual_hits hs ∪ good_mutual_hits hs
    ∪ exclusive_hits hs.

End HitNotions.

Module FrameNotions.
Import Aligner Notions.

(** The in-frame point [pt] and the entry [kr] of [rcs_in_frame] are the
    aligned position and the truncated native coordinates of one read of
    one of the tiles [considered]. *)
Definition same_read (s : FastqImageAligner) (considered : list string)
    (pt : point) (kr : string * (Z * Z)) : Prop :=
  ∃ k tile pts i native,
    k ∈ considered ∧ fastq_tiles s !! k = Some tile ∧ kr.1 = key tile
    ∧ aligned_rcs tile = Some pts ∧ pts !! i = Some pt
    ∧ rcs tile !! i = Some native
    ∧ kr.2 = (trunc native.1, trunc native.2).

(** The tiles that [find_points_in_frame] goes through. *)
Definition considered_tiles (consider_tiles : option string)
    (s : FastqImageAligner) : list string :=
  match consider_tiles with
  | None => hitting_tiles s
  | Some tile => [tile]
  end.

(** What [find_points_in_frame] keeps while it runs: the catalogue, and
    the in-frame points in step with [rcs_in_frame]. *)
Definition frame_invariant (s0 : FastqImageAligner) (considered : list string)
    (acc : list point) (s : FastqImageAligner) : Prop :=
  fastq_tiles s = fastq_tiles s0
  ∧ Forall2 (λ pt kr,
       in_frame (ImageData.shape (ImageData.image (image_data s0))) pt = true
       ∧ same_read s0 considered pt kr) acc (rcs_in_frame s).

End FrameNotions.

Module RoughNotions.
Import Aligner Notions.

(** The signal-to-noise ratio recorded on tile [t] is above [snr_thresh];
    it is infinite exactly when the control correlation is zero. *)
Definition snr_above (snr_thresh control : Q) (t : Tile) : Prop :=
  match snr t with
  | Some (SNR q) => (snr_thresh < q)%Q ∧ ¬ (control == 0)%Q
  | Some SNR_inf => (control == 0)%Q
  | None => False
  end.

End RoughNotions.

Module PrecisionNotions.
Import Aligner Notions.

(** Two states of the engine with the same image, clusters, control
    correlation and hitting tiles, and the same keys in the catalogue. *)
Definition same_setup (s s' : FastqImageAligner) : Prop :=
  image_data s = image_data s'
  ∧ fq_im_scaled_dims s = fq_im_scaled_dims s'
  ∧ control_corr s = control_corr s'
  ∧ clusters s = clusters s'
  ∧ hitting_tiles s = hitting_tiles s'
  ∧ dom (fastq_tiles s) = dom (fastq_tiles s').

End PrecisionNotions.

Module ImageNotions.
Import ImageData.

(** The pixel in row [i] and column [j], when there is one. *)
Definition pixel (im : pixels) (i j : nat) : option Q :=
  r ← im !! i; r !! j.



End ImageNotions.

(** ** [set_fastq_tile_mappings] *)

Module TileMappings.
Import Aligner.

(** The four attributes [set_fastq_tile_mappings] stores. *)
Record t : Type := mk {
  fq_im_offset : point;
  fq_im_scale : Q;
  fq_im_scaled_maxes : point;
  fq_im_scaled_dims : Z * Z
}.







End TileMappings.

(** ** align.py: the drivers of the engine *)

Module Align.
Import Aligner.

(** [calculate_process_count], as a function of
    [multiprocessing.cpu_count()] and [image_count]. *)
Definition calculate_process_count (cpu_count image_count : Z) : Z * Z :=
  let num_processes := Z.max (cpu_count - 2) 1 in
  let chunksize :=
    Z.min 32
      (Qceiling (inject_Z image_count / inject_Z num_processes) + 1) in
  (num_processes, chunksize).

(** Lines 26-27 and 48-49: [if process_limit > 0: num_processes =
    min(process_limit, num_processes)]. *)
Definition limit_processes (process_limit num_processes : Z) : Z :=
  if (0 <? process_limit)%Z then Z.min process_limit num_processes
  else num_processes.

(** [rows_to_check] in [check_column_for_alignment], for a grid of
    [height] rows; [/] is the integer division of Python 2. *)
Definition rows_to_check (height : Z) : list Z :=
  if (2 <? height)%Z then
    let center_row := (height / 2)%Z in
    [center_row; (center_row + 1)%Z; (center_row - 1)%Z]
  else map Z.of_nat (seq 0 (Z.to_nat height)).

(** What becomes of an image once its engine is prepared: the alignment
    is written, the image is passed over, or an exception leaves the
    function. *)
Inductive outcome : Type :=
| Written (fia : FastqImageAligner)
| Skipped
| Escaped (e : exn).

Definition is_ValueError (e : exn) : bool :=
  match e with ValueError _ => true | _ => false end.
Definition is_IndexError (e : exn) : bool :=
  match e with IndexError _ => true | _ => false end.

Section drivers.
Context {transform kdtree : Type}.
Context `{!TileMethods transform} `{!Numerics kdtree}.

(** [perform_alignment] from line 96 on, [fia] being the engine that
    [process_alignment_image] returned: precision alignment runs only with
    hitting tiles; its [ValueError] is caught at line 100, an [IndexError]
    at line 109; [write_output] is called otherwise. *)
Definition perform_alignment (min_hits : Z) (fia : FastqImageAligner)
    : outcome :=
  match hitting_tiles fia with
  | [] => Skipped
  | _ =>
      match precision_align_only min_hits fia with
      | (Ok _, fia') => Written fia'
      | (Raise e, _) =>
          if is_ValueError e then Skipped
          else if is_IndexError e then Skipped
          else Escaped e
      end
  end.

(** [process_data_image] from line 215 on, [local_fia] being the engine
    after [alignment_from_alignment_file]: [except (IndexError,
    ValueError)], [else: write_output]. *)
Definition process_data_image (min_hits : Z) (local_fia : FastqImageAligner)
    : outcome :=
  match precision_align_only min_hits local_fia with
  | (Ok _, fia') => Written fia'
  | (Raise e, _) =>
      if is_IndexError e || is_ValueError e then Skipped else Escaped e
  end.

End drivers.

(** The exceptions of the engine that neither driver catches. *)
Inductive uncaught : exn → Prop :=
| uncaught_key k : uncaught (KeyError k)
| uncaught_attribute a : uncaught (AttributeError a)
| uncaught_zero_division : uncaught ZeroDivisionError
| uncaught_linalg msg : uncaught (LinAlgError msg).

End Align.

(** ** readmap.py: the sequence of a read and the reads of a target *)

Module ReadMap.
Import Aligner.

(** A Python [str] as the list of its characters. *)
Abbreviation str := (list ascii) (only parsing).

(** [l[:stop]] and [l[start:]], with Python's reading of a negative
    index. *)
Definition slice_to {A} (stop : Z) (l : list A) : list A :=
  if (0 <=? stop)%Z then take (Z.to_nat stop) l
  else take (Z.to_nat (Z.of_nat (length l) + stop)) l.

Definition slice_from {A} (start : Z) (l : list A) : list A :=
  if (0 <=? start)%Z then drop (Z.to_nat start) l
  else drop (Z.to_nat (Z.of_nat (length l) + start)) l.

(** [range(a, b)]. *)
Definition range (a b : Z) : list Z :=
  map (λ k, (a + Z.of_nat k)%Z) (seq 0 (Z.to_nat (b - a))).

(** [zip] of four lists: as long as the shortest. *)
Fixpoint zip4 {A B C D} (a : list A) (b : list B) (c : list C) (d : list D)
    : list (A * B * C * D) :=
  match a, b, c, d with
  | x :: a', y :: b', z :: c', w :: d' => (x, y, z, w) :: zip4 a' b' c' d'
  | _, _, _, _ => []
  end.

(** The attributes of a [SeqRecord] that [classify_seq] reads. *)
Record SeqRecord : Type := mkSeqRecord {
  seq_of : str;
  phred_quality : list Z
}.

(** [c in set('ACGT')]. *)
Definition in_bases (c : ascii) : bool :=
  bool_decide (c ∈ ["A"; "C"; "G"; "T"]%char).

Section classify.
(** [simple_hamming_distance] of [champ.adapters_cython],
    [Seq.reverse_complement] of Biopython and the table [log_p_struct],
    whose look-ups can fail. *)
Variable simple_hamming_distance : str → str → Z.
Variable reverse_complement : str → str.
Variable log_p_struct : ascii → ascii → Z → result Q.

(** One round of the loop of lines 308-323: the base to append, or [None]
    where the function returns [None]. *)
Definition ML_base (r1 : ascii) (q1 : Z) (r2 : ascii) (q2 : Z)
    : result (option ascii) :=
  if in_bases r1 && bool_decide (r1 = r2) then Ok (Some r1)
  else if in_bases r1 && in_bases r2 && (2 <? q1)%Z && (2 <? q2)%Z then
    a ← log_p_struct r1 r1 q1;
    b ← log_p_struct r1 r2 q2;
    c ← log_p_struct r2 r1 q1;
    d ← log_p_struct r2 r2 q2;
    let r1_score := (a + b)%Q in
    let r2_score := (c + d)%Q in
    Ok (Some (if Qltb r2_score r1_score then r1 else r2))
  else if in_bases r1 && (2 <? q1)%Z then Ok (Some r1)
  else if in_bases r2 && (2 <? q2)%Z then Ok (Some r2)
  else Ok None.

(** What one round of the loop may append for the bases [r1] and [r2]. *)
Definition chosen (r1 r2 c : ascii) : Prop :=
  in_bases c = true ∧ (c = r1 ∨ c = r2).

(** The loop that builds [ML_bases]. *)
Fixpoint ML_bases (l : list (ascii * Z * ascii * Z)) : result (option str) :=
  match l with
  | [] => Ok (Some [])
  | (r1, q1, r2, q2) :: l' =>
      base ← ML_base r1 q1 r2 q2;
      match base with
      | None => Ok None
      | Some b =>
          rest ← ML_bases l';
          Ok (option_map (cons b) rest)
      end
  end.

(** [sig_lens]: the lengths at which the start of the first read and the
    end of the reverse complement of the second are close enough. *)
Definition sig_lens (seq1 seq2_rc : str) (min_len max_len : Z)
    (max_ham_dists : list Q) : list Z :=
  let loc_max_len :=
    Z.min (Z.min max_len (Z.of_nat (length seq1)))
          (Z.of_nat (length seq2_rc)) in
  map fst
    (filter (λ im, Qltb (inject_Z (simple_hamming_distance
                                     (slice_to im.1 seq1)
                                     (slice_from (- im.1) seq2_rc)))
                        im.2 = true)
       (zip (range min_len (loc_max_len + 1)) max_ham_dists)).

Definition classify_seq (rec1 rec2 : SeqRecord) (min_len max_len : Z)
    (max_ham_dists : list Q) : result (option str) :=
  let seq1 := seq_of rec1 in
  let seq2_rc := reverse_complement (seq_of rec2) in
  match sig_lens seq1 seq2_rc min_len max_len max_ham_dists with
  | [seq2_len] =>
      let seq2_match := slice_from (- seq2_len) seq2_rc in
      let seq1_match := slice_to seq2_len seq1 in
      let quals1 := slice_to seq2_len (phred_quality rec1) in
      let quals2 := slice_from (- seq2_len) (reverse (phred_quality rec2)) in
      ML_bases (zip4 seq1_match quals1 seq2_match quals2)
  | _ => Ok None
  end.

End classify.

Section targets.
(** [editdistance.eval]. *)
Variable editdistance_eval : str → str → Z.

(** [min] of a sequence of integers. *)
Definition min_int (l : list Z) : result Z :=
  match l with
  | [] => Raise min_error
  | x :: l' => Ok (foldl Z.min x l')
  end.

(** Lines 197-201 of [determine_target_reads]: the distance of a read to
    the target. *)
Definition min_edit_dist (target_sequence seq : str) : result Z :=
  let n := Z.of_nat (length seq) in
  let m := Z.of_nat (length target_sequence) in
  if (m <? n)%Z then
    min_int (map (λ i, editdistance_eval target_sequence
                        (slice_to m (slice_from i seq)))
              (range 0 (n - m)))
  else Ok (editdistance_eval target_sequence seq).

End targets.

(** [s.split(sep)] for a separator of one character. *)
Fixpoint split (sep : ascii) (s : str) : list str :=
  match s with
  | [] => [[]]
  | c :: s' =>
      if bool_decide (c = sep) then [] :: split sep s'
      else match split sep s' with
           | [] => [[c]]
           | w :: ws => (c :: w) :: ws
           end
  end.

(** [determine_side]: [record_id.split(":")[4][0]]. *)
Definition determine_side (record_id : str) : result ascii :=
  field ← index (split ":"%char record_id) 4;
  index field 0.

End ReadMap.

(** ** [load_read_names] of align.py *)

Module ReadNames.
Import Aligner ReadMap.

(** The characters [str.strip()] removes: space, tab, line feed, carriage
    return, vertical tab and form feed. *)
Definition is_space (c : ascii) : bool :=
  bool_decide (c ∈ [" "; "009"; "010"; "013"; "011"; "012"]%char).

Fixpoint lstrip (s : str) : str :=
  match s with
  | [] => []
  | c :: s' => if is_space c then lstrip s' else s
  end.

Definition strip (s : str) : str := reverse (lstrip (reverse (lstrip s))).

(** [s.split(sep, maxsplit)]. *)
Fixpoint split_max (sep : ascii) (s : str) (maxsplit : nat) : list str :=
  match s with
  | [] => [[]]
  | c :: s' =>
      match maxsplit with
      | 0 => [s]
      | S n =>
          if bool_decide (c = sep) then [] :: split_max sep s' n
          else match split_max sep s' maxsplit with
               | [] => [[c]]
               | w :: ws => (c :: w) :: ws
               end
      end
  end.

(** [s.rsplit(sep, maxsplit)]: the same, from the right. *)
Definition rsplit (sep : ascii) (s : str) (maxsplit : nat) : list str :=
  reverse (map reverse (split_max sep (reverse s) maxsplit)).

(** [lane, tile = line.strip().rsplit(':', 4)[1:3]] and the key made of
    them; [None] where the unpacking raises the [ValueError] that the
    function catches. *)
Definition read_key (line : str) : option str :=
  match slice_to 2 (slice_from 1 (rsplit ":"%char (strip line) 4)) with
  | [lane; tile] =>
      Some (["l"; "a"; "n"; "e"]%char ++ lane
              ++ ["t"; "i"; "l"; "e"]%char ++ tile)
  | _ => None
  end.

(** One round of the loop over the lines: [tiles[key].add(line.strip())]
    on a [defaultdict(set)]. *)
Definition add_line (tiles : gmap str (gset str)) (line : str)
    : gmap str (gset str) :=
  match read_key line with
  | Some key => <[key := default ∅ (tiles !! key) ∪ {[strip line]}]> tiles
  | None => tiles
  end.

(** [load_read_names], [lines] being the lines of the file at
    [file_path].  The read names of a tile come out of a set: their order
    is that of [elements]. *)
Definition load_read_names (file_path : str) (lines : list str)
    : gmap str (list str) :=
  match file_path with
  | [] => ∅
  | _ => elements <$> foldl add_line ∅ lines
  end.

(** What the loop has stored after the lines [lines]. *)
Definition grouped (lines : list str) (tiles : gmap str (gset str)) : Prop :=
  (∀ key names, tiles !! key = Some names → names ≠ ∅)
  ∧ ∀ key name,
      name ∈ default ∅ (tiles !! key)
      ↔ ∃ line, line ∈ lines ∧ strip line = name ∧ read_key line = Some key.

End ReadNames.

(** ** Sample reads, to run the functions of readmap.py on *)

Module SampleReads.
Import Aligner ReadMap.

(** The number of positions at which two sequences differ, plus the
    difference of their lengths. *)
Fixpoint mismatches (a b : str) : Z :=
  match a, b with
  | x :: a', y :: b' =>
      ((if bool_decide (x = y) then 0 else 1) + mismatches a' b')%Z
  | [], l | l, [] => Z.of_nat (length l)
  end.

Definition complement (c : ascii) : ascii :=
  if bool_decide (c = "A"%char) then "T"%char
  else if bool_decide (c = "T"%char) then "A"%char
  else if bool_decide (c = "C"%char) then "G"%char
  else if bool_decide (c = "G"%char) then "C"%char
  else c.

Definition reverse_complement (s : str) : str := reverse (map complement s).

(** A table that favours the base that was read. *)
Definition log_p (true_base read_base : ascii) (q : Z) : result Q :=
  Ok (if bool_decide (true_base = read_base) then 0 else - inject_Z q)%Q.

Definition read1 : SeqRecord :=
  mkSeqRecord ["A"; "C"; "G"; "T"; "T"]%char [30; 30; 30; 30; 30]%Z.

(** The second read of the pair: the reverse complement of ACGA, read
    with a low quality at its first base. *)
Definition read2 : SeqRecord :=
  mkSeqRecord ["T"; "C"; "G"; "T"]%char [10; 30; 30; 30]%Z.

End SampleReads.

(** ** [load_reads] *)

Module Loading.
Import Aligner.

Section load_reads.
(** The constructor [FastqTileRCs(tile_key, read_names,
    microns_per_pixel)], of [champ/fastqtilercs.py]. *)
Variable FastqTileRCs : string → list string → Q → Tile.

(** [valid_keys is None or tile_key in valid_keys]. *)
Definition is_valid (valid_keys : option (list string)) (tile_key : string)
    : bool :=
  match valid_keys with
  | None => true
  | Some keys => bool_decide (tile_key ∈ keys)
  end.

(** [load_reads]: the loop over [tile_data.items()], on the catalogue
    [fastq_tiles]. *)
Definition load_reads (microns_per_pixel : Q)
    (tile_data : gmap string (list string))
    (valid_keys : option (list string)) (fastq_tiles : gmap string Tile)
    : gmap string Tile :=
  map_fold
    (λ tile_key read_names tiles,
       if is_valid valid_keys tile_key
       then <[tile_key := FastqTileRCs tile_key read_names microns_per_pixel]>
              tiles
       else tiles)
    fastq_tiles tile_data.

End load_reads.
End Loading.

(** ** The images [iterate_all_images] hands out *)

Module Images.
Import Aligner.

(** Line 155 of [build_end_tiles]: the columns between which the
    images of a file are aligned. *)
Definition end_columns (left_column right_column : Z) : Z * Z :=
  (Z.min left_column right_column, Z.max left_column right_column).

Section iterate.
(** The images of one file: [grid.get(row, column)] and [grid._height];
    [image.column]; and whether an image is aligned already
    ([alignment_is_complete(stats_path) and
    os.path.exists(alignment_path)]). *)
Variable Image : Type.
Variable image_column : Image → Z.
Variable get : Z → Z → option Image.
Variable height : Z.
Variable already_aligned : Image → bool.

(** The rows, columns and tiles that are yielded. *)
Definition item : Type := Z * Z * list string.

(** The body of the loops of lines 294-307: nothing for a missing or an
    aligned image, else the item to yield; [tile_map[image.column]] can
    fail. *)
Definition image_step (tile_map : gmap Z (list string)) (row column : Z)
    : result (option item) :=
  match get row column with
  | None => Ok None
  | Some image =>
      if already_aligned image then Ok None
      else match tile_map !! image_column image with
           | Some tiles => Ok (Some (row, column, tiles))
           | None => Raise (KeyError (pretty (image_column image)))
           end
  end.

(** An image that is there, is not aligned yet and has its tiles in the
    map. *)
Definition pending (tile_map : gmap Z (list string)) (it : item) : Prop :=
  ∃ image, get it.1.1 it.1.2 = Some image
           ∧ already_aligned image = false
           ∧ tile_map !! image_column image = Some it.2.

(** A generator's run over the cells (column, row): what it yields, and
    the exception that ends it, if any. *)
Fixpoint yields (tile_map : gmap Z (list string)) (cells : list (Z * Z))
    : list item * option exn :=
  match cells with
  | [] => ([], None)
  | (column, row) :: rest =>
      match image_step tile_map row column with
      | Ok None => yields tile_map rest
      | Ok (Some it) =>
          (it :: (yields tile_map rest).1, (yields tile_map rest).2)
      | Raise e => ([], Some e)
      end
  end.

(** [for column in range(min_column, max_column): for row in
    range(grid._height)]. *)
Definition cells (min_column max_column : Z) : list (Z * Z) :=
  column ← ReadMap.range min_column max_column;
  row ← ReadMap.range 0 height;
  [(column, row)].

(** [iterate_all_images] for one file, whose entry of [end_tiles] is
    [(min_column, max_column, tile_map)]. *)
Definition iterate_all_images (end_tiles : Z * Z * gmap Z (list string))
    : list item * option exn :=
  let '(min_column, max_column, tile_map) := end_tiles in
  yields tile_map (cells min_column max_column).

End iterate.
End Images.

(** ** A sparse engine: one read between two clusters *)

Module SparseSample.
Import Aligner Sample.




End SparseSample.

(** * Properties *)

(** ** Rationals and results *)

Lemma Qltb_lt x y : Qltb x y = true ↔ (x < y)%Q.
Proof.
  unfold Qltb. rewrite negb_true_iff, <- not_true_iff_false, Qle_bool_iff.
  split; [apply Qnot_le_lt | apply Qlt_not_le].
Qed.

Lemma Qltb_ge x y : Qltb x y = false ↔ (y <= x)%Q.
Proof.
  unfold Qltb. rewrite negb_false_iff. apply Qle_bool_iff.
Qed.

Lemma Qle_bool_refl x : Qle_bool x x = true.
Proof. apply Qle_bool_iff, Qle_refl. Qed.

(** ** The image surface *)

Section image_facts.
Import ImageData.

Lemma np_sort_replicate n m : np_sort (replicate n m) = replicate n m.
Proof.
  induction n as [|n IH]; [done|].
  change (np_sort (replicate (S n) m))
    with (insert_sorted m (np_sort (replicate n m))).
  rewrite IH. destruct n; [done|]. simpl. by rewrite Qle_bool_refl.
Qed.

Lemma concat_constant h w (m : Q) :
  concat (constant_image h w m) = replicate (h * w) m.
Proof.
  unfold constant_image. induction h as [|h IH]; [done|].
  simpl. by rewrite IH, replicate_add.
Qed.

(** The median of a constant array is its value, up to the way the
    rational is written. *)
Lemma np_median_replicate n m :
  np_median (replicate n m) = None ∧ n = 0%nat
  ∨ ∃ med, np_median (replicate n m) = Some med ∧ (med == m)%Q.
Proof.
  unfold np_median. rewrite np_sort_replicate, length_replicate.
  destruct n as [|n]; [by left|right].
  change (S n =? 0)%nat with false. cbv iota.
  assert (S n / 2 < S n)%nat by (apply Nat.div_lt; lia).
  destruct (Nat.odd (S n)).
  - exists m. split; [|reflexivity]. by apply lookup_replicate_2.
  - exists ((m + m) / 2)%Q. split; [|field].
    rewrite !lookup_replicate_2 by lia. done.
Qed.

Lemma shape_of_rows (l : pixels) (rows cols : nat) :
  length l = rows → (0 < rows)%nat → Forall (λ r, length r = cols) l →
  shape l = (Z.of_nat rows, Z.of_nat cols).
Proof.
  intros Hl Hpos Hall. unfold shape. destruct l as [|r l]; simpl in *; [lia|].
  apply Forall_cons in Hall as [-> _]. by rewrite Hl.
Qed.

Lemma next_power_of_2_mono a b : (a ≤ b)%Z → (next_power_of_2 a ≤ next_power_of_2 b)%Z.
Proof.
  intros. unfold next_power_of_2.
  apply Z.pow_le_mono_r; [lia|]. by apply Z.log2_up_le_mono.
Qed.

Lemma next_power_of_2_max a b :
  Z.max (next_power_of_2 a) (next_power_of_2 b) = next_power_of_2 (Z.max a b).
Proof.
  destruct (Z.le_ge_cases a b) as [H|H].
  - pose proof (next_power_of_2_mono _ _ H). by rewrite !Z.max_r.
  - pose proof (next_power_of_2_mono _ _ H). by rewrite !Z.max_l.
Qed.

Lemma next_power_of_2_ge a : (a ≤ next_power_of_2 a)%Z.
Proof.
  unfold next_power_of_2. destruct (Z.le_gt_cases a 1) as [H|H].
  - rewrite Z.log2_up_eqn0 by done. simpl. lia.
  - apply Z.log2_up_spec in H. lia.
Qed.

Lemma next_power_of_2_least a j :
  (0 ≤ j)%Z → (a ≤ 2 ^ j)%Z → (next_power_of_2 a ≤ 2 ^ j)%Z.
Proof.
  intros Hj Ha. unfold next_power_of_2.
  apply Z.pow_le_mono_r; [lia|].
  destruct (Z.le_gt_cases a 1) as [H|H].
  - by rewrite Z.log2_up_eqn0.
  - apply Z.log2_up_spec in H as [H _].
    assert (2 ^ Z.pred (Z.log2_up a) < 2 ^ j)%Z as Hlt by lia.
    apply Z.pow_lt_mono_r_iff in Hlt; lia.
Qed.

End image_facts.

Section image_claims.
Import ImageData.

(** C8. [median_normalize] divides every pixel by the median of the image
    and subtracts 1; on a constant image of value [m > 0], of any height
    and width, it gives an image of the same shape whose pixels are all
    zero. *)
Theorem median_normalize_constant :
  (∀ (im : pixels) (med : Q),
     np_median (concat im) = Some med → ¬ (med == 0)%Q →
     median_normalize im = Some (map (map (λ p, p / med - 1)%Q) im))
  ∧ (∀ (h w : nat) (m : Q),
       (0 < m)%Q →
       ∃ out, median_normalize (constant_image h w m) = Some out
              ∧ length out = h
              ∧ Forall (λ row, length row = w
                               ∧ Forall (λ p, (p == 0)%Q) row) out).
Proof.
  split.
  - intros im med Hmed Hne. unfold median_normalize. rewrite Hmed.
    destruct (Qeq_bool med 0) eqn:E; [|done].
    by apply Qeq_bool_iff in E.
  - intros h w m Hm. unfold median_normalize.
    rewrite concat_constant.
    destruct (np_median_replicate (h * w) m) as [[-> Hz]|(med & -> & Hmed)].
    + exists (constant_image h w m). unfold constant_image.
      split; [done|]. split; [apply length_replicate|].
      destruct h as [|h]; [constructor|].
      assert (w = 0%nat) as -> by lia.
      apply Forall_replicate. split; [done|constructor].
    + assert (¬ (med == 0)%Q) as Hne.
      { rewrite Hmed. intros H0. rewrite H0 in Hm. by apply Qlt_irrefl in Hm. }
      destruct (Qeq_bool med 0) eqn:E; [by apply Qeq_bool_iff in E|].
      eexists. split; [done|]. unfold constant_image.
      rewrite !length_map, length_replicate. split; [done|].
      apply Forall_forall. intros row Hrow.
      apply list_elem_of_fmap in Hrow as (row0 & -> & Hrow0).
      apply elem_of_replicate in Hrow0 as [-> _].
      rewrite length_map, length_replicate. split; [done|].
      apply Forall_forall. intros p Hp.
      apply list_elem_of_fmap in Hp as (p0 & -> & Hp0).
      apply elem_of_replicate in Hp0 as [-> _].
      rewrite Hmed. field. intros H0. rewrite H0 in Hm.
      by apply Qlt_irrefl in Hm.
Qed.

Lemma np_pad_rows (im : pixels) (a b c d : Z) (w : nat) :
  (0 ≤ a)%Z → (0 ≤ b)%Z → (0 ≤ c)%Z → (0 ≤ d)%Z →
  Forall (λ r, length r = w) im → (shape im).2 = Z.of_nat w →
  ∃ padded, np_pad im (a, b) (c, d) = Ok padded
            ∧ length padded = (Z.to_nat a + length im + Z.to_nat b)%nat
            ∧ Forall (λ r, length r = (Z.to_nat c + w + Z.to_nat d)%nat) padded.
Proof.
  intros Ha Hb Hc Hd Hrows Hw. unfold np_pad.
  rewrite bool_decide_eq_true_2 by (simpl; done).
  rewrite Hw. cbn [fst snd].
  eexists. split; [done|]. split.
  - rewrite !length_app, length_map, !length_replicate. lia.
  - assert (Z.to_nat (c + Z.of_nat w + d) = (Z.to_nat c + w + Z.to_nat d)%nat)
      as -> by lia.
    rewrite !Forall_app. split_and!.
    + apply Forall_replicate, length_replicate.
    + apply Forall_fmap. eapply Forall_impl; [exact Hrows|].
      intros r Hr. unfold compose. simpl in Hr.
      rewrite !length_app, !length_replicate. lia.
    + apply Forall_replicate, length_replicate.
Qed.

(** C6. For a rectangular image and a non-negative padding, [set_fft]
    pads the image to a square whose side is the smallest power of two
    that is at least the larger of height plus row padding and width plus
    column padding.  Whatever the padding routine returns, [set_fft] ends
    with the value error unless the padded shape is exactly that square. *)
Theorem set_fft_power_of_2_square (im : pixels) (ph pw : Z) :
  rectangular im → (0 ≤ ph)%Z → (0 ≤ pw)%Z →
  let need := Z.max ((shape im).1 + ph) ((shape im).2 + pw) in
  ∃ k, (0 ≤ k)%Z
    ∧ fft_dimension im (ph, pw) = (2 ^ k)%Z
    ∧ (need ≤ 2 ^ k)%Z
    ∧ (∀ j, (0 ≤ j)%Z → (need ≤ 2 ^ j)%Z → (2 ^ k ≤ 2 ^ j)%Z)
    ∧ (∃ padded, set_fft im (ph, pw) = Ok padded
                 ∧ shape padded = (2 ^ k, 2 ^ k)%Z
                 ∧ rectangular padded)
    ∧ (∀ pad e, set_fft_with pad im (ph, pw) = Raise e →
         pad im (ph, 2 ^ k - (ph + (shape im).1))%Z
                (pw, 2 ^ k - (pw + (shape im).2))%Z = Raise e
         ∨ e = fft_error)
    ∧ (∀ pad padded,
         pad im (ph, 2 ^ k - (ph + (shape im).1))%Z
                (pw, 2 ^ k - (pw + (shape im).2))%Z = Ok padded →
         set_fft_with pad im (ph, pw)
         = if bool_decide (shape padded = (2 ^ k, 2 ^ k)%Z) then Ok padded
           else Raise fft_error).
Proof.
  intros Hrect Hph Hpw need.
  set (k := Z.log2_up need).
  assert (fft_dimension im (ph, pw) = (2 ^ k)%Z) as Hdim.
  { unfold fft_dimension. simpl. rewrite next_power_of_2_max.
    unfold next_power_of_2, k, need. do 2 f_equal. unfold shape. simpl. lia. }
  assert (need ≤ 2 ^ k)%Z as Hneed by apply next_power_of_2_ge.
  exists k. split; [apply Z.log2_up_nonneg|]. split; [done|].
  split; [done|]. split; [intros j; apply next_power_of_2_least|].
  split; [|split].
  - unfold set_fft, set_fft_with. rewrite Hdim. cbn [fst snd].
    set (w := match im with [] => 0%nat | r :: _ => length r end).
    assert ((shape im).2 = Z.of_nat w) as Hw by done.
    assert ((shape im).1 = Z.of_nat (length im)) as Hh by done.
    destruct (np_pad_rows im ph (2 ^ k - (ph + Z.of_nat (length im)))
                pw (2 ^ k - (pw + Z.of_nat w)) w)
      as (padded & Hpad & Hlen & Hrows); try lia.
    { eapply Forall_impl; [exact Hrect|]. intros r Hr. simpl in Hr. lia. }
    exists padded. rewrite Hh, Hw, Hpad. simpl.
    assert (0 < 2 ^ k)%Z by (apply Z.pow_pos_nonneg; [lia|apply Z.log2_up_nonneg]).
    assert (shape padded = (2 ^ k, 2 ^ k)%Z) as Hshape.
    { erewrite shape_of_rows; [|exact Hlen| |exact Hrows]; [|lia].
      f_equal; lia. }
    rewrite bool_decide_eq_false_2 by (by intros []).
    split; [done|]. split; [done|].
    unfold rectangular. rewrite Hshape. simpl.
    eapply Forall_impl; [exact Hrows|]. intros r Hr. simpl in *. lia.
  - intros pad e. unfold set_fft_with. rewrite Hdim. cbn [fst snd].
    destruct (pad im _ _) as [padded|e']; simpl.
    + case_bool_decide; [|done]. intros [= <-]. by right.
    + intros [= <-]. by left.
  - intros pad padded Hpad. unfold set_fft_with. rewrite Hdim. cbn [fst snd].
    rewrite Hpad. simpl. repeat case_bool_decide; done.
Qed.

End image_claims.

(** ** The engine: running its methods *)

Section engine_facts.
Import Aligner Notions.
Context {transform kdtree : Type}.
Context `{!TileMethods transform} `{!Numerics kdtree}.

Ltac run :=
  unfold mbind, mret, M_bind, M_ret, bind, ret, get, modify, lift, raise,
    tile_of, update_tile in *; simpl in *.

Lemma fold_each_cons {A B} (x : A) (l : list A) (acc : B) body s :
  fold_each (x :: l) acc body s
  = match body acc x s with
    | (Ok acc', s') => fold_each l acc' body s'
    | (Raise e, s') => (Raise e, s')
    end.
Proof. reflexivity. Qed.

Lemma for_each_nil {A} (body : A → M unit) s : for_each [] body s = (Ok tt, s).
Proof. reflexivity. Qed.

Lemma for_each_cons {A} (x : A) (l : list A) (body : A → M unit) s :
  for_each (x :: l) body s
  = match body x s with
    | (Ok _, s') => for_each l body s'
    | (Raise e, s') => (Raise e, s')
    end.
Proof.
  unfold for_each. rewrite fold_each_cons.
  destruct (body x s) as [[[]|e] s']; reflexivity.
Qed.

(** A loop raises only what its body raises. *)
Lemma fold_each_raises {A B} (P : exn → Prop) (l : list A) (body : B → A → M B) :
  (∀ acc x s e s', body acc x s = (Raise e, s') → P e) →
  ∀ acc s e s', fold_each l acc body s = (Raise e, s') → P e.
Proof.
  intros Hbody. induction l as [|x l IH]; intros acc s e s'.
  - discriminate.
  - rewrite fold_each_cons. destruct (body acc x s) as [[acc'|e'] s1] eqn:E.
    + apply IH.
    + intros [= <- <-]. eauto.
Qed.

Lemma with_control_corr_same s : with_control_corr (control_corr s) s = s.
Proof. by destruct s. Qed.

Lemma filter_ext_elem {A} (P Q : A → Prop) `{!∀ x, Decision (P x)}
    `{!∀ x, Decision (Q x)} (l : list A) :
  (∀ x, x ∈ l → (P x ↔ Q x)) → filter P l = filter Q l.
Proof.
  induction l as [|x l IH]; intros Hext; [done|].
  rewrite !filter_cons.
  assert (filter P l = filter Q l) as ->.
  { apply IH. intros y Hy. apply Hext. by right. }
  pose proof (Hext x (list_elem_of_here _ _)).
  repeat case_decide; try done; tauto.
Qed.

(** *** Rough alignment *)

Lemma elem_of_tiles_of_keys (tiles : gmap string Tile) keys k :
  k ∈ tiles_of_keys tiles keys ↔ k ∈ keys ∧ is_Some (tiles !! k).
Proof. unfold tiles_of_keys. rewrite list_elem_of_filter. tauto. Qed.

(** The candidates do not depend on the side flag. *)
Lemma possible_tiles_unfold side1 keys s :
  possible_tiles side1 keys s = tiles_of_keys (fastq_tiles s) keys.
Proof. reflexivity. Qed.

Lemma control_loop (ctl : list string) :
  ∀ s, (∀ k, k ∈ ctl → is_Some (fastq_tiles s !! k)) →
  for_each ctl control_step s
  = (Ok tt, with_control_corr
              (max_corr_from (control_corr s) (peak_corr s <$> ctl)) s).
Proof.
  induction ctl as [|k ctl IH]; intros s Hin.
  - rewrite for_each_nil. simpl. by rewrite with_control_corr_same.
  - rewrite for_each_cons.
    destruct (Hin k (list_elem_of_here _ _)) as [t Ht].
    assert (∀ c, peak_corr (with_control_corr c s) <$> ctl = peak_corr s <$> ctl)
      as Hsame by done.
    assert (peak_corr s k = (fft_align_with_im t (image_data s)).1) as Hpk
      by (unfold peak_corr; by rewrite Ht).
    unfold control_step at 1. run. rewrite Ht. simpl. rewrite <- Hpk.
    destruct (Qltb (control_corr s) (peak_corr s k)) eqn:E;
      (rewrite IH; [|intros k' Hk'; apply Hin; by right]); simpl;
      by rewrite ?Hsame.
Qed.

Lemma hitting_step_run snr_thresh k s t :
  fastq_tiles s !! k = Some t →
  ∃ t', hitting_step snr_thresh k s
        = (Ok tt,
           if exceeds snr_thresh s k then
             with_hitting_tiles (hitting_tiles s ++ [k])
               (with_fastq_tiles (<[k := t']> (fastq_tiles s)) s)
           else s).
Proof.
  intros Ht. unfold hitting_step, exceeds, peak_corr. run. rewrite Ht. simpl.
  destruct (fft_align_with_im t (image_data s)) as [max_corr align_tr].
  simpl. exists (with_snr (snr_of max_corr (control_corr s)) (set_aligned_rcs t align_tr)).
  by destruct (Qltb _ max_corr).
Qed.

Lemma exceeds_frame snr_thresh s s' k :
  fastq_tiles s' !! k = fastq_tiles s !! k → control_corr s' = control_corr s →
  image_data s' = image_data s →
  exceeds snr_thresh s' k = exceeds snr_thresh s k.
Proof.
  intros Ht Hc Hi. unfold exceeds, peak_corr. by rewrite Ht, Hc, Hi.
Qed.

(** The loop of lines 166-177 over distinct candidates, each of which is
    in the catalogue. *)
Lemma hitting_loop snr_thresh (cand : list string) :
  ∀ s, NoDup cand → (∀ k, k ∈ cand → is_Some (fastq_tiles s !! k)) →
  ∃ s', for_each cand (hitting_step snr_thresh) s = (Ok tt, s')
        ∧ control_corr s' = control_corr s
        ∧ image_data s' = image_data s
        ∧ hitting_tiles s'
          = hitting_tiles s ++ filter (λ k, exceeds snr_thresh s k = true) cand
        ∧ (∀ k, k ∉ cand → fastq_tiles s' !! k = fastq_tiles s !! k).
Proof.
  induction cand as [|k cand IH]; intros s Hnd Hin.
  - exists s. rewrite for_each_nil, filter_nil, app_nil_r. done.
  - apply NoDup_cons in Hnd as [Hk Hnd].
    destruct (Hin k (list_elem_of_here _ _)) as [t Ht].
    destruct (hitting_step_run snr_thresh k s t Ht) as [t' Hstep].
    rewrite for_each_cons, Hstep.
    set (s1 := if exceeds snr_thresh s k then _ else s) in *.
    assert (control_corr s1 = control_corr s) as Hc
      by (subst s1; by destruct (exceeds _ _ _)).
    assert (image_data s1 = image_data s) as Hi
      by (subst s1; by destruct (exceeds _ _ _)).
    assert (∀ k', k' ≠ k → fastq_tiles s1 !! k' = fastq_tiles s !! k') as Hother.
    { intros k' Hne. subst s1. destruct (exceeds _ _ _); [|done].
      simpl. by rewrite lookup_insert_ne. }
    assert (is_Some (fastq_tiles s1 !! k)) as Hself.
    { subst s1. destruct (exceeds _ _ _); [|by eexists].
      simpl. rewrite lookup_insert_eq. by eexists. }
    destruct (IH s1 Hnd) as (s' & Hrun & Hc' & Hi' & Hhit & Htiles).
    { intros k' Hk'. rewrite Hother; [apply Hin; by right|]. by intros ->. }
    exists s'. split; [done|]. split; [congruence|]. split; [congruence|].
    split.
    + rewrite Hhit, filter_cons.
      rewrite (filter_ext_elem _ (λ k0, exceeds snr_thresh s k0 = true)).
      2:{ intros k' Hk'. rewrite (exceeds_frame _ s s1); [done| |done..].
          apply Hother. by intros ->. }
      subst s1. destruct (exceeds snr_thresh s k) eqn:E.
      * rewrite decide_True by done. simpl. by rewrite <- app_assoc.
      * rewrite decide_False by done. done.
    + intros k' Hk'. apply not_elem_of_cons in Hk' as [Hne Hk'].
      rewrite Htiles by done. by apply Hother.
Qed.

Lemma insert_by_reads_perm x l : insert_by_reads x l ≡ₚ x :: l.
Proof.
  induction l as [|y l IH]; [done|]. simpl.
  destruct (_ <=? _)%nat; [done|]. rewrite IH. apply Permutation_swap.
Qed.

Lemma sort_by_reads_perm l : sort_by_reads l ≡ₚ l.
Proof.
  induction l as [|x l IH]; [done|].
  change (sort_by_reads (x :: l)) with (insert_by_reads x (sort_by_reads l)).
  by rewrite insert_by_reads_perm, IH.
Qed.



Lemma elem_of_impossible_tiles possible s k t :
  (k, t) ∈ impossible_tiles possible s
  ↔ fastq_tiles s !! k = Some t ∧ k ∉ possible.
Proof.
  unfold impossible_tiles.
  rewrite list_elem_of_filter, elem_of_map_to_list. simpl. tauto.
Qed.

Lemma elem_of_control_tiles possible s k :
  k ∈ control_tiles possible s →
  ∃ t, (k, t) ∈ take 2 (sort_by_reads (impossible_tiles possible s))
       ∧ fastq_tiles s !! k = Some t ∧ k ∉ possible.
Proof.
  unfold control_tiles. intros Hk.
  apply list_elem_of_fmap in Hk as ([k' t] & -> & Hkt). simpl.
  exists t. split; [done|]. apply elem_of_impossible_tiles.
  rewrite <- sort_by_reads_perm. eapply subseteq_take, Hkt.
Qed.

(** The loop of lines 166-177 when every candidate is in the catalogue:
    it ends, and touches neither the control correlation nor the image. *)
Lemma hitting_loop_frame snr_thresh (cand : list string) :
  ∀ s, (∀ k, k ∈ cand → is_Some (fastq_tiles s !! k)) →
  ∃ s', for_each cand (hitting_step snr_thresh) s = (Ok tt, s')
        ∧ control_corr s' = control_corr s
        ∧ image_data s' = image_data s.
Proof.
  induction cand as [|k cand IH]; intros s Hin.
  - exists s. by rewrite for_each_nil.
  - destruct (Hin k (list_elem_of_here _ _)) as [t Ht].
    destruct (hitting_step_run snr_thresh k s t Ht) as [t' Hstep].
    rewrite for_each_cons, Hstep.
    set (s1 := if exceeds snr_thresh s k then _ else s) in *.
    destruct (IH s1) as (s' & Hrun & Hc & Hi).
    { intros k' Hk'. destruct (Hin k') as [t0 Ht0]; [by right|].
      subst s1. destruct (exceeds _ _ _); [|by eexists]. simpl.
      destruct (decide (k = k')) as [->|Hne].
      - rewrite lookup_insert_eq. by eexists.
      - rewrite lookup_insert_ne by done. by eexists. }
    exists s'. split; [done|]. rewrite Hc, Hi.
    subst s1. by destruct (exceeds _ _ _).
Qed.

(** [find_hitting_tiles], step by step. *)
Lemma find_hitting_tiles_unfold side1 keys snr_thresh s :
  find_hitting_tiles side1 keys snr_thresh s
  = match ImageData.set_fft (ImageData.image (image_data s))
            (fq_im_scaled_dims s) with
    | Raise e => (Raise e, s)
    | Ok padded =>
        let cand := possible_tiles side1 keys s in
        let ctl := control_tiles cand s in
        let s1 :=
          with_image_data
            (ImageData.mk (ImageData.image (image_data s))
               (ImageData.um_per_pixel (image_data s)) (Some padded)) s in
        let s2 :=
          with_hitting_tiles []
            (with_control_corr (max_corr_from 0 (peak_corr s1 <$> ctl)) s1) in
        for_each cand (hitting_step snr_thresh) s2
    end.
Proof.
  unfold find_hitting_tiles. run.
  destruct (ImageData.set_fft _ _) as [padded|e]; [|done]. simpl.
  rewrite control_loop.
  - simpl. done.
  - intros k Hk. apply elem_of_control_tiles in Hk as (t & _ & Ht & _).
    simpl. by eexists.
Qed.

End engine_facts.

(** ** Rough alignment: the claims *)

Section rough_alignment_claims.
Import Aligner Notions.
Context {transform kdtree : Type}.
Context `{!TileMethods transform} `{!Numerics kdtree}.

Lemma max_corr_from_ge_init l : ∀ c0, (c0 <= max_corr_from c0 l)%Q.
Proof.
  induction l as [|x l IH]; intros c0; [apply Qle_refl|].
  unfold max_corr_from. simpl. destruct (Qltb c0 x) eqn:E; [|apply IH].
  apply Qltb_lt in E. eapply Qle_trans; [apply Qlt_le_weak, E|apply IH].
Qed.



(** C3. When the loop of [find_hitting_tiles] reaches a candidate tile, it
    appends that tile to the hitting tiles if the tile's peak correlation
    is strictly above [snr_thresh] times the control correlation, and
    appends nothing otherwise.  So, for distinct candidate keys, the
    hitting tiles that [find_hitting_tiles] leaves are exactly the
    candidates whose peak correlation exceeds that product. *)
Theorem find_hitting_tiles_hits_iff_exceeds :
  (∀ snr_thresh k s t,
     fastq_tiles s !! k = Some t →
     ∃ s1, hitting_step snr_thresh k s = (Ok tt, s1)
           ∧ hitting_tiles s1
             = hitting_tiles s
               ++ (if Qltb (snr_thresh * control_corr s)
                        (fft_align_with_im t (image_data s)).1
                   then [k] else []))
  ∧ (∀ side1 keys snr_thresh s s',
       NoDup keys →
       find_hitting_tiles side1 keys snr_thresh s = (Ok tt, s') →
       ∀ k, k ∈ hitting_tiles s'
            ↔ k ∈ possible_tiles side1 keys s
              ∧ ∃ t, fastq_tiles s !! k = Some t
                     ∧ (snr_thresh * control_corr s'
                        < (fft_align_with_im t (image_data s')).1)%Q).
Proof.
  split.
  - intros snr_thresh k s t Ht.
    destruct (hitting_step_run snr_thresh k s t Ht) as [t' ->].
    eexists. split; [done|]. unfold exceeds, peak_corr. rewrite Ht.
    destruct (Qltb _ _); simpl; [done|by rewrite app_nil_r].
  - intros side1 keys snr_thresh s s' Hnd Hrun k.
    rewrite find_hitting_tiles_unfold in Hrun.
    destruct (ImageData.set_fft _ _) as [padded|e]; [|done]. simpl in Hrun.
    set (cand := possible_tiles side1 keys s) in *.
    match type of Hrun with for_each _ _ ?s0 = _ => set (s2 := s0) in * end.
    destruct (hitting_loop snr_thresh cand s2) as (s3 & Hloop & Hc & Hi & Hhit & _).
    { by apply NoDup_filter. }
    { intros k' Hk'. by apply elem_of_tiles_of_keys in Hk' as [_ ?]. }
    rewrite Hloop in Hrun. injection Hrun as <-.
    rewrite Hhit. simpl. rewrite list_elem_of_filter.
    unfold exceeds, peak_corr. rewrite Hc, Hi. simpl.
    rewrite Qltb_lt. split.
    + intros [Hlt Hk]. split; [done|].
      apply elem_of_tiles_of_keys in Hk as [_ [t Ht]].
      exists t. split; [done|]. by rewrite Ht in Hlt.
    + intros [Hk (t & Ht & Hlt)]. split; [|done]. by rewrite Ht.
Qed.


End rough_alignment_claims.

(** ** Hit classification: facts about its parts *)

Section classification_facts.
Import Aligner Notions.

Ltac rrun := unfold mbind, result_bind, rbind in *; simpl in *.

Lemma engine_error_not_min e : engine_error e → e ≠ min_error.
Proof. destruct 1; unfold min_error; try done; by intros [=]. Qed.

Lemma engine_error_not_assertion e : engine_error e → e ≠ AssertionError.
Proof. by destruct 1. Qed.


Lemma index_raises {A} (l : list A) i e : index l i = Raise e → e = index_error.
Proof. unfold index. destruct (l !! i); [done|]. by intros [= <-]. Qed.

Lemma dists_of_length dist l : ∀ ds, dists_of dist l = Ok ds → length ds = length l.
Proof.
  induction l as [|h l IH]; intros ds; simpl.
  - by intros [= <-].
  - rrun. destruct (dist h); [|done]. destruct (dists_of dist l); [|done].
    intros [= <-]. simpl. f_equal. by apply IH.
Qed.

Lemma dists_of_raises (P : exn → Prop) dist l e :
  (∀ h e', dist h = Raise e' → P e') → dists_of dist l = Raise e → P e.
Proof.
  intros Hd. induction l as [|h l IH]; simpl; [done|]. rrun.
  destruct (dist h) as [d|e'] eqn:E; [|intros [= <-]; eauto].
  destruct (dists_of dist l); [done|]. intros [= <-]. by apply IH.
Qed.

Lemma hits_within_ok dist thresh l :
  ∀ kept, hits_within dist thresh l = Ok kept →
  ∀ h, h ∈ kept ↔ h ∈ l ∧ ∃ d, dist h = Ok d ∧ Qle_bool d thresh = true.
Proof.
  induction l as [|x l IH]; intros kept; simpl.
  - intros [= <-] h. split; [by intros ?%elem_of_nil|by intros [?%elem_of_nil _]].
  - rrun. destruct (dist x) as [d|] eqn:Ex; [|done].
    destruct (hits_within dist thresh l) as [rest|]; [|done].
    intros [= <-] h. specialize (IH rest eq_refl h).
    destruct (Qle_bool d thresh) eqn:Ed.
    + rewrite !elem_of_cons, IH. split.
      * intros [->|[? ?]]; [|tauto]. split; [by left|]. by exists d.
      * intros [[->|?] ?]; [by left|]. right. tauto.
    + rewrite IH, elem_of_cons. split; [tauto|].
      intros [[->|?] (d' & Hd' & Hle)]; [congruence|]. split; [done|]. by exists d'.
Qed.

Lemma hits_within_raises (P : exn → Prop) dist thresh l e :
  (∀ h e', dist h = Raise e' → P e') → hits_within dist thresh l = Raise e → P e.
Proof.
  intros Hd. induction l as [|h l IH]; simpl; [done|]. rrun.
  destruct (dist h) as [d|e'] eqn:E; [|intros [= <-]; eauto].
  destruct (hits_within dist thresh l); [done|]. intros [= <-]. by apply IH.
Qed.

Lemma np_percentile_raises (P : exn → Prop) a q e :
  P percentile_range_error → P percentile_empty_error → P index_error →
  np_percentile a q = Raise e → P e.
Proof.
  intros H1 H2 H3. unfold np_percentile. cbv zeta.
  destruct (_ || _); [by intros [= <-]|].
  destruct (_ =? _)%nat; [by intros [= <-]|].
  unfold mbind, result_bind, rbind.
  repeat match goal with
         | |- context [index ?l ?i] =>
             let E := fresh "E" in
             destruct (index l i) eqn:E;
             [|intros [= <-]; by apply index_raises in E as ->]
         end.
  discriminate.
Qed.

Lemma elem_of_uncapped_exclusive c2a a2c h :
  h ∈ uncapped_exclusive c2a a2c
  ↔ h ∈ mutual c2a a2c
    ∧ (∀ tup, tup ∈ non_mutual c2a a2c → tup.1 ≠ h.1)
    ∧ (∀ tup, tup ∈ non_mutual c2a a2c → tup.2 ≠ h.2).
Proof.
  unfold uncapped_exclusive. rewrite elem_of_filter, !elem_of_map.
  split.
  - intros [[H1 H2] Hm]. split; [done|]. split; intros tup Htup Heq.
    + apply H1. by exists tup.
    + apply H2. by exists tup.
  - intros (Hm & H1 & H2). split; [|done].
    split; intros (tup & Heq & Htup); [by apply (H1 tup)|by apply (H2 tup)].
Qed.

Lemma uncapped_exclusive_mutual c2a a2c : uncapped_exclusive c2a a2c ⊆ mutual c2a a2c.
Proof. intros h. rewrite elem_of_uncapped_exclusive. tauto. Qed.

(** A mutual hit that is not exclusive shares an endpoint with a
    non-mutual hit. *)
Lemma third_wheels_of_shared c2a a2c h :
  h ∈ mutual c2a a2c → h ∉ uncapped_exclusive c2a a2c →
  third_wheels (non_mutual c2a a2c) h ≠ [].
Proof.
  intros Hm Hex.
  assert (∃ tup, tup ∈ non_mutual c2a a2c ∧ (h.1 = tup.1 ∨ h.2 = tup.2))
    as (tup & Htup & Hshare).
  { destruct (decide (h.1 ∈ (set_map fst (non_mutual c2a a2c) : gset nat)))
      as [H1|H1].
    { apply elem_of_map in H1 as (tup & ? & ?). exists tup. tauto. }
    destruct (decide (h.2 ∈ (set_map snd (non_mutual c2a a2c) : gset nat)))
      as [H2|H2].
    { apply elem_of_map in H2 as (tup & ? & ?). exists tup. tauto. }
    exfalso. apply Hex. unfold uncapped_exclusive. by apply elem_of_filter. }
  assert (tup ∈ third_wheels (non_mutual c2a a2c) h) as Hin.
  { unfold third_wheels. apply list_elem_of_filter. split; [done|].
    by apply elem_of_elements. }
  intros Hnil. rewrite Hnil in Hin. by apply elem_of_nil in Hin.
Qed.

Lemma capped_exclusive_ok dist threshold exclusive capped :
  capped_exclusive dist threshold exclusive = Ok capped →
  capped ⊆ exclusive
  ∧ ∀ h d, h ∈ exclusive → dist h = Ok d → Qle_bool d threshold = true →
           h ∈ capped.
Proof.
  unfold capped_exclusive. rrun.
  destruct (hits_within _ _ _) as [kept|] eqn:E; [|done]. intros [= <-].
  pose proof (hits_within_ok _ _ _ _ E) as Hkept. split.
  - intros h. rewrite elem_of_list_to_set, Hkept, elem_of_elements. tauto.
  - intros h d Hh Hd Hle. rewrite elem_of_list_to_set, Hkept, elem_of_elements.
    split; [done|]. by exists d.
Qed.

Lemma recover_good_ok dist threshold nm todo :
  ∀ good good', recover_good dist threshold nm todo good = Ok good' →
  good' ⊆ good ∪ list_to_set todo.
Proof.
  induction todo as [|h todo IH]; intros good good'; simpl.
  - intros [= <-]. set_solver.
  - rrun. destruct (dist h) as [d|]; [|done].
    destruct (Qltb threshold d).
    { intros Hrec%IH. set_solver. }
    destruct (dists_of _ _) as [ds|]; [|done].
    destruct (py_min ds) as [closest|]; [|done].
    destruct (Qltb _ closest); intros Hrec%IH; set_solver.
Qed.

(** The loop of lines 264-270 raises only what measuring a hit raises,
    as long as each hit it measures up to the threshold has a third
    wheel. *)
Lemma recover_good_raises (P : exn → Prop) dist threshold nm todo :
  (∀ h e', dist h = Raise e' → P e') →
  (∀ h d, h ∈ todo → dist h = Ok d → Qltb threshold d = false →
          third_wheels nm h ≠ []) →
  ∀ good e, recover_good dist threshold nm todo good = Raise e → P e.
Proof.
  intros Hd. induction todo as [|h todo IH]; intros Htw good e; simpl; [done|].
  assert (∀ h' d, h' ∈ todo → dist h' = Ok d → Qltb threshold d = false →
                  third_wheels nm h' ≠ []) as Htw'.
  { intros h' d Hh'. apply Htw. by right. }
  rrun. destruct (dist h) as [d|e'] eqn:Eh; [|intros [= <-]; eauto].
  destruct (Qltb threshold d) eqn:Ed; [by apply IH|].
  destruct (dists_of _ _) as [ds|e'] eqn:Eds;
    [|intros [= <-]; by eapply dists_of_raises].
  destruct (py_min ds) as [closest|e'] eqn:Emin.
  { destruct (Qltb _ closest); by apply IH. }
  exfalso. destruct ds as [|d0 ds]; [|done].
  apply dists_of_length in Eds.
  apply (Htw h d); [by left|done..|]. by destruct (third_wheels nm h).
Qed.

Lemma partition_of_classes c2a a2c exclusive good :
  exclusive ⊆ mutual c2a a2c → good ⊆ mutual c2a a2c ∖ exclusive →
  partition_of
    (mkHits (non_mutual c2a a2c) (mutual c2a a2c)
       (mutual c2a a2c ∖ exclusive ∖ good) good exclusive)
    (c2a ∪ a2c).
Proof.
  unfold partition_of, mutual, non_mutual. simpl. intros Hex Hgood.
  split_and!; try set_solver.
  apply set_eq. intros h.
  destruct (decide (h ∈ exclusive)), (decide (h ∈ good)),
    (decide (h ∈ c2a)), (decide (h ∈ a2c)); set_solver.
Qed.

(** The assertion of lines 276-280 holds of any partition. *)
Lemma partition_check_of_partition hs c2a a2c :
  partition_of hs (c2a ∪ a2c) → partition_check hs c2a a2c = true.
Proof.
  intros (H1 & H2 & H3 & H4 & H5 & H6 & Hall). unfold partition_check.
  rewrite bool_decide_eq_true_2 by done. simpl.
  apply Nat.eqb_eq. rewrite <- Hall.
  rewrite !size_union by set_solver. done.
Qed.

Lemma classify_hits_ok dist um c2a a2c hs :
  classify_hits dist um c2a a2c = Ok hs →
  partition_of hs (c2a ∪ a2c)
  ∧ non_mutual_hits hs = non_mutual c2a a2c
  ∧ mutual_hits hs = mutual c2a a2c.
Proof.
  unfold classify_hits. rrun.
  destruct (good_hit_threshold _ _ _) as [threshold|]; [|done].
  destruct (capped_exclusive _ _ _) as [exclusive|] eqn:Ecap; [|done].
  destruct (recover_good _ _ _ _ _) as [good|] eqn:Egood; [|done].
  destruct (partition_check _ _ _); [|done]. intros [= <-]. simpl.
  split; [|done]. apply partition_of_classes.
  - apply capped_exclusive_ok in Ecap as [Hsub _].
    etrans; [exact Hsub|apply uncapped_exclusive_mutual].
  - apply recover_good_ok in Egood.
    intros h Hh. apply Egood in Hh. set_solver.
Qed.

(** What [classify_hits] can raise: never the assertion error, never the
    error of [min] on an empty list. *)
Lemma classify_hits_raises (P : exn → Prop) dist um c2a a2c e :
  (∀ h e', dist h = Raise e' → P e') →
  P ZeroDivisionError → P percentile_range_error →
  P percentile_empty_error → P index_error →
  classify_hits dist um c2a a2c = Raise e → P e.
Proof.
  intros Hd Hz Hr He Hi. unfold classify_hits. rrun.
  destruct (good_hit_threshold _ _ _) as [threshold|e'] eqn:Ethr.
  2:{ intros [= <-]. revert Ethr. unfold good_hit_threshold.
      destruct (Qeq_bool um 0); [by intros [= <-]|].
      destruct (_ =? _)%Z; [done|]. rrun.
      destruct (dists_of _ _) as [ds|e''] eqn:Eds.
      - by apply np_percentile_raises.
      - intros [= <-]. by eapply dists_of_raises. }
  destruct (capped_exclusive _ _ _) as [exclusive|e'] eqn:Ecap.
  2:{ intros [= <-]. revert Ecap. unfold capped_exclusive. rrun.
      destruct (hits_within _ _ _) as [|e''] eqn:E; [done|].
      intros [= <-]. by eapply hits_within_raises. }
  destruct (recover_good _ _ _ _ _) as [good|e'] eqn:Egood.
  2:{ intros [= <-]. eapply recover_good_raises; [exact Hd| |exact Egood].
      intros h d Hh Hdist Hle. apply elem_of_elements in Hh.
      apply elem_of_difference in Hh as [Hm Hcap].
      apply third_wheels_of_shared; [done|]. intros Hex. apply Hcap.
      apply capped_exclusive_ok in Ecap as [_ Hkeep].
      apply (Hkeep h d); [done..|].
      apply Qle_bool_iff. by apply Qltb_ge. }
  rewrite partition_check_of_partition; [done|].
  apply partition_of_classes.
  - apply capped_exclusive_ok in Ecap as [Hsub _].
    etrans; [exact Hsub|apply uncapped_exclusive_mutual].
  - apply recover_good_ok in Egood.
    intros h Hh. apply Egood in Hh. set_solver.
Qed.

End classification_facts.

(** ** Hit classification on the engine *)

Section find_hits_facts.
Import Aligner Notions.
Context {kdtree : Type} `{!Numerics kdtree}.

Ltac run :=
  unfold mbind, mret, M_bind, M_ret, bind, ret, get, modify, lift, raise,
    tile_of, update_tile in *; simpl in *.

Lemma attr_raises {A} name (o : option A) e :
  attr name o = Raise e → engine_error e.
Proof. destruct o; [done|]. intros [= <-]. constructor. Qed.

Lemma index_raises_engine {A} (l : list A) i e :
  index l i = Raise e → engine_error e.
Proof. intros ->%index_raises. constructor. Qed.

Lemma single_hit_dist_raises s h e :
  single_hit_dist s h = Raise e → engine_error e.
Proof.
  unfold single_hit_dist, mbind, result_bind, rbind.
  destruct (index (clusters s) _) eqn:E1;
    [|intros [= <-]; by eapply index_raises_engine].
  destruct (index (aligned_rcs_in_frame s) _) eqn:E2; [done|].
  intros [= <-]. by eapply index_raises_engine.
Qed.

Lemma find_points_in_frame_raises consider s e s' :
  find_points_in_frame consider s = (Raise e, s') → engine_error e.
Proof.
  unfold find_points_in_frame. run.
  destruct (fold_each _ _ _ _) as [[aligned|e'] s1] eqn:E; [done|].
  intros [= <- <-]. revert E. apply fold_each_raises.
  clear. intros acc k s0 e0 s0'. unfold frame_tile. run.
  destruct (fastq_tiles s0 !! k) as [t|]; [|intros [= <- <-]; constructor].
  destruct (attr _ _) as [pts|e'] eqn:Ea;
    [|intros [= <- <-]; by eapply attr_raises].
  apply fold_each_raises. clear. intros acc [i pt] s1 e1 s1'.
  unfold frame_point. run.
  destruct (in_frame _ _); [|done].
  destruct (index _ _) as [rc|e'] eqn:Ei; [done|].
  intros [= <- <-]. by eapply index_raises_engine.
Qed.

(** [find_hits], step by step. *)
Lemma find_hits_unfold consider s :
  find_hits consider s
  = match find_points_in_frame consider s with
    | (Raise e, s1) => (Raise e, s1)
    | (Ok _, s1) =>
        match KDTree (clusters s1), KDTree (aligned_rcs_in_frame s1) with
        | Some cluster_tree, Some aligned_tree =>
            match classify_hits (single_hit_dist s1)
                    (ImageData.um_per_pixel (image_data s1))
                    (cluster_to_aligned_indexes aligned_tree (clusters s1))
                    (aligned_to_cluster_indexs_rev cluster_tree
                       (aligned_rcs_in_frame s1)) with
            | Ok hs => (Ok tt, with_hits hs s1)
            | Raise e => (Raise e, s1)
            end
        | _, _ => (Raise kdtree_error, s1)
        end
    end.
Proof.
  unfold find_hits, build_tree.
  unfold mbind at 1, M_bind at 1, bind at 1.
  destruct (find_points_in_frame consider s) as [[[]|e] s1]; [|done]. run.
  destruct (KDTree (clusters s1)); [|done]. simpl.
  destruct (KDTree (aligned_rcs_in_frame s1)); [|done]. simpl.
  by destruct (classify_hits _ _ _ _).
Qed.

Lemma find_hits_raises consider s e s' :
  find_hits consider s = (Raise e, s') → engine_error e.
Proof.
  rewrite find_hits_unfold.
  destruct (find_points_in_frame consider s) as [[[]|e'] s1] eqn:Ef.
  2:{ intros [= <- <-]. by eapply find_points_in_frame_raises. }
  destruct (KDTree (clusters s1)); [|intros [= <- <-]; constructor].
  destruct (KDTree (aligned_rcs_in_frame s1)); [|intros [= <- <-]; constructor].
  destruct (classify_hits _ _ _ _) as [hs|e'] eqn:Ec; [done|].
  intros [= <- <-]. revert Ec.
  apply classify_hits_raises; try constructor.
  intros h e0. apply single_hit_dist_raises.
Qed.

(** C2. When the assertion of [classify_hits] is reached it holds, and
    the four categories it returns are pairwise disjoint and together are
    the union of the two relations it was given.  So [find_hits] never
    raises the assertion error, and when it returns, the four categories
    it has stored are pairwise disjoint and their union is the union of
    the cluster-to-read and read-to-cluster nearest-neighbour relations of
    the clusters and in-frame reads it has stored. *)
Theorem find_hits_partition :
  (∀ dist um c2a a2c,
     match classify_hits dist um c2a a2c with
     | Ok hs => partition_of hs (c2a ∪ a2c)
     | Raise e => e = AssertionError → ∃ h, dist h = Raise AssertionError
     end)
  ∧ (∀ consider s,
       match find_hits consider s with
       | (Ok _, s') =>
           ∃ cluster_tree aligned_tree,
             KDTree (clusters s') = Some cluster_tree
             ∧ KDTree (aligned_rcs_in_frame s') = Some aligned_tree
             ∧ partition_of (hits s')
                 (cluster_to_aligned_indexes aligned_tree (clusters s')
                  ∪ aligned_to_cluster_indexs_rev cluster_tree
                      (aligned_rcs_in_frame s'))
       | (Raise e, _) => e ≠ AssertionError
       end).
Proof.
  split.
  - intros dist um c2a a2c.
    destruct (classify_hits dist um c2a a2c) as [hs|e] eqn:E.
    + by apply classify_hits_ok in E as [? _].
    + revert E.
      apply (classify_hits_raises
               (λ e, e = AssertionError → ∃ h, dist h = Raise AssertionError));
        try done.
      intros h e' He' ->. by exists h.
  - intros consider s.
    destruct (find_hits consider s) as [[[]|e] s'] eqn:E.
    + rewrite find_hits_unfold in E.
      destruct (find_points_in_frame consider s) as [[[]|e'] s1]; [|done].
      destruct (KDTree (clusters s1)) as [cluster_tree|] eqn:E1; [|done].
      destruct (KDTree (aligned_rcs_in_frame s1)) as [aligned_tree|] eqn:E2;
        [|done].
      destruct (classify_hits _ _ _ _) as [hs|] eqn:Ec; [|done].
      injection E as <-. simpl.
      exists cluster_tree, aligned_tree. split; [done|]. split; [done|].
      by apply classify_hits_ok in Ec as [? _].
    + by apply find_hits_raises, engine_error_not_assertion in E.
Qed.

(** C10. A mutual hit outside the capped exclusive set whose distance is
    at most the threshold shares an endpoint with a non-mutual hit: its
    list of third wheels is not empty.  So [find_hits] never raises the
    error of [min] on an empty list. *)
Theorem third_wheels_never_empty :
  (∀ dist threshold c2a a2c capped h d,
     capped_exclusive dist threshold (uncapped_exclusive c2a a2c) = Ok capped →
     h ∈ mutual c2a a2c ∖ capped →
     dist h = Ok d → Qltb threshold d = false →
     ∃ tup, tup ∈ third_wheels (non_mutual c2a a2c) h
            ∧ tup ∈ non_mutual c2a a2c ∧ (h.1 = tup.1 ∨ h.2 = tup.2))
  ∧ (∀ consider s, (find_hits consider s).1 ≠ Raise min_error).
Proof.
  split.
  - intros dist threshold c2a a2c capped h d Hcap Hh Hd Hle.
    apply elem_of_difference in Hh as [Hm Hncap].
    assert (third_wheels (non_mutual c2a a2c) h ≠ []) as Hne.
    { apply third_wheels_of_shared; [done|]. intros Hex. apply Hncap.
      apply capped_exclusive_ok in Hcap as [_ Hkeep].
      apply (Hkeep h d); [done..|]. apply Qle_bool_iff. by apply Qltb_ge. }
    destruct (third_wheels (non_mutual c2a a2c) h) as [|tup tws] eqn:E; [done|].
    exists tup. split; [by left|].
    assert (tup ∈ third_wheels (non_mutual c2a a2c) h) as Hin
      by (rewrite E; by left).
    unfold third_wheels in Hin. apply list_elem_of_filter in Hin as [? Hin].
    by apply elem_of_elements in Hin.
  - intros consider s.
    destruct (find_hits consider s) as [[[]|e] s'] eqn:E; [done|]. simpl.
    apply find_hits_raises, engine_error_not_min in E. congruence.
Qed.

End find_hits_facts.

(** ** The output stream *)

Section output_claims.
Import Aligner Notions.

Lemma in_frame_true im_shape (pt : point) :
  in_frame im_shape pt = true
  ↔ ((0 <= pt.1)%Q ∧ (pt.1 < inject_Z im_shape.1)%Q)
    ∧ ((0 <= pt.2)%Q ∧ (pt.2 < inject_Z im_shape.2)%Q).
Proof.
  unfold in_frame. rewrite !andb_true_iff, !Qle_bool_iff, !Qltb_lt. tauto.
Qed.

Lemma elem_of_lines_of_tile im_shape names pts name r c :
  (name, r, c) ∈ lines_of_tile im_shape names pts
  ↔ (name, (r, c)) ∈ zip names pts ∧ in_frame im_shape (r, c) = true.
Proof.
  unfold lines_of_tile. rewrite list_elem_of_fmap. split.
  - intros ([name' [r' c']] & [= -> -> ->] & Hin).
    apply list_elem_of_filter in Hin as [? ?]. done.
  - intros [Hin Hfr]. exists (name, (r, c)). split; [done|].
    by apply list_elem_of_filter.
Qed.

Lemma read_names_rcs_from_hitting l s tiles :
  read_names_rcs_from (with_hitting_tiles l s) tiles = read_names_rcs_from s tiles.
Proof.
  induction tiles as [|k tiles IH]; [done|]. simpl.
  destruct (fastq_tiles s !! k) as [tile|]; [|done].
  destruct (rotation tile); [|done].
  destruct (aligned_rcs tile); [|done]. by rewrite IH.
Qed.

Lemma read_names_rcs_from_sound s tiles name r c :
  (name, r, c) ∈ (read_names_rcs_from s tiles).1 →
  ∃ k tile pts,
    k ∈ tiles ∧ fastq_tiles s !! k = Some tile ∧ is_Some (rotation tile)
    ∧ aligned_rcs tile = Some pts ∧ (name, (r, c)) ∈ zip (read_names tile) pts
    ∧ in_frame (ImageData.shape (ImageData.image (image_data s))) (r, c) = true.
Proof.
  induction tiles as [|k tiles IH]; simpl; [by intros ?%elem_of_nil|].
  destruct (fastq_tiles s !! k) as [tile|] eqn:Ek; [|by intros ?%elem_of_nil].
  destruct (rotation tile) as [rot|] eqn:Er.
  - destruct (aligned_rcs tile) as [pts|] eqn:Ea; [|by intros ?%elem_of_nil].
    simpl. intros [Hin|Hin]%elem_of_app.
    + apply elem_of_lines_of_tile in Hin as [? ?].
      exists k, tile, pts. rewrite Er.
      split_and!; first [done | by left | by eexists].
    + destruct (IH Hin) as (k' & tile' & pts' & ? & ?).
      exists k', tile', pts'. split; [by right|done].
  - intros Hin. destruct (IH Hin) as (k' & tile' & pts' & ? & ?).
    exists k', tile', pts'. split; [by right|done].
Qed.

Lemma read_names_rcs_from_complete s tiles k tile pts name r c :
  (read_names_rcs_from s tiles).2 = None →
  k ∈ tiles → fastq_tiles s !! k = Some tile → is_Some (rotation tile) →
  aligned_rcs tile = Some pts → (name, (r, c)) ∈ zip (read_names tile) pts →
  in_frame (ImageData.shape (ImageData.image (image_data s))) (r, c) = true →
  (name, r, c) ∈ (read_names_rcs_from s tiles).1.
Proof.
  intros Hend Hk Htile Hrot Hpts Hzip Hfr. revert Hend.
  induction tiles as [|k' tiles IH]; simpl; [by apply elem_of_nil in Hk|].
  destruct (fastq_tiles s !! k') as [tile'|] eqn:Ek'; [|done].
  destruct (rotation tile') as [rot|] eqn:Er.
  - destruct (aligned_rcs tile') as [pts'|] eqn:Ea; [|done]. simpl.
    intros Hend. apply elem_of_app.
    apply elem_of_cons in Hk as [->|Hk]; [left|right; by apply IH].
    assert (tile' = tile) as -> by congruence.
    assert (pts' = pts) as -> by congruence.
    by apply elem_of_lines_of_tile.
  - intros Hend. apply elem_of_cons in Hk as [->|Hk]; [|by apply IH].
    assert (tile' = tile) as -> by congruence.
    rewrite Er in Hrot. by destruct Hrot.
Qed.

Lemma read_names_rcs_from_skip s before k after tile :
  fastq_tiles s !! k = Some tile → rotation tile = None →
  read_names_rcs_from s (before ++ k :: after)
  = read_names_rcs_from s (before ++ after).
Proof.
  intros Hk Hrot. induction before as [|k' before IH]; simpl.
  - by rewrite Hk, Hrot.
  - destruct (fastq_tiles s !! k') as [tile'|]; [|done].
    destruct (rotation tile'); [|done].
    destruct (aligned_rcs tile'); [|done]. by rewrite IH.
Qed.

(** C9. Every line that [read_names_rcs] yields is a read of a hitting
    tile that has a rotation, with its aligned position, and the position
    is in the frame: row from 0 up to the height, column from 0 up to the
    width.  When the generator ends without an exception it has yielded
    every such read.  A hitting tile without rotation changes nothing: the
    lines, and the way the generator ends, are those of the same engine
    without that tile among its hitting tiles. *)
Theorem read_names_rcs_in_bounds (s : FastqImageAligner) :
  let im_shape := ImageData.shape (ImageData.image (image_data s)) in
  let inside (r c : Q) :=
    ((0 <= r)%Q ∧ (r < inject_Z im_shape.1)%Q)
    ∧ ((0 <= c)%Q ∧ (c < inject_Z im_shape.2)%Q) in
  let read_of (name : string) (r c : Q) :=
    ∃ k tile pts,
      k ∈ hitting_tiles s ∧ fastq_tiles s !! k = Some tile
      ∧ is_Some (rotation tile) ∧ aligned_rcs tile = Some pts
      ∧ (name, (r, c)) ∈ zip (read_names tile) pts in
  (∀ name r c,
     (name, r, c) ∈ (read_names_rcs s).1 → read_of name r c ∧ inside r c)
  ∧ ((read_names_rcs s).2 = None →
     ∀ name r c,
       read_of name r c → inside r c → (name, r, c) ∈ (read_names_rcs s).1)
  ∧ (∀ before k after tile,
       hitting_tiles s = before ++ k :: after →
       fastq_tiles s !! k = Some tile → rotation tile = None →
       read_names_rcs s
       = read_names_rcs (with_hitting_tiles (before ++ after) s)).
Proof.
  intros im_shape inside read_of. unfold read_names_rcs. split; [|split].
  - intros name r c Hin.
    apply read_names_rcs_from_sound in Hin
      as (k & tile & pts & ? & ? & ? & ? & ? & Hfr).
    split; [by exists k, tile, pts|]. by apply in_frame_true in Hfr.
  - intros Hend name r c (k & tile & pts & ? & ? & ? & ? & ?) Hfr.
    eapply read_names_rcs_from_complete; try done.
    by apply in_frame_true.
  - intros before k after tile -> Hk Hrot. simpl.
    rewrite read_names_rcs_from_hitting.
    by eapply read_names_rcs_from_skip.
Qed.

End output_claims.

(** ** Precision alignment *)

Section precision_facts.
Import Aligner Notions.
Context {transform kdtree : Type}.
Context `{!TileMethods transform} `{!Numerics kdtree}.

Ltac run :=
  unfold mbind, mret, M_bind, M_ret, bind, ret, get, modify, lift, raise,
    tile_of, update_tile in *; simpl in *.

Ltac inputs := unfold same_inputs in *; simpl in *; intuition congruence.

Lemma same_inputs_refl s : same_inputs s s.
Proof. inputs. Qed.

Lemma same_inputs_sym s s' : same_inputs s s' → same_inputs s' s.
Proof. inputs. Qed.

Lemma same_inputs_trans s1 s2 s3 :
  same_inputs s1 s2 → same_inputs s2 s3 → same_inputs s1 s3.
Proof. inputs. Qed.

(** A loop keeps what its body keeps. *)
Lemma fold_each_preserves {A B} (I : FastqImageAligner → Prop) (l : list A)
    (body : B → A → M B) :
  (∀ acc x s, I s → I (body acc x s).2) →
  ∀ acc s, I s → I (fold_each l acc body s).2.
Proof.
  intros Hbody. induction l as [|x l IH]; intros acc s Hs; [done|].
  rewrite fold_each_cons. specialize (Hbody acc x s Hs).
  destruct (body acc x s) as [[acc'|e] s1]; [by apply IH|done].
Qed.

(** The result of a loop depends on the inputs only, when that is so of
    its body and the body keeps the inputs. *)
Lemma fold_each_results {A B} (l : list A) (body : B → A → M B) :
  (∀ acc x s s', same_inputs s s' → (body acc x s).1 = (body acc x s').1) →
  (∀ acc x s, same_inputs s (body acc x s).2) →
  ∀ acc s s', same_inputs s s' →
              (fold_each l acc body s).1 = (fold_each l acc body s').1.
Proof.
  intros Hres Hkeep. induction l as [|x l IH]; intros acc s s' Hs; [done|].
  rewrite !fold_each_cons.
  pose proof (Hres acc x s s' Hs) as Heq.
  pose proof (Hkeep acc x s) as H1. pose proof (Hkeep acc x s') as H2.
  destruct (body acc x s) as [[acc1|e1] s1], (body acc x s') as [[acc2|e2] s2];
    simpl in *; try congruence.
  injection Heq as <-. apply IH.
  eapply same_inputs_trans; [apply same_inputs_sym, H1|].
  exact (same_inputs_trans _ _ _ Hs H2).
Qed.

Lemma frame_point_inputs im_shape tile rcs acc ipt s0 s :
  same_inputs s0 s → same_inputs s0 (frame_point im_shape tile rcs acc ipt s).2.
Proof.
  intros Hs. unfold frame_point. run.
  destruct (in_frame _ _); [|done]. destruct (index _ _); simpl; [|done].
  inputs.
Qed.

Lemma frame_point_result im_shape tile rcs acc ipt s s' :
  (frame_point im_shape tile rcs acc ipt s).1
  = (frame_point im_shape tile rcs acc ipt s').1.
Proof.
  unfold frame_point. run.
  destruct (in_frame _ _); [|done]. by destruct (index _ _).
Qed.

Lemma frame_tile_inputs im_shape acc k s0 s :
  same_inputs s0 s → same_inputs s0 (frame_tile im_shape acc k s).2.
Proof.
  intros Hs. unfold frame_tile. run.
  destruct (fastq_tiles s !! k) as [tile|]; [|done]. simpl.
  destruct (attr _ _); simpl; [|done].
  apply fold_each_preserves; [|done].
  intros. by apply frame_point_inputs.
Qed.

Lemma frame_tile_result im_shape acc k s s' :
  same_inputs s s' →
  (frame_tile im_shape acc k s).1 = (frame_tile im_shape acc k s').1.
Proof.
  intros Hs. unfold frame_tile. run.
  pose proof Hs as (<- & _).
  destruct (fastq_tiles s !! k) as [tile|]; [|done]. simpl.
  destruct (attr _ _); simpl; [|done].
  apply fold_each_results; [| |done].
  - intros. apply frame_point_result.
  - intros. apply frame_point_inputs, same_inputs_refl.
Qed.

(** [find_points_in_frame], step by step. *)
Lemma find_points_in_frame_unfold consider s :
  find_points_in_frame consider s
  = match fold_each
            match consider with
            | None => hitting_tiles s
            | Some tile => [tile]
            end []
            (frame_tile (ImageData.shape (ImageData.image (image_data s))))
            (with_rcs_in_frame [] s) with
    | (Ok aligned, s1) => (Ok tt, with_aligned_rcs_in_frame aligned s1)
    | (Raise e, s1) => (Raise e, s1)
    end.
Proof.
  unfold find_points_in_frame. run.
  by destruct (fold_each _ _ _ _) as [[aligned|e] s1].
Qed.

Lemma find_points_in_frame_inputs consider s :
  same_inputs s (find_points_in_frame consider s).2.
Proof.
  rewrite find_points_in_frame_unfold.
  match goal with
  | |- context [fold_each ?l0 ?a0 ?b0 ?s0] =>
      pose proof (fold_each_preserves (same_inputs s) l0 b0
                    (λ acc k t, frame_tile_inputs _ acc k s t) a0 s0) as Hkeep
  end.
  destruct (fold_each _ _ _ _) as [[aligned|e] s1]; simpl in *.
  - assert (same_inputs s s1) by (apply Hkeep; inputs). inputs.
  - apply Hkeep. inputs.
Qed.

(** The in-frame reads that [find_points_in_frame] finds depend on the
    inputs only. *)
Lemma find_points_in_frame_agree consider s s' :
  same_inputs s s' →
  (find_points_in_frame consider s).1 = (find_points_in_frame consider s').1
  ∧ ((find_points_in_frame consider s).1 = Ok tt →
     aligned_rcs_in_frame (find_points_in_frame consider s).2
     = aligned_rcs_in_frame (find_points_in_frame consider s').2).
Proof.
  intros Hs. rewrite !find_points_in_frame_unfold.
  pose proof Hs as (_ & <- & _ & _ & _ & <-).
  match goal with
  | |- context [fold_each ?l0 ?a0 ?b0 (with_rcs_in_frame [] s)] =>
      pose proof (fold_each_results l0 b0
                    (λ acc k t t', frame_tile_result _ acc k t t')
                    (λ acc k t, frame_tile_inputs _ acc k t t
                                  (same_inputs_refl t))
                    a0 (with_rcs_in_frame [] s) (with_rcs_in_frame [] s'))
        as Heq
  end.
  destruct (fold_each _ _ _ (with_rcs_in_frame [] s)) as [[al|e] s1],
    (fold_each _ _ _ (with_rcs_in_frame [] s')) as [[al'|e'] s1'];
    simpl in *; (assert (same_inputs (with_rcs_in_frame [] s)
                           (with_rcs_in_frame [] s')) as Hs0 by inputs);
    specialize (Heq Hs0); try done.
  - by injection Heq as <-.
  - by injection Heq as <-.
Qed.

Lemma find_hits_inputs consider s : same_inputs s (find_hits consider s).2.
Proof.
  rewrite find_hits_unfold.
  pose proof (find_points_in_frame_inputs consider s) as Hkeep.
  destruct (find_points_in_frame consider s) as [[[]|e] s1]; [|done].
  simpl in Hkeep.
  destruct (KDTree (clusters s1)); [|done].
  destruct (KDTree (aligned_rcs_in_frame s1)); [|done].
  destruct (classify_hits _ _ _ _); simpl; [|done]. inputs.
Qed.

(** The hit categories that [find_hits] finds depend on the inputs only. *)
Lemma find_hits_agree consider s s' :
  same_inputs s s' →
  (find_hits consider s).1 = (find_hits consider s').1
  ∧ ((find_hits consider s).1 = Ok tt →
     hits (find_hits consider s).2 = hits (find_hits consider s').2
     ∧ aligned_rcs_in_frame (find_hits consider s).2
       = aligned_rcs_in_frame (find_hits consider s').2).
Proof.
  intros Hs. rewrite !find_hits_unfold.
  destruct (find_points_in_frame_agree consider s s' Hs) as [Hres Hal].
  pose proof (find_points_in_frame_inputs consider s) as H1.
  pose proof (find_points_in_frame_inputs consider s') as H2.
  destruct (find_points_in_frame consider s) as [[[]|e] s1],
    (find_points_in_frame consider s') as [[[]|e'] s1']; simpl in *;
    try done.
  specialize (Hal eq_refl).
  assert (clusters s1 = clusters s1') as Hcl by inputs.
  assert (image_data s1 = image_data s1') as Him by inputs.
  unfold single_hit_dist. rewrite Hal, Hcl, Him.
  destruct (KDTree (clusters s1')); [|done].
  destruct (KDTree (aligned_rcs_in_frame s1')); [|done].
  by destruct (classify_hits _ _ _ _).
Qed.

(** [tile_hits], step by step. *)
Lemma tile_hits_unfold pct_thresh k s :
  tile_hits pct_thresh k s
  = match find_hits (Some k) s with
    | (Ok _, t) =>
        (remove_longest_hits t
           (elements (exclusive_hits (hits t))
              ++ elements (good_mutual_hits (hits t))) pct_thresh, t)
    | (Raise e, t) => (Raise e, t)
    end.
Proof.
  unfold tile_hits. unfold mbind at 1, M_bind at 1, bind at 1.
  by destruct (find_hits (Some k) s) as [[[]|e] t].
Qed.

Lemma tile_hits_inputs pct_thresh k s :
  same_inputs s (tile_hits pct_thresh k s).2.
Proof.
  rewrite tile_hits_unfold. pose proof (find_hits_inputs (Some k) s).
  by destruct (find_hits (Some k) s) as [[[]|e] t].
Qed.

(** The candidate hit pool of a tile depends on the inputs only. *)
Lemma tile_hits_agree pct_thresh k s s' :
  same_inputs s s' → (tile_hits pct_thresh k s).1 = (tile_hits pct_thresh k s').1.
Proof.
  intros Hs. rewrite !tile_hits_unfold.
  destruct (find_hits_agree (Some k) s s' Hs) as [Hres Hsame].
  pose proof (find_hits_inputs (Some k) s) as H1.
  pose proof (find_hits_inputs (Some k) s') as H2.
  destruct (find_hits (Some k) s) as [[[]|e] t],
    (find_hits (Some k) s') as [[[]|e'] t']; simpl in *; try congruence.
  destruct (Hsame eq_refl) as [Hhits Hal].
  assert (clusters t = clusters t') as Hcl by inputs.
  unfold remove_longest_hits, hit_dists, single_hit_dist.
  by rewrite Hhits, Hal, Hcl.
Qed.

Lemma remove_longest_hits_raises s l pct_thresh e :
  remove_longest_hits s l pct_thresh = Raise e → engine_error e.
Proof.
  unfold remove_longest_hits. destruct l as [|h l]; [done|].
  unfold mbind, result_bind, rbind, hit_dists.
  destruct (dists_of _ _) as [ds|e'] eqn:Eds.
  2:{ intros [= <-]. revert Eds. apply dists_of_raises.
      intros ? ?. apply single_hit_dist_raises. }
  destruct (np_percentile _ _) as [thresh|e'] eqn:Ep.
  2:{ intros [= <-]. revert Ep. apply np_percentile_raises; constructor. }
  apply hits_within_raises. intros ? ?. apply single_hit_dist_raises.
Qed.

Lemma tile_hits_raises pct_thresh k s e t :
  tile_hits pct_thresh k s = (Raise e, t) → engine_error e.
Proof.
  rewrite tile_hits_unfold.
  destruct (find_hits (Some k) s) as [[[]|e'] t'] eqn:E.
  - intros [= He _]. by eapply remove_longest_hits_raises.
  - intros [= <- _]. by eapply find_hits_raises.
Qed.

Lemma system_of_raises s l e : system_of s l = Raise e → engine_error e.
Proof.
  induction l as [|h l IH]; simpl; [done|].
  unfold equations_of, mbind, result_bind, rbind.
  destruct (index (rcs_in_frame s) _) eqn:E1;
    [|intros [= <-]; by eapply index_raises_engine].
  destruct (index (clusters s) _) eqn:E2;
    [|intros [= <-]; by eapply index_raises_engine].
  destruct (system_of s l); [done|]. intros [= <-]. by apply IH.
Qed.

Lemma refit_tile_raises k l s e t :
  refit_tile k l s = (Raise e, t) → engine_error e.
Proof.
  unfold refit_tile. run.
  destruct (system_of s l) as [Ab|e'] eqn:Es;
    [|intros [= <- _]; by eapply system_of_raises].
  simpl. destruct (linalg_lstsq _ _) as [[[[alpha beta] x_offset] y_offset]|];
    simpl; [|intros [= <- _]; constructor].
  destruct (fastq_tiles s !! k); simpl; [done|].
  intros [= <- _]. constructor.
Qed.

Lemma mapping_step_raises pct_thresh min_hits found k s e t :
  mapping_step pct_thresh min_hits found k s = (Raise e, t) → engine_error e.
Proof.
  unfold mapping_step. unfold mbind at 1, M_bind at 1, bind at 1.
  destruct (tile_hits pct_thresh k s) as [[pool|e'] s1] eqn:Eh;
    [|intros [= <- _]; by eapply tile_hits_raises].
  destruct (_ <? _)%Z; [done|]. run.
  destruct (refit_tile k pool s1) as [[[]|e'] s2] eqn:Er; [done|].
  intros [= <- _]. by eapply refit_tile_raises.
Qed.






End precision_facts.

(** ** The engine on the sample chip *)

Section sample_runs.
Import Aligner Notions Sample.
#[local] Existing Instance chip_tiles.
#[local] Existing Instance numerics.

(** C1. The side flag does not reach the candidates: with [side1] set and
    the key of tile 2101 of lane 1 given, whose side-1 variant 1101 is in
    the catalogue, the candidate is tile 2101 itself, tile 1101 serves as a
    control tile, and tile 2101 is reported as hitting.  In general the
    candidates are the same whether the flag is set or not. *)
Theorem find_hitting_tiles_side1_ignored :
  side1_key "lane1tile2101" = "lane1tile1101"
  ∧ is_Some (fastq_tiles chip !! "lane1tile1101")
  ∧ possible_tiles true ["lane1tile2101"] chip = ["lane1tile2101"]
  ∧ control_tiles (possible_tiles true ["lane1tile2101"] chip) chip
    = ["lane1tile2102"; "lane1tile1101"]
  ∧ (find_hitting_tiles true ["lane1tile2101"] (6 # 5) chip).1 = Ok tt
  ∧ hitting_tiles (find_hitting_tiles true ["lane1tile2101"] (6 # 5) chip).2
    = ["lane1tile2101"]
  ∧ (∀ keys s, possible_tiles true keys s = possible_tiles false keys s).
Proof.
  split; [vm_compute; reflexivity|].
  split; [exists tile_1101; vm_compute; reflexivity|].
  split; [vm_compute; reflexivity|].
  split; [vm_compute; reflexivity|].
  split; [vm_compute; reflexivity|].
  split; [vm_compute; reflexivity|].
  intros keys s. reflexivity.
Qed.

(** A constant 2 by 3 image of value 7/2 normalises to zeros. *)
Lemma median_normalize_constant_witness :
  (0 < 7 # 2)%Q
  ∧ ∃ out, ImageData.median_normalize (ImageData.constant_image 2 3 (7 # 2))
           = Some out
           ∧ length out = 2%nat
           ∧ Forall (λ row, length row = 3%nat
                            ∧ Forall (λ p, (p == 0)%Q) row) out.
Proof.
  split; [reflexivity|].
  apply (proj2 median_normalize_constant 2%nat 3%nat (7 # 2)). reflexivity.
Defined.

(** A 2 by 3 image padded by (1, 2) needs 5 columns: the square has side
    8. *)
Lemma set_fft_power_of_2_square_witness :
  ImageData.rectangular (ImageData.constant_image 2 3 (7 # 2))
  ∧ (0 ≤ 1)%Z ∧ (0 ≤ 2)%Z
  ∧ ∃ k, (0 ≤ k)%Z
      ∧ ImageData.fft_dimension (ImageData.constant_image 2 3 (7 # 2)) (1, 2)%Z
        = (2 ^ k)%Z
      ∧ ∃ padded,
          ImageData.set_fft (ImageData.constant_image 2 3 (7 # 2)) (1, 2)%Z
          = Ok padded
          ∧ ImageData.shape padded = (2 ^ k, 2 ^ k)%Z.
Proof.
  assert (ImageData.rectangular (ImageData.constant_image 2 3 (7 # 2))) as Hrect
    by (repeat constructor).
  assert (0 ≤ 1)%Z as H1 by lia.
  assert (0 ≤ 2)%Z as H2 by lia.
  split; [exact Hrect|]. split; [exact H1|]. split; [exact H2|].
  destruct (set_fft_power_of_2_square _ 1%Z 2%Z Hrect H1 H2)
    as (k & Hk & Hdim & _ & _ & (padded & Hfft & Hshape & _) & _).
  exists k. split; [exact Hk|]. split; [exact Hdim|].
  exists padded. split; [exact Hfft|exact Hshape].
Defined.

(** Rough alignment of the sample chip on its two side-2 tiles: tile 2101
    is hitting exactly because 10 exceeds 6/5 times the control
    correlation 3. *)
Lemma find_hitting_tiles_hits_iff_exceeds_witness :
  let keys := ["lane1tile2101"; "lane1tile2102"] in
  let s' := (find_hitting_tiles false keys (6 # 5) chip).2 in
  NoDup keys
  ∧ find_hitting_tiles false keys (6 # 5) chip = (Ok tt, s')
  ∧ ("lane1tile2101" ∈ hitting_tiles s'
     ↔ "lane1tile2101" ∈ possible_tiles false keys chip
       ∧ ∃ t, fastq_tiles chip !! "lane1tile2101" = Some t
              ∧ ((6 # 5) * control_corr s'
                 < (fft_align_with_im t (image_data s')).1)%Q).
Proof.
  intros keys s'.
  assert (NoDup keys) as Hnd
    by (apply (bool_decide_unpack _); vm_compute; exact I).
  assert (find_hitting_tiles false keys (6 # 5) chip = (Ok tt, s')) as Hrun
    by (vm_compute; reflexivity).
  split; [exact Hnd|]. split; [exact Hrun|].
  exact (proj2 find_hitting_tiles_hits_iff_exceeds false keys (6 # 5) chip s'
           Hnd Hrun "lane1tile2101").
Defined.


(** Hit classification of the sample chip returns, with a partition. *)
Lemma find_hits_partition_witness :
  (find_hits None chip).1 = Ok tt
  ∧ match find_hits None chip with
    | (Ok _, s') =>
        ∃ cluster_tree aligned_tree,
          KDTree (clusters s') = Some cluster_tree
          ∧ KDTree (aligned_rcs_in_frame s') = Some aligned_tree
          ∧ partition_of (hits s')
              (cluster_to_aligned_indexes aligned_tree (clusters s')
               ∪ aligned_to_cluster_indexs_rev cluster_tree
                   (aligned_rcs_in_frame s'))
    | (Raise e, _) => e ≠ AssertionError
    end.
Proof.
  split; [vm_compute; reflexivity|].
  exact (proj2 find_hits_partition None chip).
Defined.

(** On the sample chip the mutual hit (2, 2) is at distance 1, within
    the threshold 5, and not exclusive: the non-mutual hit (3, 2) shares
    its read. *)
Lemma third_wheels_never_empty_witness :
  let s := (find_hits None chip).2 in
  let c2a : gset hit := {[ (0, 0); (1, 1); (2, 2); (3, 2) ]}%nat in
  let a2c : gset hit := {[ (0, 0); (1, 1); (2, 2) ]}%nat in
  let capped : gset hit := {[ (0, 0); (1, 1) ]}%nat in
  capped_exclusive (single_hit_dist s) 5 (uncapped_exclusive c2a a2c)
  = Ok capped
  ∧ (2, 2)%nat ∈ mutual c2a a2c ∖ capped
  ∧ single_hit_dist s (2, 2)%nat = Ok 1%Q
  ∧ Qltb 5 1 = false
  ∧ ∃ tup, tup ∈ third_wheels (non_mutual c2a a2c) (2, 2)%nat
           ∧ tup ∈ non_mutual c2a a2c
           ∧ ((2, 2)%nat.1 = tup.1 ∨ (2, 2)%nat.2 = tup.2).
Proof.
  intros s c2a a2c capped.
  assert (capped_exclusive (single_hit_dist s) 5 (uncapped_exclusive c2a a2c)
          = Ok capped) as Hcap by (vm_compute; reflexivity).
  assert ((2, 2)%nat ∈ mutual c2a a2c ∖ capped) as Hin
    by (apply (bool_decide_unpack _); vm_compute; exact I).
  assert (single_hit_dist s (2, 2)%nat = Ok 1%Q) as Hd
    by (vm_compute; reflexivity).
  assert (Qltb 5 1 = false) as Hle by reflexivity.
  split; [exact Hcap|]. split; [exact Hin|]. split; [exact Hd|].
  split; [exact Hle|].
  exact (proj1 third_wheels_never_empty (single_hit_dist s) 5%Q c2a a2c capped
           (2, 2)%nat 1%Q Hcap Hin Hd Hle).
Defined.



(** The stream of the sample chip with the rotation-less tile 1101 listed
    first: it ends normally, holds read r1 at (1, 2), and is the stream
    of the chip without tile 1101. *)
Lemma read_names_rcs_in_bounds_witness :
  (read_names_rcs chip_partial).2 = None
  ∧ ("r1", 1%Q, 2%Q) ∈ (read_names_rcs chip_partial).1
  ∧ read_names_rcs chip_partial
    = read_names_rcs (with_hitting_tiles ([] ++ ["lane1tile2101"]) chip_partial).
Proof.
  assert ((read_names_rcs chip_partial).2 = None) as Hend by reflexivity.
  destruct (read_names_rcs_in_bounds chip_partial) as (_ & Hall & Hskip).
  split; [exact Hend|]. split.
  - apply (Hall Hend).
    + exists "lane1tile2101", tile_2101, [(1, 2); (5, 5); (20, 20); (9, 8)]%Q.
      split; [right; left|]. split; [reflexivity|].
      split; [by eexists|]. split; [reflexivity|]. left.
    + vm_compute. intuition discriminate.
  - exact (Hskip [] "lane1tile1101" ["lane1tile2101"] tile_1101
             eq_refl eq_refl eq_refl).
Defined.

End sample_runs.

(** * Further properties *)

(** ** Hit classification: what the categories mean *)

Section hit_meaning.
Import Aligner Notions HitNotions.
Context {kdtree : Type} `{!Numerics kdtree}.

Lemma elem_of_cluster_to_aligned_indexes (tree : kdtree) pts (h : hit) :
  h ∈ cluster_to_aligned_indexes tree pts
  ↔ ∃ pt, pts !! h.1 = Some pt ∧ h.2 = (query tree pt).2.
Proof.
  unfold cluster_to_aligned_indexes.
  rewrite elem_of_list_to_set, elem_of_lookup_imap. split.
  - intros (i & pt & -> & Hpt). by exists pt.
  - intros (pt & Hpt & Hq). exists h.1, pt. split; [|done].
    destruct h as [i j]. simpl in *. by rewrite Hq.
Qed.

Lemma elem_of_aligned_to_cluster_indexs_rev (tree : kdtree) pts (h : hit) :
  h ∈ aligned_to_cluster_indexs_rev tree pts
  ↔ ∃ pt, pts !! h.2 = Some pt ∧ h.1 = (query tree pt).2.
Proof.
  unfold aligned_to_cluster_indexs_rev.
  rewrite elem_of_list_to_set, elem_of_lookup_imap. split.
  - intros (i & pt & -> & Hpt). by exists pt.
  - intros (pt & Hpt & Hq). exists h.2, pt. split; [|done].
    destruct h as [i j]. simpl in *. by rewrite Hq.
Qed.

(** What a returning [find_hits] went through. *)
Lemma find_hits_returns consider s s' :
  find_hits consider s = (Ok tt, s') →
  ∃ s1 cluster_tree aligned_tree hs,
    find_points_in_frame consider s = (Ok tt, s1)
    ∧ KDTree (clusters s1) = Some cluster_tree
    ∧ KDTree (aligned_rcs_in_frame s1) = Some aligned_tree
    ∧ classify_hits (single_hit_dist s1)
        (ImageData.um_per_pixel (image_data s1))
        (cluster_to_aligned_indexes aligned_tree (clusters s1))
        (aligned_to_cluster_indexs_rev cluster_tree (aligned_rcs_in_frame s1))
      = Ok hs
    ∧ s' = with_hits hs s1.
Proof.
  rewrite find_hits_unfold.
  destruct (find_points_in_frame consider s) as [[[]|e] s1]; [|done].
  destruct (KDTree (clusters s1)) as [cluster_tree|] eqn:E1; [|done].
  destruct (KDTree (aligned_rcs_in_frame s1)) as [aligned_tree|] eqn:E2; [|done].
  destruct (classify_hits _ _ _ _) as [hs|] eqn:Ec; [|done].
  intros [= <-]. by exists s1, cluster_tree, aligned_tree, hs.
Qed.

(** X1. After [find_hits] returns, the mutual hits pair clusters and
    in-frame reads one to one: no two of them share a cluster or a read;
    and they are exactly the exclusive, the good mutual and the bad mutual
    hits together. *)
Theorem find_hits_mutual_one_to_one consider s s' :
  find_hits consider s = (Ok tt, s') →
  one_to_one (mutual_hits (hits s'))
  ∧ mutual_hits (hits s')
    = exclusive_hits (hits s') ∪ good_mutual_hits (hits s')
        ∪ bad_mutual_hits (hits s').
Proof.
  intros (s1 & ct & at' & hs & _ & _ & _ & Hc & ->)%find_hits_returns. simpl.
  pose proof (classify_hits_ok _ _ _ _ _ Hc) as (Hpart & Hnm & Hm).
  split.
  - rewrite Hm. intros h h' Hh Hh' Hshare. unfold mutual in *.
    apply elem_of_intersection in Hh as [Hh1 Hh2].
    apply elem_of_intersection in Hh' as [Hh1' Hh2'].
    apply elem_of_cluster_to_aligned_indexes in Hh1 as (pt1 & Hpt1 & Hq1).
    apply elem_of_cluster_to_aligned_indexes in Hh1' as (pt1' & Hpt1' & Hq1').
    apply elem_of_aligned_to_cluster_indexs_rev in Hh2 as (pt2 & Hpt2 & Hq2).
    apply elem_of_aligned_to_cluster_indexs_rev in Hh2' as (pt2' & Hpt2' & Hq2').
    destruct h as [i j], h' as [i' j']. simpl in *.
    destruct Hshare as [->| ->]; f_equal; congruence.
  - destruct Hpart as (H1 & H2 & H3 & H4 & H5 & H6 & Hall).
    rewrite Hm. rewrite Hnm in *. unfold mutual, non_mutual in *.
    apply set_eq. intros h. split.
    + intros Hh. assert (h ∈ cluster_to_aligned_indexes at' (clusters s1)
                           ∪ aligned_to_cluster_indexs_rev ct
                               (aligned_rcs_in_frame s1)) as Hin by set_solver.
      rewrite <- Hall in Hin. set_solver.
    + intros Hh.
      assert (h ∈ cluster_to_aligned_indexes at' (clusters s1)
                ∪ aligned_to_cluster_indexs_rev ct (aligned_rcs_in_frame s1))
        as Hin by (rewrite <- Hall; set_solver).
      destruct (decide (h ∈ cluster_to_aligned_indexes at' (clusters s1))),
        (decide (h ∈ aligned_to_cluster_indexs_rev ct
                       (aligned_rcs_in_frame s1))); set_solver.
Qed.

(** What a returning [classify_hits] computed on the way. *)
Lemma classify_hits_parts dist um c2a a2c hs :
  classify_hits dist um c2a a2c = Ok hs →
  ∃ threshold,
    good_hit_threshold dist um (uncapped_exclusive c2a a2c) = Ok threshold
    ∧ capped_exclusive dist threshold (uncapped_exclusive c2a a2c)
      = Ok (exclusive_hits hs)
    ∧ recover_good dist threshold (non_mutual c2a a2c)
        (elements (mutual c2a a2c ∖ exclusive_hits hs)) ∅
      = Ok (good_mutual_hits hs)
    ∧ bad_mutual_hits hs
      = mutual c2a a2c ∖ exclusive_hits hs ∖ good_mutual_hits hs
    ∧ non_mutual_hits hs = non_mutual c2a a2c
    ∧ mutual_hits hs = mutual c2a a2c.
Proof.
  unfold classify_hits, mbind, result_bind, rbind.
  destruct (good_hit_threshold _ _ _) as [threshold|]; [|done].
  destruct (capped_exclusive _ _ _) as [exclusive|] eqn:Ecap; [|done].
  destruct (recover_good _ _ _ _ _) as [good|] eqn:Egood; [|done].
  destruct (partition_check _ _ _); [|done]. intros [= <-]. simpl.
  by exists threshold.
Qed.

Lemma elem_of_capped_exclusive dist threshold exclusive capped h :
  capped_exclusive dist threshold exclusive = Ok capped →
  h ∈ capped
  ↔ h ∈ exclusive ∧ ∃ d, dist h = Ok d ∧ (d <= threshold)%Q.
Proof.
  unfold capped_exclusive, mbind, result_bind, rbind.
  destruct (hits_within _ _ _) as [kept|] eqn:E; [|done]. intros [= <-].
  rewrite elem_of_list_to_set, (hits_within_ok _ _ _ _ E), elem_of_elements.
  by setoid_rewrite Qle_bool_iff.
Qed.

(** The least element that [min] returns. *)
Lemma py_min_least ds closest :
  py_min ds = Ok closest →
  closest ∈ ds ∧ ∀ d, d ∈ ds → (closest <= d)%Q.
Proof.
  unfold py_min. destruct ds as [|x l]; [done|]. intros [= <-].
  revert x. induction l as [|y l IH]; intros x; simpl.
  - split; [by left|]. intros d ->%list_elem_of_singleton. apply Qle_refl.
  - destruct (Qltb y x) eqn:E.
    + destruct (IH y) as [Hin Hle]. split.
      * right. exact Hin.
      * intros d [->|Hd]%elem_of_cons; [|by apply Hle].
        apply Qltb_lt in E. eapply Qle_trans; [apply Hle; by left|].
        by apply Qlt_le_weak.
    + destruct (IH x) as [Hin Hle]. split.
      * apply elem_of_cons in Hin as [->|Hin]; [by left|right; by right].
      * intros d [->|[->|Hd]%elem_of_cons]%elem_of_cons.
        -- apply Hle. by left.
        -- apply Qltb_ge in E. eapply Qle_trans; [apply Hle; by left|done].
        -- apply Hle. by right.
Qed.

Lemma dists_of_ok dist l :
  ∀ ds, dists_of dist l = Ok ds → Forall2 (λ h d, dist h = Ok d) l ds.
Proof.
  induction l as [|h l IH]; intros ds; simpl.
  - intros [= <-]. constructor.
  - unfold mbind, result_bind, rbind.
    destruct (dist h) as [d|] eqn:E; [|done].
    destruct (dists_of dist l) as [ds'|]; [|done].
    intros [= <-]. constructor; [done|by apply IH].
Qed.

(** The test of line 269 on a hit whose third wheels were measured. *)
Lemma third_wheels_far dist (x : Q) tws ds closest :
  dists_of dist tws = Ok ds → py_min ds = Ok closest →
  Qltb x closest = true
  ↔ ∀ tup, tup ∈ tws → ∃ d, dist tup = Ok d ∧ (x < d)%Q.
Proof.
  intros Hds%dists_of_ok [Hin Hle]%py_min_least. rewrite Qltb_lt. split.
  - intros Hx tup Htup.
    apply list_elem_of_lookup in Htup as [i Hi].
    destruct (Forall2_lookup_l _ _ _ _ _ Hds Hi) as (d & Hd & Hdist).
    exists d. split; [done|]. eapply Qlt_le_trans; [exact Hx|].
    apply Hle. by eapply list_elem_of_lookup_2.
  - intros Hall. apply list_elem_of_lookup in Hin as [i Hi].
    destruct (Forall2_lookup_r _ _ _ _ _ Hds Hi) as (tup & Htup & Hdist).
    destruct (Hall tup) as (d & Hd & Hlt); [by eapply list_elem_of_lookup_2|].
    congruence.
Qed.

(** The loop of lines 264-270 over distinct hits: the hits it adds are
    those at most [threshold] away whose third wheels are all more than
    twice as far. *)
Lemma recover_good_spec dist threshold nm todo :
  NoDup todo →
  ∀ good good', recover_good dist threshold nm todo good = Ok good' →
  ∀ h, h ∈ good'
       ↔ h ∈ good
         ∨ h ∈ todo
           ∧ (∃ d, dist h = Ok d ∧ (d <= threshold)%Q)
           ∧ ∀ tup, tup ∈ third_wheels nm h →
                    ∃ d', dist tup = Ok d' ∧ (2 * threshold < d')%Q.
Proof.
  induction 1 as [|h0 todo Hh0 Hnd IH]; intros good good'; simpl.
  { intros [= <-] h. rewrite elem_of_nil. tauto. }
  unfold mbind, result_bind, rbind.
  destruct (dist h0) as [d0|] eqn:Ed0; [|done].
  destruct (Qltb threshold d0) eqn:Efar.
  { intros Hrec h. rewrite (IH _ _ Hrec h), elem_of_cons.
    apply Qltb_lt in Efar. split; [tauto|].
    intros [?|[[->|?] [Hex ?]]]; [tauto| |tauto].
    exfalso. destruct Hex as (d & Hd & Hle).
    rewrite Hd in Ed0. injection Ed0 as ->.
    by apply Qle_not_lt in Hle. }
  destruct (dists_of _ _) as [ds|] eqn:Eds; [|done].
  destruct (py_min ds) as [closest|] eqn:Emin; [|done].
  pose proof (third_wheels_far dist (2 * threshold)%Q _ _ _ Eds Emin) as Hfar.
  apply Qltb_ge in Efar.
  destruct (Qltb (2 * threshold) closest) eqn:Eacc.
  - intros Hrec h. rewrite (IH _ _ Hrec h), elem_of_union, elem_of_singleton,
      elem_of_cons.
    split; [|tauto].
    intros [[->|?]|?]; [|tauto..]. right. split; [by left|].
    split; [by exists d0|]. by apply Hfar.
  - intros Hrec h. rewrite (IH _ _ Hrec h), elem_of_cons. split; [tauto|].
    intros [?|[[->|?] [? Hall]]]; [tauto| |tauto].
    apply Hfar in Hall. congruence.
Qed.

(** X2. With the threshold of the good hits, an exclusive hit is a mutual
    hit that shares no endpoint and is within the threshold; a good mutual
    hit is another mutual hit within the threshold whose rivals are all
    farther than twice the threshold; a bad mutual hit is any other mutual
    hit. *)
Theorem classify_hits_categories dist um c2a a2c hs :
  classify_hits dist um c2a a2c = Ok hs →
  ∃ threshold,
    good_hit_threshold dist um (uncapped_exclusive c2a a2c) = Ok threshold
    ∧ (∀ h, h ∈ exclusive_hits hs
            ↔ h ∈ uncapped_exclusive c2a a2c
              ∧ ∃ d, dist h = Ok d ∧ (d <= threshold)%Q)
    ∧ (∀ h, h ∈ good_mutual_hits hs
            ↔ h ∈ mutual c2a a2c ∧ (h ∉ exclusive_hits hs)
              ∧ (∃ d, dist h = Ok d ∧ (d <= threshold)%Q)
              ∧ ∀ tup, tup ∈ non_mutual c2a a2c →
                       h.1 = tup.1 ∨ h.2 = tup.2 →
                       ∃ d', dist tup = Ok d' ∧ (2 * threshold < d')%Q)
    ∧ (∀ h, h ∈ bad_mutual_hits hs
            ↔ h ∈ mutual c2a a2c ∧ (h ∉ exclusive_hits hs)
              ∧ (h ∉ good_mutual_hits hs)).
Proof.
  intros (threshold & Hthr & Hcap & Hgood & Hbad & _ & _)%classify_hits_parts.
  exists threshold. split; [done|]. split; [|split].
  - intros h. by apply elem_of_capped_exclusive.
  - intros h.
    rewrite (recover_good_spec _ _ _ _ (NoDup_elements _) _ _ Hgood h).
    rewrite elem_of_elements, elem_of_difference. unfold third_wheels.
    split.
    + intros [?%elem_of_empty|[[? ?] [? Hall]]]; [done|].
      split_and!; try done. intros tup Htup Hshare. apply Hall.
      apply list_elem_of_filter. split; [done|]. by apply elem_of_elements.
    + intros (? & ? & ? & Hall). right. split_and!; try done.
      intros tup [? ?%elem_of_elements]%list_elem_of_filter. by apply Hall.
  - intros h. rewrite Hbad. set_solver.
Qed.

Lemma cluster_to_aligned_functional (tree : kdtree) pts (h h' : hit) :
  h ∈ cluster_to_aligned_indexes tree pts →
  h' ∈ cluster_to_aligned_indexes tree pts → h.1 = h'.1 → h = h'.
Proof.
  intros (pt & Hpt & Hq)%elem_of_cluster_to_aligned_indexes
         (pt' & Hpt' & Hq')%elem_of_cluster_to_aligned_indexes Heq.
  destruct h as [i j], h' as [i' j']. simpl in *. subst i'.
  f_equal. congruence.
Qed.

Lemma aligned_to_cluster_functional (tree : kdtree) pts (h h' : hit) :
  h ∈ aligned_to_cluster_indexs_rev tree pts →
  h' ∈ aligned_to_cluster_indexs_rev tree pts → h.2 = h'.2 → h = h'.
Proof.
  intros (pt & Hpt & Hq)%elem_of_aligned_to_cluster_indexs_rev
         (pt' & Hpt' & Hq')%elem_of_aligned_to_cluster_indexs_rev Heq.
  destruct h as [i j], h' as [i' j']. simpl in *. subst j'.
  f_equal. congruence.
Qed.

(** X3. After [find_hits] returns, an exclusive hit shares neither its
    cluster nor its read with any other hit of any category. *)
Theorem find_hits_exclusive_alone consider s s' :
  find_hits consider s = (Ok tt, s') →
  ∀ h h', h ∈ exclusive_hits (hits s') → h' ∈ all_hits (hits s') →
          h' ≠ h → h'.1 ≠ h.1 ∧ h'.2 ≠ h.2.
Proof.
  intros (s1 & ct & at' & hs & _ & _ & _ & Hc & ->)%find_hits_returns. simpl.
  pose proof (classify_hits_ok _ _ _ _ _ Hc) as (Hpart & Hnm & Hm).
  destruct (classify_hits_parts _ _ _ _ _ Hc) as (thr & _ & Hcap & _).
  pose proof (λ h0, elem_of_capped_exclusive _ _ _ _ h0 Hcap) as Hex.
  destruct Hpart as (_ & _ & _ & _ & _ & _ & Hall).
  intros h h' Hh Hh' Hne. unfold all_hits in Hh'. rewrite Hall in Hh'.
  apply Hex in Hh as [Hh _].
  apply elem_of_uncapped_exclusive in Hh as (Hmut & Hc1 & Hc2).
  destruct (decide (h' ∈ non_mutual
                      (cluster_to_aligned_indexes at' (clusters s1))
                      (aligned_to_cluster_indexs_rev ct
                         (aligned_rcs_in_frame s1)))) as [Hin|Hnin].
  { split; [by apply Hc1|by apply Hc2]. }
  assert (h' ∈ mutual (cluster_to_aligned_indexes at' (clusters s1))
                 (aligned_to_cluster_indexs_rev ct (aligned_rcs_in_frame s1)))
    as Hmut'.
  { unfold mutual, non_mutual in *.
    destruct (decide (h' ∈ cluster_to_aligned_indexes at' (clusters s1))),
      (decide (h' ∈ aligned_to_cluster_indexs_rev ct
                      (aligned_rcs_in_frame s1))); set_solver. }
  unfold mutual in *.
  apply elem_of_intersection in Hmut as [Hh1 Hh2].
  apply elem_of_intersection in Hmut' as [Hh1' Hh2'].
  split; intros Heq; apply Hne.
  - by eapply cluster_to_aligned_functional.
  - by eapply aligned_to_cluster_functional.
Qed.

Lemma NoDup_imap_index {A B} (f : nat → A → B) (l : list A) :
  (∀ i j x y, f i x = f j y → i = j) → NoDup (imap f l).
Proof.
  intros Hinj. apply NoDup_alt. intros i j y.
  rewrite !list_lookup_imap.
  destruct (l !! i) as [x|] eqn:Ei; [|done].
  destruct (l !! j) as [x'|] eqn:Ej; [|done]. simpl.
  intros [= <-] [= Heq]. symmetry. by eapply Hinj.
Qed.

Lemma size_cluster_to_aligned_indexes (tree : kdtree) pts :
  size (cluster_to_aligned_indexes tree pts) = length pts.
Proof.
  unfold cluster_to_aligned_indexes.
  rewrite size_list_to_set, length_imap; [done|].
  apply NoDup_imap_index. by intros i j x y [= -> _].
Qed.

Lemma size_aligned_to_cluster_indexs_rev (tree : kdtree) pts :
  size (aligned_to_cluster_indexs_rev tree pts) = length pts.
Proof.
  unfold aligned_to_cluster_indexs_rev.
  rewrite size_list_to_set, length_imap; [done|].
  apply NoDup_imap_index. by intros i j x y [= _ ->].
Qed.

(** X4. After [find_hits] returns, every cluster and every in-frame
    read occurs in some hit, and the number of non-mutual hits plus twice
    the number of mutual hits is the number of clusters plus the number of
    in-frame reads. *)
Theorem find_hits_covers_points consider s s' :
  find_hits consider s = (Ok tt, s') →
  (∀ i, (i < length (clusters s'))%nat →
        ∃ h, h ∈ all_hits (hits s') ∧ h.1 = i)
  ∧ (∀ j, (j < length (aligned_rcs_in_frame s'))%nat →
          ∃ h, h ∈ all_hits (hits s') ∧ h.2 = j)
  ∧ (size (non_mutual_hits (hits s')) + 2 * size (mutual_hits (hits s'))
     = length (clusters s') + length (aligned_rcs_in_frame s'))%nat.
Proof.
  intros (s1 & ct & at' & hs & _ & _ & _ & Hc & ->)%find_hits_returns. simpl.
  pose proof (classify_hits_ok _ _ _ _ _ Hc) as (Hpart & Hnm & Hm).
  destruct Hpart as (_ & _ & _ & _ & _ & _ & Hall).
  unfold all_hits. rewrite Hall, Hnm, Hm.
  set (c2a := cluster_to_aligned_indexes at' (clusters s1)).
  set (a2c := aligned_to_cluster_indexs_rev ct (aligned_rcs_in_frame s1)).
  split; [|split].
  - intros i Hi. apply lookup_lt_is_Some in Hi as [pt Hpt].
    exists (i, (query at' pt).2). split; [|done].
    apply elem_of_union_l, elem_of_cluster_to_aligned_indexes. by exists pt.
  - intros j Hj. apply lookup_lt_is_Some in Hj as [pt Hpt].
    exists ((query ct pt).2, j). split; [|done].
    apply elem_of_union_r, elem_of_aligned_to_cluster_indexs_rev. by exists pt.
  - rewrite <- (size_cluster_to_aligned_indexes at' (clusters s1)),
      <- (size_aligned_to_cluster_indexs_rev ct (aligned_rcs_in_frame s1)).
    fold c2a a2c. unfold non_mutual, mutual.
    rewrite size_union by set_solver.
    rewrite (size_difference_alt c2a a2c), (size_difference_alt a2c c2a).
    assert (a2c ∩ c2a = c2a ∩ a2c) as -> by set_solver.
    assert (size (c2a ∩ a2c) ≤ size c2a)%nat
      by (apply subseteq_size; set_solver).
    assert (size (c2a ∩ a2c) ≤ size a2c)%nat
      by (apply subseteq_size; set_solver).
    lia.
Qed.

End hit_meaning.
(** ** The reads in the frame *)

Section frame_facts.
Import Aligner Notions HitNotions FrameNotions.
Context {kdtree : Type} `{!Numerics kdtree}.

Ltac run :=
  unfold mbind, mret, M_bind, M_ret, bind, ret, get, modify, lift, raise,
    tile_of, update_tile in *; simpl in *.

(** A loop keeps what its body keeps of the accumulator and the engine. *)
Lemma fold_each_invariant {A B} (I : B → FastqImageAligner → Prop)
    (l : list A) (body : B → A → M B) :
  (∀ acc x s acc' s',
     x ∈ l → I acc s → body acc x s = (Ok acc', s') → I acc' s') →
  ∀ acc s acc' s',
    I acc s → fold_each l acc body s = (Ok acc', s') → I acc' s'.
Proof.
  induction l as [|x l IH]; intros Hbody acc s acc' s' Hinv.
  - by intros [= <- <-].
  - rewrite fold_each_cons.
    destruct (body acc x s) as [[acc1|e] s1] eqn:E; [|done].
    apply IH.
    + intros ????? Hin. apply Hbody. by right.
    + eapply Hbody; [by left|exact Hinv|exact E].
Qed.

Lemma frame_tile_invariant s0 considered acc k s acc' s' :
  k ∈ considered →
  frame_invariant s0 considered acc s →
  frame_tile (ImageData.shape (ImageData.image (image_data s0))) acc k s
  = (Ok acc', s') →
  frame_invariant s0 considered acc' s'.
Proof.
  intros Hk Hinv. unfold frame_tile. run.
  destruct (fastq_tiles s !! k) as [tile|] eqn:Etile; [|done]. simpl.
  destruct (aligned_rcs tile) as [pts|] eqn:Epts; [|done]. simpl.
  assert (fastq_tiles s0 !! k = Some tile) as Etile0
    by (destruct Hinv as [<- _]; done).
  apply fold_each_invariant; [|done].
  clear acc s acc' s' Hinv Etile.
  intros acc [i pt] s acc' s' Hin [Htiles Hrows]. unfold frame_point. run.
  apply elem_of_lookup_imap in Hin as (i' & pt' & [= <- <-] & Hpt).
  destruct (in_frame _ pt) eqn:Efr; [|by intros [= <- <-]].
  unfold index. rewrite list_lookup_fmap.
  destruct (rcs tile !! i) as [native|] eqn:Enative; [|done]. simpl.
  intros [= <- <-]. split; [done|]. simpl.
  apply Forall2_app; [done|]. constructor; [|constructor].
  split; [done|]. by exists k, tile, pts, i, native.
Qed.

(** When [find_points_in_frame] returns, the in-frame points and
    [rcs_in_frame] go together, entry by entry. *)
Lemma find_points_in_frame_rows consider s s' :
  find_points_in_frame consider s = (Ok tt, s') →
  fastq_tiles s' = fastq_tiles s
  ∧ clusters s' = clusters s
  ∧ Forall2 (λ pt kr,
       in_frame (ImageData.shape (ImageData.image (image_data s))) pt = true
       ∧ same_read s (considered_tiles consider s) pt kr)
      (aligned_rcs_in_frame s') (rcs_in_frame s').
Proof.
  rewrite find_points_in_frame_unfold. fold (considered_tiles consider s).
  destruct (fold_each _ _ _ _) as [[aligned|e] s1] eqn:E; [|done].
  intros [= <-]. simpl.
  pose proof (fold_each_preserves (same_inputs s)
                (considered_tiles consider s)
                (frame_tile (ImageData.shape (ImageData.image (image_data s))))
                (λ acc k t, frame_tile_inputs _ acc k s t) []
                (with_rcs_in_frame [] s)) as Hkeep.
  rewrite E in Hkeep. simpl in Hkeep.
  destruct Hkeep as (Ht & _ & _ & _ & Hc & _).
  { unfold same_inputs. by simpl. }
  assert (frame_invariant s (considered_tiles consider s) aligned s1)
    as [_ Hrows].
  { apply (fold_each_invariant
             (frame_invariant s (considered_tiles consider s))
             (considered_tiles consider s)
             (frame_tile (ImageData.shape (ImageData.image (image_data s))))
             (λ acc k t acc' t' Hk,
                frame_tile_invariant s _ acc k t acc' t' Hk)
             [] (with_rcs_in_frame [] s) aligned s1); [|exact E].
    split; [done|]. simpl. constructor. }
  done.
Qed.

(** X5. After [find_points_in_frame] returns, [rcs_in_frame] and
    [aligned_rcs_in_frame] have the same length, every point kept lies in
    the frame of the image, and the entries with the same index are the
    truncated native coordinates and the aligned position of one read of a
    considered tile. *)
Theorem find_points_in_frame_same_reads consider s s' :
  find_points_in_frame consider s = (Ok tt, s') →
  length (rcs_in_frame s') = length (aligned_rcs_in_frame s')
  ∧ ∀ n pt, aligned_rcs_in_frame s' !! n = Some pt →
      in_frame (ImageData.shape (ImageData.image (image_data s))) pt = true
      ∧ ∃ kr, rcs_in_frame s' !! n = Some kr
              ∧ same_read s (considered_tiles consider s) pt kr.
Proof.
  intros (_ & _ & Hrows)%find_points_in_frame_rows. split.
  - symmetry. by eapply Forall2_length.
  - intros n pt Hpt.
    destruct (Forall2_lookup_l _ _ _ _ _ Hrows Hpt) as (kr & Hkr & Hfr & Hsame).
    split; [done|]. by exists kr.
Qed.

(** X6. After [find_hits] returns, the distances and the linear system
    of any list of mutual hits are computed without an error: their
    indexes are in range. *)
Theorem find_hits_mutual_in_range consider s s' :
  find_hits consider s = (Ok tt, s') →
  ∀ l, (∀ h, h ∈ l → h ∈ mutual_hits (hits s')) →
       is_ok (hit_dists s' l) ∧ is_ok (system_of s' l).
Proof.
  intros (s1 & ct & at' & hs & Hfr & _ & _ & Hc & ->)%find_hits_returns.
  simpl.
  apply find_points_in_frame_rows in Hfr as (_ & _ & Hrows).
  apply Forall2_length in Hrows.
  pose proof (classify_hits_ok _ _ _ _ _ Hc) as (_ & _ & Hm). rewrite Hm.
  assert (∀ h, h ∈ mutual (cluster_to_aligned_indexes at' (clusters s1))
                   (aligned_to_cluster_indexs_rev ct (aligned_rcs_in_frame s1)) →
               (∃ c, clusters s1 !! h.1 = Some c)
               ∧ (∃ a, aligned_rcs_in_frame s1 !! h.2 = Some a)
               ∧ ∃ kr, rcs_in_frame s1 !! h.2 = Some kr) as Hrange.
  { intros h [H1 H2]%elem_of_intersection.
    apply elem_of_cluster_to_aligned_indexes in H1 as (c & Hc1 & _).
    apply elem_of_aligned_to_cluster_indexs_rev in H2 as (a & Ha & _).
    split; [by exists c|]. split; [by exists a|].
    apply lookup_lt_is_Some. rewrite <- Hrows. by eapply lookup_lt_Some. }
  intros l. induction l as [|h l IH]; intros Hl.
  - split; by eexists.
  - destruct IH as [[ds Hds] [Ab HAb]]; [intros h' ?; apply Hl; by right|].
    destruct (Hrange h) as ((c & Hcl) & (a & Hal) & (kr & Hkr));
      [apply Hl; by left|].
    split.
    + unfold hit_dists in *. simpl. rewrite Hds.
      unfold single_hit_dist, index. simpl. rewrite Hcl, Hal. by eexists.
    + simpl. rewrite HAb. unfold equations_of, index. simpl.
      rewrite Hkr, Hcl. by eexists.
Qed.

End frame_facts.
(** ** Rough alignment: what the hitting tiles carry *)

Section rough_more.
Import Aligner Notions RoughNotions.
Context {transform : Type} `{!TileMethods transform}.

Ltac run :=
  unfold mbind, mret, M_bind, M_ret, bind, ret, get, modify, lift, raise,
    tile_of, update_tile in *; simpl in *.

(** One step of the loop of lines 166-177, with the tile it stores. *)
Lemma hitting_step_stores snr_thresh k s t :
  fastq_tiles s !! k = Some t →
  ∃ t', snr t' = Some (snr_of (peak_corr s k) (control_corr s))
        ∧ hitting_step snr_thresh k s
          = (Ok tt,
             if exceeds snr_thresh s k then
               with_hitting_tiles (hitting_tiles s ++ [k])
                 (with_fastq_tiles (<[k := t']> (fastq_tiles s)) s)
             else s).
Proof.
  intros Ht. unfold hitting_step, exceeds, peak_corr. run. rewrite Ht. simpl.
  destruct (fft_align_with_im t (image_data s)) as [max_corr align_tr].
  simpl.
  exists (with_snr (snr_of max_corr (control_corr s))
            (set_aligned_rcs t align_tr)).
  split; [done|]. by destruct (Qltb _ max_corr).
Qed.

Lemma snr_of_above snr_thresh max_corr control t :
  (0 <= control)%Q → Qltb (snr_thresh * control) max_corr = true →
  snr t = Some (snr_of max_corr control) → snr_above snr_thresh control t.
Proof.
  intros Hpos Hlt%Qltb_lt Hsnr. unfold snr_above, snr_of in *. rewrite Hsnr.
  destruct (Qeq_bool control 0) eqn:E.
  - by apply Qeq_bool_iff in E.
  - apply Qeq_bool_neq in E. split; [|done].
    apply Qlt_shift_div_l; [|done].
    apply Qle_lteq in Hpos as [?|Heq]; [done|]. by symmetry in Heq.
Qed.

(** The loop of lines 166-177: whatever it appends is a candidate, and
    every hitting tile carries a ratio above the threshold. *)
Lemma hitting_loop_snr snr_thresh (cand : list string) :
  ∀ s, (∀ k, k ∈ cand → is_Some (fastq_tiles s !! k)) →
  (0 <= control_corr s)%Q →
  (∀ k, k ∈ hitting_tiles s →
        ∃ t, fastq_tiles s !! k = Some t
             ∧ snr_above snr_thresh (control_corr s) t) →
  ∃ s', for_each cand (hitting_step snr_thresh) s = (Ok tt, s')
        ∧ control_corr s' = control_corr s
        ∧ (∀ k, k ∈ hitting_tiles s' → k ∈ hitting_tiles s ∨ k ∈ cand)
        ∧ (∀ k, k ∈ hitting_tiles s' →
                ∃ t, fastq_tiles s' !! k = Some t
                     ∧ snr_above snr_thresh (control_corr s') t).
Proof.
  induction cand as [|k cand IH]; intros s Hin Hpos Hinv.
  - exists s. rewrite for_each_nil. split_and!; try done. by left.
  - destruct (Hin k (list_elem_of_here _ _)) as [t Ht].
    destruct (hitting_step_stores snr_thresh k s t Ht) as (t' & Hsnr & Hstep).
    rewrite for_each_cons, Hstep.
    set (s1 := if exceeds snr_thresh s k then _ else s) in *.
    assert (control_corr s1 = control_corr s) as Hc
      by (subst s1; by destruct (exceeds _ _ _)).
    destruct (IH s1) as (s' & Hrun & Hc' & Hsub & Hinv').
    { intros k' Hk'. destruct (Hin k') as [t0 Ht0]; [by right|].
      subst s1. destruct (exceeds _ _ _); [|by eexists]. simpl.
      destruct (decide (k = k')) as [->|Hne].
      - rewrite lookup_insert_eq. by eexists.
      - rewrite lookup_insert_ne by done. by eexists. }
    { by rewrite Hc. }
    { rewrite Hc. subst s1. destruct (exceeds snr_thresh s k) eqn:E; [|done].
      simpl. intros k' Hk'. destruct (decide (k = k')) as [<-|Hne].
      - rewrite lookup_insert_eq. exists t'. split; [done|].
        eapply snr_of_above; [done| |exact Hsnr]. exact E.
      - rewrite lookup_insert_ne by done. apply Hinv.
        apply elem_of_app in Hk' as [?|Hk']; [done|].
        by apply list_elem_of_singleton in Hk'. }
    exists s'. split; [done|]. split; [congruence|]. split; [|done].
    intros k' Hk'. destruct (Hsub k' Hk') as [Hk1|?]; [|right; by right].
    subst s1. destruct (exceeds _ _ _); [|by left]. simpl in Hk1.
    apply elem_of_app in Hk1 as [?|Hk1]; [by left|].
    apply list_elem_of_singleton in Hk1 as ->. right. by left.
Qed.

(** What a returning [find_hitting_tiles] leaves. *)
Lemma find_hitting_tiles_leaves side1 keys snr_thresh s s' :
  find_hitting_tiles side1 keys snr_thresh s = (Ok tt, s') →
  ∀ k, k ∈ hitting_tiles s' →
       k ∈ possible_tiles side1 keys s
       ∧ ∃ t, fastq_tiles s' !! k = Some t
              ∧ snr_above snr_thresh (control_corr s') t.
Proof.
  intros Hrun. rewrite find_hitting_tiles_unfold in Hrun.
  destruct (ImageData.set_fft _ _) as [padded|e]; [|done]. simpl in Hrun.
  set (cand := possible_tiles side1 keys s) in *.
  match type of Hrun with for_each _ _ ?s0 = _ => set (s2 := s0) in * end.
  destruct (hitting_loop_snr snr_thresh cand s2) as (s3 & Hloop & _ & Hsub & Hinv).
  { intros k' Hk'. by apply elem_of_tiles_of_keys in Hk' as [_ ?]. }
  { apply max_corr_from_ge_init. }
  { by intros k ?%elem_of_nil. }
  rewrite Hloop in Hrun. injection Hrun as <-.
  intros k Hk. split; [|by apply Hinv].
  destruct (Hsub k Hk) as [?%elem_of_nil|?]; done.
Qed.

(** X7. After [find_hitting_tiles] returns, every hitting tile is one
    of the given keys, is in the catalogue, and is none of the control
    tiles. *)
Theorem find_hitting_tiles_among_candidates side1 keys snr_thresh s s' :
  find_hitting_tiles side1 keys snr_thresh s = (Ok tt, s') →
  ∀ k, k ∈ hitting_tiles s' →
       k ∈ keys ∧ is_Some (fastq_tiles s !! k)
       ∧ k ∉ control_tiles (possible_tiles side1 keys s) s.
Proof.
  intros Hrun k Hk.
  destruct (find_hitting_tiles_leaves _ _ _ _ _ Hrun k Hk) as [Hcand _].
  pose proof Hcand as [? ?]%elem_of_tiles_of_keys.
  split; [done|]. split; [done|].
  intros (t & _ & _ & Hn)%elem_of_control_tiles. by apply Hn.
Qed.


(** X9. [find_hitting_tiles] fails only when [set_fft] fails, with its
    error and with the engine left as it was; otherwise it returns, with
    the padded image stored as the transform. *)
Theorem find_hitting_tiles_fails_with_set_fft side1 keys snr_thresh s :
  match ImageData.set_fft (ImageData.image (image_data s))
          (fq_im_scaled_dims s) with
  | Ok padded =>
      (find_hitting_tiles side1 keys snr_thresh s).1 = Ok tt
      ∧ ImageData.fft
          (image_data (find_hitting_tiles side1 keys snr_thresh s).2)
        = Some padded
  | Raise e => find_hitting_tiles side1 keys snr_thresh s = (Raise e, s)
  end.
Proof.
  rewrite find_hitting_tiles_unfold.
  destruct (ImageData.set_fft _ _) as [padded|e]; [|done]. simpl.
  match goal with |- context [for_each ?c _ ?s0] =>
    destruct (hitting_loop_frame snr_thresh c s0) as (s3 & -> & _ & Hi)
  end.
  { intros k' Hk'. by apply elem_of_tiles_of_keys in Hk' as [_ ?]. }
  simpl. by rewrite Hi.
Qed.

End rough_more.
(** ** Precision alignment: success, and what it never touches *)

Section precision_more.
Import Aligner Notions PrecisionNotions.
Context {transform kdtree : Type}.
Context `{!TileMethods transform} `{!Numerics kdtree}.

Ltac run :=
  unfold mbind, mret, M_bind, M_ret, bind, ret, get, modify, lift, raise,
    tile_of, update_tile in *; simpl in *.

(** [precision_align_only] with hitting tiles, step by step. *)
Lemma precision_align_only_unfold min_hits s :
  hitting_tiles s ≠ [] →
  precision_align_only min_hits s
  = match fold_each (hitting_tiles s) false
            (mapping_step (9 # 10) min_hits) s with
    | (Ok found, s1) =>
        if negb found then (Raise could_not_align, s1) else find_hits None s1
    | (Raise e, s1) => (Raise e, s1)
    end.
Proof.
  intros Hsome. unfold precision_align_only, least_squares_mapping.
  unfold mbind, M_bind, bind, get, raise. cbv beta iota.
  destruct (hitting_tiles s) as [|k0 l] eqn:E; [done|]. rewrite E.
  destruct (fold_each _ _ _ _) as [[found|e] s1]; [|done].
  by destruct found.
Qed.

(** When the loop ends with the flag set, a tile had a pool that reached
    the minimum. *)
Lemma mapping_loop_reached pct_thresh min_hits s l :
  ∀ s0 s', same_inputs s s0 →
  fold_each l false (mapping_step pct_thresh min_hits) s0 = (Ok true, s') →
  ∃ k pool, k ∈ l ∧ (tile_hits pct_thresh k s).1 = Ok pool
            ∧ (min_hits ≤ Z.of_nat (length pool))%Z.
Proof.
  induction l as [|k l IH]; intros s0 s' Hs Hrun; [done|].
  rewrite fold_each_cons in Hrun.
  destruct (mapping_step _ _ _ _ _) as [[found|e] s1] eqn:Estep; [|done].
  revert Estep. unfold mapping_step.
  unfold mbind at 1, M_bind at 1, bind at 1.
  pose proof (tile_hits_agree pct_thresh k s s0 Hs) as Hagree.
  pose proof (tile_hits_inputs pct_thresh k s0) as Hkeep.
  destruct (tile_hits pct_thresh k s0) as [[pool|e'] s2]; [|done].
  simpl in *. destruct (_ <? _)%Z eqn:Esmall.
  - intros [= <- <-].
    destruct (IH s2 s') as (k' & pool' & ? & ?); [|done|].
    { by eapply same_inputs_trans. }
    exists k', pool'. split; [by right|done].
  - intros _. exists k, pool. split; [by left|]. split; [done|].
    by apply Z.ltb_ge.
Qed.

(** X10. Precision alignment returns only when some hitting tile had a pool
    of at least [min_hits] hits. *)
Theorem precision_align_only_returns min_hits s s' :
  precision_align_only min_hits s = (Ok tt, s') →
  ∃ k pool, k ∈ hitting_tiles s
            ∧ (tile_hits (9 # 10) k s).1 = Ok pool
            ∧ (min_hits ≤ Z.of_nat (length pool))%Z.
Proof.
  destruct (decide (hitting_tiles s = [])) as [Hnone|Hsome].
  { unfold precision_align_only. run. by rewrite Hnone. }
  rewrite (precision_align_only_unfold _ _ Hsome).
  destruct (fold_each _ _ _ _) as [[[]|e] s1] eqn:Eloop; [|done..].
  intros _. eapply mapping_loop_reached; [apply same_inputs_refl|exact Eloop].
Qed.

Ltac setup := unfold same_setup, same_inputs in *; simpl in *;
              intuition congruence.

Lemma same_setup_of_inputs s s' : same_inputs s s' → same_setup s s'.
Proof. setup. Qed.

Lemma same_setup_trans s1 s2 s3 :
  same_setup s1 s2 → same_setup s2 s3 → same_setup s1 s3.
Proof. setup. Qed.

Lemma refit_tile_setup k l s : same_setup s (refit_tile k l s).2.
Proof.
  unfold refit_tile. run.
  destruct (system_of s l) as [Ab|e]; simpl; [|setup].
  destruct (linalg_lstsq _ _) as [[[[alpha beta] x_offset] y_offset]|];
    simpl; [|setup].
  destruct (fastq_tiles s !! k) as [tile|] eqn:Ek; simpl; [|setup].
  unfold same_setup. simpl. split_and!; try done.
  rewrite dom_insert_L. apply elem_of_dom_2 in Ek. set_solver.
Qed.

Lemma mapping_step_setup pct_thresh min_hits found k s :
  same_setup s (mapping_step pct_thresh min_hits found k s).2.
Proof.
  unfold mapping_step. unfold mbind at 1, M_bind at 1, bind at 1.
  pose proof (same_setup_of_inputs _ _ (tile_hits_inputs pct_thresh k s))
    as Hkeep.
  destruct (tile_hits pct_thresh k s) as [[pool|e] s1]; [|done].
  simpl in Hkeep. destruct (_ <? _)%Z; [done|]. run.
  pose proof (refit_tile_setup k pool s1) as Hrefit.
  destruct (refit_tile k pool s1) as [[[]|e] s2]; simpl in *;
    by eapply same_setup_trans.
Qed.

(** X11. Whatever its outcome, precision alignment leaves the image, the
    clusters, the control correlation, the hitting tiles and the keys of
    the catalogue as they were. *)
Theorem precision_align_only_keeps_setup min_hits s :
  same_setup s (precision_align_only min_hits s).2.
Proof.
  destruct (decide (hitting_tiles s = [])) as [Hnone|Hsome].
  { unfold precision_align_only. run. rewrite Hnone. setup. }
  rewrite (precision_align_only_unfold _ _ Hsome).
  pose proof (fold_each_preserves (same_setup s) (hitting_tiles s)
                (mapping_step (9 # 10) min_hits)) as Hloop.
  specialize (Hloop (λ found k t Ht,
                       same_setup_trans _ _ _ Ht
                         (mapping_step_setup _ _ found k t)) false s).
  destruct (fold_each _ _ _ _) as [[found|e] s1]; simpl in *;
    [|apply Hloop; setup].
  assert (same_setup s s1) as Hs1 by (apply Hloop; setup).
  destruct found; simpl; [|done].
  eapply same_setup_trans; [exact Hs1|].
  apply same_setup_of_inputs, find_hits_inputs.
Qed.

End precision_more.
(** ** The image: normalisation and padding, pixel by pixel *)

Section image_more.
Import ImageData ImageNotions.











End image_more.
Section padding_more.
Import ImageData ImageNotions.

Lemma pixel_blank n m i j x :
  pixel (replicate n (replicate m 0%Q)) i j = Some x → x = 0%Q.
Proof.
  unfold pixel, pixels. intros Hx. apply bind_Some in Hx as (r & Er & Hx).
  apply lookup_replicate_1 in Er as [-> _].
  by apply lookup_replicate_1 in Hx as [-> _].
Qed.

Lemma pixel_app_l (a b : list (list Q)) i j :
  (i < length a)%nat → pixel (a ++ b) i j = pixel a i j.
Proof. intros. unfold pixel, pixels. by rewrite lookup_app_l. Qed.

Lemma pixel_app_r (a b : list (list Q)) i j :
  pixel (a ++ b) (length a + i) j = pixel b i j.
Proof.
  unfold pixel, pixels. rewrite lookup_app_r by lia.
  by replace (length a + i - length a)%nat with i by lia.
Qed.

(** A padded row holds the row after [c] zeros, and zeros elsewhere. *)
Lemma padded_row_inside c d (r : list Q) j :
  (replicate c 0%Q ++ r ++ replicate d 0%Q) !! (c + j)%nat
  = if decide (j < length r)%nat then r !! j
    else replicate d 0%Q !! (j - length r)%nat.
Proof.
  rewrite lookup_app_r by (rewrite length_replicate; lia).
  rewrite length_replicate. replace (c + j - c)%nat with j by lia.
  destruct (decide _); [by rewrite lookup_app_l|].
  by rewrite lookup_app_r by lia.
Qed.

Lemma padded_row_nonzero c d (r : list Q) j x :
  (replicate c 0%Q ++ r ++ replicate d 0%Q) !! j = Some x → x ≠ 0%Q →
  ∃ j', j = (c + j')%nat ∧ r !! j' = Some x.
Proof.
  intros Hx Hnz. destruct (decide (j < c)%nat) as [Hlt|Hge].
  { rewrite lookup_app_l in Hx by (rewrite length_replicate; lia).
    by apply lookup_replicate_1 in Hx as [-> _]. }
  replace j with (c + (j - c))%nat in Hx by lia.
  rewrite padded_row_inside in Hx. exists (j - c)%nat.
  split; [lia|]. destruct (decide _); [done|].
  by apply lookup_replicate_1 in Hx as [-> _].
Qed.

(** The grid [np_pad] builds: [a] blank rows, the padded rows, [b] blank
    rows. *)
Lemma padded_inside a b c d n (im : pixels) i j x :
  pixel im i j = Some x →
  pixel (replicate a (replicate n 0%Q)
           ++ map (λ r, replicate c 0%Q ++ r ++ replicate d 0%Q) im
           ++ replicate b (replicate n 0%Q)) (a + i) (c + j) = Some x.
Proof.
  intros Hx.
  replace (a + i)%nat
    with (length (replicate a (replicate n 0%Q)) + i)%nat
    by (by rewrite length_replicate).
  rewrite pixel_app_r. unfold pixel, pixels in *.
  destruct (im !! i) as [r|] eqn:Er; [|done]. simpl in Hx.
  rewrite lookup_app_l
    by (rewrite length_map; by eapply lookup_lt_Some).
  change (map ?f im) with (f <$> im). rewrite list_lookup_fmap, Er.
  simpl. rewrite padded_row_inside.
  destruct (decide _) as [|Hout]; [done|].
  apply lookup_lt_Some in Hx. lia.
Qed.

Lemma padded_nonzero a b c d n (im : pixels) i j x :
  pixel (replicate a (replicate n 0%Q)
           ++ map (λ r, replicate c 0%Q ++ r ++ replicate d 0%Q) im
           ++ replicate b (replicate n 0%Q)) i j = Some x →
  x ≠ 0%Q →
  ∃ i' j', i = (a + i')%nat ∧ j = (c + j')%nat ∧ pixel im i' j' = Some x.
Proof.
  intros Hx Hnz. destruct (decide (i < a)%nat) as [Hlt|Hge].
  { rewrite pixel_app_l in Hx by (rewrite length_replicate; lia).
    by apply pixel_blank in Hx. }
  replace i with (length (replicate a (replicate n 0%Q)) + (i - a))%nat
    in Hx by (rewrite length_replicate; lia).
  rewrite pixel_app_r in Hx.
  destruct (decide (i - a < length im)%nat) as [Hin|Hout].
  - rewrite pixel_app_l in Hx by (by rewrite length_map).
    unfold pixel, pixels in *. change (map ?f im) with (f <$> im) in Hx.
    rewrite list_lookup_fmap in Hx.
    destruct (im !! (i - a)%nat) as [r|] eqn:Er; [|done]. simpl in Hx.
    apply padded_row_nonzero in Hx as (j' & -> & Hx); [|done].
    exists (i - a)%nat, j'. split; [lia|]. split; [done|].
    by rewrite Er.
  - replace (i - a)%nat
      with (length (map (λ r, replicate c 0%Q ++ r ++ replicate d 0%Q) im)
            + (i - a - length im))%nat in Hx
      by (rewrite length_map; lia).
    rewrite pixel_app_r in Hx. by apply pixel_blank in Hx.
Qed.

(** X14. The image sits in the padded image at the offset of the padding,
    and every other pixel of the padded image is zero. *)
Theorem set_fft_embeds (im padded : pixels) (padding : Z * Z) :
  set_fft im padding = Ok padded →
  (0 ≤ padding.1)%Z ∧ (0 ≤ padding.2)%Z
  ∧ (∀ i j x, pixel im i j = Some x →
       pixel padded (Z.to_nat padding.1 + i) (Z.to_nat padding.2 + j)
       = Some x)
  ∧ (∀ i j x, pixel padded i j = Some x → ¬ (x == 0)%Q →
       ∃ i' j', i = (Z.to_nat padding.1 + i')%nat
                ∧ j = (Z.to_nat padding.2 + j')%nat
                ∧ pixel im i' j' = Some x).
Proof.
  unfold set_fft, set_fft_with, np_pad. cbn [fst snd].
  destruct (bool_decide _) eqn:Epad; [|done].
  apply bool_decide_eq_true in Epad as (Hph & _ & Hpw & _).
  cbn [mbind result_bind rbind].
  destruct (bool_decide (shape _ ≠ _)); [done|]. intros [= <-].
  split; [done|]. split; [done|]. split.
  - intros i j x Hx. by apply padded_inside.
  - intros i j x Hx Hnz. eapply padded_nonzero; [exact Hx|].
    by intros ->.
Qed.

End padding_more.
(** ** Trimming a pool: only the longest hits go, never all of them *)

Section trimming.
Import ImageData Aligner Notions.
Context {kdtree : Type} `{!Numerics kdtree}.







End trimming.
(** ** The mapping of reads to the canvas *)

Section mapping_facts.
Import Aligner TileMappings.









End mapping_facts.
(** ** The drivers: process counts, rows, and what they catch *)

Section driver_facts.
Import Aligner Notions Align.
Context {transform kdtree : Type}.
Context `{!TileMethods transform} `{!Numerics kdtree}.

Ltac run :=
  unfold mbind, mret, M_bind, M_ret, bind, ret, get, modify, lift, raise,
    tile_of, update_tile in *; simpl in *.

(** The exceptions of precision alignment. *)
Lemma precision_align_only_raises min_hits s e s' :
  precision_align_only min_hits s = (Raise e, s') →
  (e = alignment_not_found ∧ hitting_tiles s = [])
  ∨ (hitting_tiles s ≠ [] ∧ (e = could_not_align ∨ engine_error e)).
Proof.
  destruct (decide (hitting_tiles s = [])) as [Hnone|Hsome].
  { unfold precision_align_only. run. rewrite Hnone.
    intros [= <- _]. by left. }
  rewrite (precision_align_only_unfold _ _ Hsome). intros Hrun. right.
  split; [done|]. revert Hrun.
  destruct (fold_each _ _ _ _) as [[found|e'] s1] eqn:Eloop.
  - destruct found; simpl.
    + intros ?%find_hits_raises. by right.
    + intros [= <- _]. by left.
  - intros [= <- _]. right. revert Eloop. apply fold_each_raises.
    intros ? ? ? ? ?. apply mapping_step_raises.
Qed.

Lemma uncaught_of_engine e :
  engine_error e → is_ValueError e = false → is_IndexError e = false →
  uncaught e.
Proof. by intros [] ? ?; try done; constructor. Qed.

(** X18. From [perform_alignment] no "Alignment not found", no value error
    and no index error escapes; an alignment is written only when a
    hitting tile had a pool of at least [min_hits] hits; without hitting
    tiles the image is passed over. *)
Theorem perform_alignment_outcome (min_hits : Z) (fia : FastqImageAligner) :
  (∀ e, perform_alignment min_hits fia = Escaped e → uncaught e)
  ∧ (∀ fia', perform_alignment min_hits fia = Written fia' →
       ∃ k pool, k ∈ hitting_tiles fia
                 ∧ (tile_hits (9 # 10) k fia).1 = Ok pool
                 ∧ (min_hits ≤ Z.of_nat (length pool))%Z)
  ∧ (hitting_tiles fia = [] → perform_alignment min_hits fia = Skipped).
Proof.
  unfold perform_alignment. split_and!.
  - intros e. destruct (hitting_tiles fia) as [|k0 l] eqn:Eh; [done|].
    destruct (precision_align_only _ _) as [[[]|e'] s1] eqn:Erun; [done|].
    destruct (is_ValueError e') eqn:Ev; [done|].
    destruct (is_IndexError e') eqn:Ei; [done|]. intros [= <-].
    apply precision_align_only_raises in Erun
      as [[_ Hnone]|[_ [->|Herr]]]; [congruence|done|].
    by apply uncaught_of_engine.
  - intros fia'. destruct (hitting_tiles fia) as [|k0 l] eqn:Eh; [done|].
    rewrite <- Eh.
    destruct (precision_align_only _ _) as [[[]|e'] s1] eqn:Erun.
    + intros _. revert Erun.
      rewrite precision_align_only_unfold by (by rewrite Eh).
      destruct (fold_each _ _ _ _) as [[[]|e] s2] eqn:Eloop; [|done..].
      intros _.
      eapply mapping_loop_reached; [apply same_inputs_refl|exact Eloop].
    + by destruct (is_ValueError e'), (is_IndexError e').
  - by intros ->.
Qed.

(** X19. From [process_data_image] "Alignment not found" escapes exactly
    when the engine has no hitting tile; apart from it only a key,
    attribute, zero-division or linear-algebra error escapes. *)
Theorem process_data_image_outcome (min_hits : Z) (fia : FastqImageAligner) :
  (process_data_image min_hits fia = Escaped alignment_not_found
   ↔ hitting_tiles fia = [])
  ∧ (∀ e, process_data_image min_hits fia = Escaped e →
       e = alignment_not_found ∨ uncaught e).
Proof.
  unfold process_data_image. split.
  - split.
    + destruct (precision_align_only _ _) as [[[]|e'] s1] eqn:Erun; [done|].
      destruct (_ || _); [done|]. intros [= ->].
      apply precision_align_only_raises in Erun
        as [[_ Hnone]|[_ [[=]|Herr]]]; [done|]. inversion Herr.
    + intros Hnone. unfold precision_align_only. run. by rewrite Hnone.
  - intros e.
    destruct (precision_align_only _ _) as [[[]|e'] s1] eqn:Erun; [done|].
    destruct (is_IndexError e') eqn:Ei; [done|].
    destruct (is_ValueError e') eqn:Ev; [done|]. simpl. intros [= <-].
    apply precision_align_only_raises in Erun
      as [[-> _]|[_ [->|Herr]]]; [by left|done|].
    right. by apply uncaught_of_engine.
Qed.

End driver_facts.

Section count_facts.
Import Align.

(** X20. The process count is at least 1 and the chunk size lies between 1
    and 32; below the cap of 32, the processes take all images with one
    chunk each, of one image less than the chunk size.  A positive limit
    caps the process count, which stays at least 1. *)
Theorem calculate_process_count_bounds (cpu_count image_count limit : Z) :
  (0 ≤ image_count)%Z →
  let num_processes := (calculate_process_count cpu_count image_count).1 in
  let chunksize := (calculate_process_count cpu_count image_count).2 in
  (1 ≤ num_processes)%Z
  ∧ (1 ≤ chunksize ≤ 32)%Z
  ∧ ((chunksize < 32)%Z → (image_count ≤ num_processes * (chunksize - 1))%Z)
  ∧ ((0 < limit)%Z →
       (1 ≤ limit_processes limit num_processes ≤ Z.min limit num_processes)%Z)
  ∧ ((limit ≤ 0)%Z → limit_processes limit num_processes = num_processes).
Proof.
  intros Hn. unfold calculate_process_count, limit_processes. cbn [fst snd].
  set (p := Z.max (cpu_count - 2) 1).
  assert (1 ≤ p)%Z as Hp by lia.
  set (q := (inject_Z image_count / inject_Z p)%Q).
  assert (0 < inject_Z p)%Q as Hp'.
  { change 0%Q with (inject_Z 0). rewrite <- Zlt_Qlt. lia. }
  assert (0 <= q)%Q as Hq.
  { unfold q. apply Qle_shift_div_l; [done|]. rewrite Qmult_0_l.
    change 0%Q with (inject_Z 0). by rewrite <- Zle_Qle. }
  assert (0 ≤ Qceiling q)%Z as Hc.
  { change 0%Z with (Qceiling 0). by apply Qceiling_resp_le. }
  assert (image_count ≤ p * Qceiling q)%Z as Hall.
  { rewrite Zle_Qle, inject_Z_mult.
    eapply Qle_trans; [|apply Qmult_le_l; [done|apply (Qle_ceiling q)]].
    unfold q. rewrite Qmult_div_r; [apply Qle_refl|].
    intros E. rewrite E in Hp'. by apply Qlt_irrefl in Hp'. }
  split; [done|]. split; [lia|]. split; [|split].
  - intros Hcap. replace (Z.min 32 (Qceiling q + 1) - 1)%Z with (Qceiling q)
      by lia. done.
  - intros Hl. rewrite (proj2 (Z.ltb_lt _ _) Hl). lia.
  - intros Hl. destruct (0 <? limit)%Z eqn:E; [|done].
    apply Z.ltb_lt in E. lia.
Qed.

Lemma NoDup_of_nat_seq n : NoDup (map Z.of_nat (seq 0 n)).
Proof.
  change (map ?f ?l) with (f <$> l).
  apply NoDup_fmap_2; [apply _|apply NoDup_seq].
Qed.

(** X21. The rows checked for alignment are distinct rows of the grid; a
    grid of more than two rows has three of its rows checked, and a grid
    of one or two rows has all its rows checked. *)
Theorem rows_to_check_in_grid (height : Z) :
  NoDup (rows_to_check height)
  ∧ (∀ row, row ∈ rows_to_check height → (0 ≤ row < height)%Z)
  ∧ ((height ≤ 2)%Z →
       ∀ row, (0 ≤ row < height)%Z → row ∈ rows_to_check height)
  ∧ ((2 < height)%Z → length (rows_to_check height) = 3%nat).
Proof.
  unfold rows_to_check. destruct (2 <? height)%Z eqn:E.
  - apply Z.ltb_lt in E.
    assert (1 ≤ height / 2)%Z by (apply Z.div_le_lower_bound; lia).
    assert (height / 2 < height - 1)%Z
      by (apply Z.div_lt_upper_bound; lia).
    split_and!.
    + repeat constructor; set_solver by lia.
    + intros row. rewrite !elem_of_cons, elem_of_nil. lia.
    + lia.
    + done.
  - apply Z.ltb_ge in E. split_and!.
    + apply NoDup_of_nat_seq.
    + intros row. change (map ?f ?l) with (f <$> l).
      intros (i & -> & Hi%elem_of_seq)%list_elem_of_fmap. lia.
    + intros _ row Hrow. change (map ?f ?l) with (f <$> l).
      apply list_elem_of_fmap. exists (Z.to_nat row).
      split; [lia|]. apply elem_of_seq. lia.
    + lia.
Qed.

End count_facts.
(** ** readmap.py: consensus, distance to a target, side of the chip *)

Section consensus_facts.
Import Aligner ReadMap.
Variable simple_hamming_distance : str → str → Z.
Variable reverse_complement : str → str.
Variable log_p_struct : ascii → ascii → Z → result Q.

Lemma ML_base_chosen r1 q1 r2 q2 c :
  ML_base log_p_struct r1 q1 r2 q2 = Ok (Some c) → chosen r1 r2 c.
Proof.
  unfold ML_base, chosen.
  destruct (in_bases r1) eqn:E1, (in_bases r2) eqn:E2; simpl;
    repeat case_bool_decide; subst; simpl;
    repeat match goal with
           | |- context [(2 <? ?q)%Z] => destruct (2 <? q)%Z; simpl
           end;
    unfold mbind, result_bind, rbind;
    repeat match goal with
           | |- context [log_p_struct ?a ?b ?q] =>
               destruct (log_p_struct a b q); simpl
           end;
    try done;
    try (destruct (Qltb _ _));
    intros [= <-]; tauto.
Qed.

Lemma ML_bases_chosen l :
  ∀ s, ML_bases log_p_struct l = Ok (Some s) →
  Forall2 (λ x c, chosen x.1.1.1 x.1.2 c) l s.
Proof.
  induction l as [|[[[r1 q1] r2] q2] l IH]; intros s; simpl.
  - intros [= <-]. constructor.
  - unfold mbind, result_bind, rbind.
    destruct (ML_base _ _ _ _ _) as [[b|]|] eqn:Eb; [|done..].
    destruct (ML_bases _ l) as [[rest|]|]; [|done..].
    simpl. intros [= <-]. constructor; [|by apply IH].
    by apply ML_base_chosen in Eb.
Qed.

Lemma zip4_lookup {A B C D} (a : list A) (b : list B) (c : list C)
    (d : list D) :
  ∀ j x, zip4 a b c d !! j = Some x →
  a !! j = Some x.1.1.1 ∧ b !! j = Some x.1.1.2
  ∧ c !! j = Some x.1.2 ∧ d !! j = Some x.2.
Proof.
  revert b c d. induction a as [|xa a IH]; intros [|xb b] [|xc c] [|xd d];
    try (intros j x Hx; by apply lookup_nil_Some in Hx || done).
  intros [|j] x; simpl.
  - by intros [= <-].
  - apply IH.
Qed.

Lemma zip4_length {A B C D} (a : list A) (b : list B) (c : list C)
    (d : list D) :
  length (zip4 a b c d)
  = Nat.min (Nat.min (length a) (length b))
      (Nat.min (length c) (length d)).
Proof.
  revert b c d. induction a as [|xa a IH]; intros [|xb b] [|xc c] [|xd d];
    simpl; try lia.
  rewrite IH. lia.
Qed.

(** X22. A consensus sequence is made of the bases A, C, G and T only; it
    belongs to the one significant length; each of its bases is the base
    of one of the two reads at that position, and it is as long as the
    shortest of the two matched sequences and their quality lists. *)
Theorem classify_seq_consensus (rec1 rec2 : SeqRecord) (min_len max_len : Z)
    (max_ham_dists : list Q) (s : str) :
  classify_seq simple_hamming_distance reverse_complement log_p_struct
    rec1 rec2 min_len max_len max_ham_dists = Ok (Some s) →
  let seq1 := seq_of rec1 in
  let seq2_rc := reverse_complement (seq_of rec2) in
  ∃ n,
    sig_lens simple_hamming_distance seq1 seq2_rc min_len max_len
      max_ham_dists = [n]
    ∧ Forall (λ c, c ∈ ["A"; "C"; "G"; "T"]%char) s
    ∧ (∀ j c, s !! j = Some c →
         slice_to n seq1 !! j = Some c
         ∨ slice_from (- n) seq2_rc !! j = Some c)
    ∧ length s
      = Nat.min
          (Nat.min (length (slice_to n seq1))
             (length (slice_to n (phred_quality rec1))))
          (Nat.min (length (slice_from (- n) seq2_rc))
             (length (slice_from (- n) (reverse (phred_quality rec2))))).
Proof.
  unfold classify_seq. cbv zeta.
  destruct (sig_lens _ _ _ _ _ _) as [|n [|? ?]] eqn:Esig; [done| |done].
  intros Hs. exists n. split; [done|].
  apply ML_bases_chosen in Hs. split_and!.
  - apply Forall_forall. intros c Hc.
    apply list_elem_of_lookup_1 in Hc as [j Hj].
    destruct (Forall2_lookup_r _ _ _ _ _ Hs Hj) as (x & _ & [Hb _]).
    unfold in_bases in Hb. by apply bool_decide_eq_true in Hb.
  - intros j c Hj.
    destruct (Forall2_lookup_r _ _ _ _ _ Hs Hj) as (x & Hx & [_ Hc]).
    apply zip4_lookup in Hx as (H1 & _ & H2 & _).
    destruct Hc as [->| ->]; [by left|by right].
  - apply Forall2_length in Hs. by rewrite <- Hs, zip4_length.
Qed.

End consensus_facts.

Section target_facts.
Import Aligner ReadMap.
Variable editdistance_eval : str → str → Z.

Lemma foldl_min_least (l : list Z) :
  ∀ x, (foldl Z.min x l = x ∨ foldl Z.min x l ∈ l)
       ∧ (foldl Z.min x l ≤ x)%Z
       ∧ ∀ y, y ∈ l → (foldl Z.min x l ≤ y)%Z.
Proof.
  induction l as [|z l IH]; intros x; simpl.
  - split; [by left|]. split; [done|]. by intros y ?%elem_of_nil.
  - destruct (IH (Z.min x z)) as (Hin & Hle & Hall). split_and!.
    + destruct Hin as [->|Hin]; [|right; by right].
      destruct (Z.min_spec x z) as [[_ ->]|[_ ->]]; [by left|right; by left].
    + lia.
    + intros y [->|Hy]%elem_of_cons; [lia|by apply Hall].
Qed.

Lemma range_lookup a b j i :
  range a b !! j = Some i → i = (a + Z.of_nat j)%Z ∧ (i < b)%Z.
Proof.
  unfold range. change (map ?f ?l) with (f <$> l).
  rewrite list_lookup_fmap. intros Hj.
  apply fmap_Some in Hj as (k & Hk & ->).
  apply lookup_seq in Hk as [-> ?]. lia.
Qed.

(** X23. For a read longer than the target, the distance is the least
    distance of the target to a window of the read that ends before the
    last character of the read; that character is never looked at. *)
Theorem min_edit_dist_skips_last (target_sequence seq : str) (c c' : ascii) :
  length target_sequence ≤ length seq →
  (∃ d i, min_edit_dist editdistance_eval target_sequence (seq ++ [c]) = Ok d
          ∧ (0 ≤ i)%Z
          ∧ (i + Z.of_nat (length target_sequence)
             ≤ Z.of_nat (length seq))%Z
          ∧ d = editdistance_eval target_sequence
                  (slice_to (Z.of_nat (length target_sequence))
                     (slice_from i seq)))
  ∧ min_edit_dist editdistance_eval target_sequence (seq ++ [c])
    = min_edit_dist editdistance_eval target_sequence (seq ++ [c']).
Proof.
  intros Hlen. unfold min_edit_dist. cbv zeta.
  rewrite !length_app. simpl.
  set (m := Z.of_nat (length target_sequence)).
  set (n := Z.of_nat (length seq + 1)).
  assert ((m <? n)%Z = true) as -> by (apply Z.ltb_lt; lia).
  assert (∀ x, map (λ i, editdistance_eval target_sequence
                           (slice_to m (slice_from i (seq ++ [x]))))
                 (range 0 (n - m))
               = map (λ i, editdistance_eval target_sequence
                             (slice_to m (slice_from i seq)))
                   (range 0 (n - m))) as Hsame.
  { intros x. apply list_eq. intros j.
    change (map ?f ?l) with (f <$> l). rewrite !list_lookup_fmap.
    destruct (range 0 (n - m) !! j) as [i|] eqn:Ei; [|done]. simpl.
    apply range_lookup in Ei as [-> ?]. do 2 f_equal.
    unfold slice_to, slice_from.
    rewrite !(proj2 (Z.leb_le _ _)) by lia.
    rewrite drop_app_le by lia. rewrite take_app_le; [done|].
    rewrite length_drop. lia. }
  rewrite !Hsame. split; [|done].
  destruct (range 0 (n - m)) as [|i0 l0] eqn:Er.
  { exfalso. unfold range in Er.
    replace (Z.to_nat (n - m - 0)) with (S (Z.to_nat (n - m - 1))) in Er
      by lia. done. }
  simpl. eexists. 
  destruct (foldl_min_least
              (map (λ i, editdistance_eval target_sequence
                           (slice_to m (slice_from i seq))) l0)
              (editdistance_eval target_sequence
                 (slice_to m (slice_from i0 seq)))) as ([Heq|Hin] & _).
  - exists i0. split; [done|].
    assert (range 0 (n - m) !! 0%nat = Some i0) as Hi0 by (by rewrite Er).
    apply range_lookup in Hi0 as [-> ?]. split; [lia|]. split; [lia|].
    by rewrite Heq.
  - change (map ?f ?l) with (f <$> l) in Hin.
    apply list_elem_of_fmap in Hin as (i & Hd & Hi).
    exists i. split; [done|].
    apply list_elem_of_lookup_1 in Hi as [j Hj].
    assert (range 0 (n - m) !! S j = Some i) as Hi by (by rewrite Er).
    apply range_lookup in Hi as [-> ?]. split; [lia|]. split; [lia|done].
Qed.

End target_facts.
Section side_facts.
Import Aligner ReadMap.

Lemma split_cons_field sep c s :
  c ≠ sep → ∃ w ws, split sep s = w :: ws ∧ split sep (c :: s) = (c :: w) :: ws.
Proof.
  intros Hc. simpl. rewrite bool_decide_eq_false_2 by done.
  destruct (split sep s) as [|w ws] eqn:E; [|by eauto].
  exfalso. destruct s as [|c' s]; [done|]. simpl in E.
  case_bool_decide; [done|]. by destruct (split sep s).
Qed.

(** A field without the separator, followed by the separator, is the
    first field. *)
Lemma split_field sep f s :
  sep ∉ f → split sep (f ++ sep :: s) = f :: split sep s.
Proof.
  induction f as [|c f IH]; intros Hf.
  - simpl. by rewrite bool_decide_eq_true_2.
  - apply not_elem_of_cons in Hf as [Hc Hf]. simpl.
    rewrite bool_decide_eq_false_2 by done. by rewrite IH.
Qed.

Lemma split_length sep (s : list ascii) :
  length (split sep s) = S (length (filter (λ c, c = sep) s)).
Proof.
  induction s as [|c s IH]; [done|].
  rewrite filter_cons. cbn [split]. destruct (decide (c = sep)) as [->|Hne].
  - rewrite bool_decide_eq_true_2 by done. simpl. by rewrite IH.
  - rewrite bool_decide_eq_false_2 by done.
    destruct (split sep s); simpl in *; lia.
Qed.

(** X24. The side of a read is the first character of the fifth field of
    its name, the fields being separated by colons; a name with fewer than
    four colons ends in an index error, and no other error occurs. *)
Theorem determine_side_fifth_field :
  (∀ f0 f1 f2 f3 c rest,
     ":"%char ∉ f0 → ":"%char ∉ f1 → ":"%char ∉ f2 → ":"%char ∉ f3 →
     c ≠ ":"%char →
     determine_side (f0 ++ ":"%char :: f1 ++ ":"%char :: f2 ++ ":"%char
                       :: f3 ++ ":"%char :: c :: rest) = Ok c)
  ∧ (∀ record_id,
       length (filter (λ c, c = ":"%char) record_id) < 4 →
       determine_side record_id = Raise index_error)
  ∧ (∀ record_id e, determine_side record_id = Raise e → e = index_error).
Proof.
  split_and!.
  - intros f0 f1 f2 f3 c rest H0 H1 H2 H3 Hc. unfold determine_side.
    rewrite !split_field by done.
    destruct (split_cons_field ":"%char c rest Hc) as (w & ws & _ & ->).
    done.
  - intros record_id Hfew. unfold determine_side, index.
    pose proof (split_length ":"%char record_id) as Hlen.
    destruct (split _ record_id !! 4) as [f|] eqn:E; [|done].
    apply lookup_lt_Some in E. lia.
  - intros record_id e. unfold determine_side.
    unfold mbind, result_bind, rbind.
    destruct (index (split _ _) 4) as [f|e'] eqn:E.
    + by intros ->%index_raises.
    + intros [= <-]. by apply index_raises in E.
Qed.

End side_facts.
(** ** Read names by tile *)

Section read_name_facts.
Import Aligner ReadMap ReadNames.

Lemma split_max_zero sep s : split_max sep s 0 = [s].
Proof. by destruct s. Qed.

Lemma split_max_field sep f s n :
  sep ∉ f → split_max sep (f ++ sep :: s) (S n) = f :: split_max sep s n.
Proof.
  induction f as [|c f IH]; intros Hf.
  - simpl. by rewrite bool_decide_eq_true_2.
  - apply not_elem_of_cons in Hf as [Hc Hf]. simpl.
    rewrite bool_decide_eq_false_2 by done. by rewrite IH.
Qed.

Lemma split_max_length sep (s : list ascii) n :
  length (split_max sep s n)
  = S (Nat.min n (length (filter (λ c, c = sep) s))).
Proof.
  revert n. induction s as [|c s IH]; intros n; [by destruct n|].
  rewrite filter_cons. destruct n as [|n]; [done|]. cbn [split_max].
  destruct (decide (c = sep)) as [->|Hne].
  - rewrite bool_decide_eq_true_2 by done. simpl. by rewrite IH.
  - rewrite bool_decide_eq_false_2 by done. specialize (IH (S n)).
    destruct (split_max sep s (S n)); simpl in *; lia.
Qed.

Lemma reverse_field {A} (a b : list A) c :
  reverse (a ++ c :: b) = reverse b ++ c :: reverse a.
Proof. by rewrite reverse_app, reverse_cons, <- app_assoc. Qed.

Lemma rsplit_length sep (s : list ascii) n :
  length (rsplit sep s n)
  = S (Nat.min n (length (filter (λ c, c = sep) s))).
Proof.
  unfold rsplit. rewrite length_reverse, length_map, split_max_length.
  do 2 f_equal. induction s as [|c s IH]; [done|].
  rewrite reverse_cons, filter_app, length_app, IH, !filter_cons, filter_nil.
  destruct (decide (c = sep)); simpl; lia.
Qed.

Lemma split_max_whole sep f n : sep ∉ f → split_max sep f n = [f].
Proof.
  revert n. induction f as [|c f IH]; intros n Hf; [done|].
  apply not_elem_of_cons in Hf as [Hc Hf]. destruct n as [|n]; [done|].
  simpl. rewrite bool_decide_eq_false_2 by done. by rewrite IH.
Qed.

(** X25. A line is left out exactly when, stripped, it has fewer than two
    colons.  The key of a stripped line with four colons or more is made
    of its fourth and its third field from the right, the fields being
    separated by colons; the key of a stripped line with two or with three
    colons is made of its second and its third field from the left. *)
Theorem read_key_of_fields (line : str) :
  (read_key line = None
   ↔ length (filter (λ c, c = ":"%char) (strip line)) < 2)
  ∧ (∀ f0 lane tile x y,
       strip line = f0 ++ ":"%char :: lane ++ ":"%char :: tile
                       ++ ":"%char :: x ++ ":"%char :: y →
       ":"%char ∉ lane → ":"%char ∉ tile → ":"%char ∉ x → ":"%char ∉ y →
       read_key line = Some (["l"; "a"; "n"; "e"]%char ++ lane
                               ++ ["t"; "i"; "l"; "e"]%char ++ tile))
  ∧ (∀ f0 lane tile x,
       strip line = f0 ++ ":"%char :: lane ++ ":"%char :: tile
                       ++ ":"%char :: x →
       ":"%char ∉ f0 → ":"%char ∉ lane → ":"%char ∉ tile → ":"%char ∉ x →
       read_key line = Some (["l"; "a"; "n"; "e"]%char ++ lane
                               ++ ["t"; "i"; "l"; "e"]%char ++ tile))
  ∧ (∀ f0 lane tile,
       strip line = f0 ++ ":"%char :: lane ++ ":"%char :: tile →
       ":"%char ∉ f0 → ":"%char ∉ lane → ":"%char ∉ tile →
       read_key line = Some (["l"; "a"; "n"; "e"]%char ++ lane
                               ++ ["t"; "i"; "l"; "e"]%char ++ tile)).
Proof.
  split_and!.
  - unfold read_key.
    pose proof (rsplit_length ":"%char (strip line) 4) as Hlen.
    destruct (rsplit _ _ _) as [|p0 [|p1 [|p2 ps]]]; cbn [length] in Hlen.
    + lia.
    + split; [intros _; lia|done].
    + split; [intros _; lia|done].
    + unfold slice_to, slice_from. cbn. split; [done|]. lia.
  - intros f0 lane tile x y Hline Hl Ht Hx Hy. unfold read_key, rsplit.
    rewrite Hline, !reverse_field.
    repeat first [rewrite <- app_assoc | rewrite <- app_comm_cons].
    rewrite !split_max_field by (by rewrite elem_of_reverse).
    rewrite split_max_zero. simpl.
    by rewrite !reverse_involutive.
  - intros f0 lane tile x Hline H0 Hl Ht Hx. unfold read_key, rsplit.
    rewrite Hline, !reverse_field.
    repeat first [rewrite <- app_assoc | rewrite <- app_comm_cons].
    rewrite !split_max_field by (by rewrite elem_of_reverse).
    rewrite split_max_whole by (by rewrite elem_of_reverse). simpl.
    by rewrite !reverse_involutive.
  - intros f0 lane tile Hline H0 Hl Ht. unfold read_key, rsplit.
    rewrite Hline, !reverse_field.
    repeat first [rewrite <- app_assoc | rewrite <- app_comm_cons].
    rewrite !split_max_field by (by rewrite elem_of_reverse).
    rewrite split_max_whole by (by rewrite elem_of_reverse). simpl.
    by rewrite !reverse_involutive.
Qed.

Lemma add_line_grouped lines tiles line :
  grouped lines tiles → grouped (lines ++ [line]) (add_line tiles line).
Proof.
  intros [Hfull Hin]. unfold add_line.
  destruct (read_key line) as [k|] eqn:Ek.
  - split.
    + intros key names. destruct (decide (key = k)) as [->|Hne].
      * rewrite lookup_insert_eq. intros [= <-]. set_solver.
      * rewrite lookup_insert_ne by done. apply Hfull.
    + intros key name. destruct (decide (key = k)) as [->|Hne].
      * rewrite lookup_insert_eq. simpl. rewrite elem_of_union, Hin.
        rewrite elem_of_singleton. split.
        -- intros [(l & Hl & ? & ?)| ->].
           ++ exists l. split; [apply elem_of_app; by left|done].
           ++ exists line. split; [apply elem_of_app; right; by left|done].
        -- intros (l & [Hl| ->%list_elem_of_singleton]%elem_of_app & <- & Hk).
           ++ left. by exists l.
           ++ by right.
      * rewrite lookup_insert_ne by done. rewrite Hin. split.
        -- intros (l & Hl & ? & ?).
           exists l. split; [apply elem_of_app; by left|done].
        -- intros (l & [Hl| ->%list_elem_of_singleton]%elem_of_app & ? & Hk).
           ++ by exists l.
           ++ congruence.
  - split; [done|]. intros key name. rewrite Hin. split.
    + intros (l & Hl & ? & ?).
      exists l. split; [apply elem_of_app; by left|done].
    + intros (l & [Hl| ->%list_elem_of_singleton]%elem_of_app & ? & Hk).
      * by exists l.
      * congruence.
Qed.

Lemma foldl_add_line_grouped lines : grouped lines (foldl add_line ∅ lines).
Proof.
  induction lines as [|line lines IH] using rev_ind.
  - split; [done|]. intros key name. simpl. rewrite lookup_empty. simpl.
    split; [by intros ?%elem_of_empty|].
    by intros (l & ?%elem_of_nil & _).
  - rewrite foldl_app. simpl. by apply add_line_grouped.
Qed.

(** X26. [load_read_names] stores every stripped line under the key of its
    lane and tile and nowhere else; the names of a key are distinct, there
    is at least one, and each of them is a line of the file. *)
Theorem load_read_names_grouped (file_path : str) (lines : list str) :
  file_path ≠ [] →
  (∀ line key, line ∈ lines → read_key line = Some key →
     ∃ names, load_read_names file_path lines !! key = Some names
              ∧ strip line ∈ names)
  ∧ (∀ key names, load_read_names file_path lines !! key = Some names →
       NoDup names ∧ names ≠ []
       ∧ ∀ name, name ∈ names ↔
           ∃ line, line ∈ lines ∧ strip line = name
                   ∧ read_key line = Some key).
Proof.
  intros Hpath. unfold load_read_names.
  destruct file_path as [|c0 path]; [done|].
  destruct (foldl_add_line_grouped lines) as [Hfull Hin]. split.
  - intros line key Hline Hkey. rewrite lookup_fmap.
    assert (strip line ∈ default ∅ (foldl add_line ∅ lines !! key)) as Hs.
    { apply Hin. by exists line. }
    destruct (foldl add_line ∅ lines !! key) as [names|]; simpl in *.
    + exists (elements names). split; [done|]. by apply elem_of_elements.
    + by apply elem_of_empty in Hs.
  - intros key names. rewrite lookup_fmap.
    destruct (foldl add_line ∅ lines !! key) as [set|] eqn:Eset; [|done].
    simpl. intros [= <-]. split_and!.
    + apply NoDup_elements.
    + intros Hnil. apply elements_empty_inv in Hnil.
      apply (Hfull key set Eset). by apply leibniz_equiv.
    + intros name. rewrite elem_of_elements.
      specialize (Hin key name). by rewrite Eset in Hin.
Qed.

End read_name_facts.
(** ** Loading reads, and the images handed out for alignment *)

Section loading_facts.
Import Aligner Loading.
Variable FastqTileRCs : string → list string → Q → Tile.

(** X27. After [load_reads] a key of the tile data that is valid holds a
    new tile made of its read names, whatever it held before; every other
    key holds what it held. *)
Theorem load_reads_lookup (microns_per_pixel : Q)
    (tile_data : gmap string (list string))
    (valid_keys : option (list string)) (fastq_tiles : gmap string Tile)
    (k : string) :
  load_reads FastqTileRCs microns_per_pixel tile_data valid_keys fastq_tiles
    !! k
  = match tile_data !! k with
    | Some read_names =>
        if is_valid valid_keys k
        then Some (FastqTileRCs k read_names microns_per_pixel)
        else fastq_tiles !! k
    | None => fastq_tiles !! k
    end.
Proof.
  unfold load_reads.
  apply (map_fold_weak_ind
           (λ r (m : gmap string (list string)),
              r !! k = match m !! k with
                       | Some read_names =>
                           if is_valid valid_keys k
                           then Some (FastqTileRCs k read_names
                                        microns_per_pixel)
                           else fastq_tiles !! k
                       | None => fastq_tiles !! k
                       end)).
  - by rewrite lookup_empty.
  - intros i x m r Hi IH. destruct (decide (i = k)) as [->|Hne].
    + rewrite lookup_insert_eq. rewrite Hi in IH.
      destruct (is_valid valid_keys k); [by rewrite lookup_insert_eq|done].
    + rewrite lookup_insert_ne by done.
      destruct (is_valid valid_keys i); [|done].
      by rewrite lookup_insert_ne.
Qed.

End loading_facts.

Section iterate_facts.
Import Aligner Images.
Variable Image : Type.
Variable image_column : Image → Z.
Variable get : Z → Z → option Image.
Variable height : Z.
Variable already_aligned : Image → bool.

Lemma image_step_pending tile_map row column it :
  image_step Image image_column get already_aligned tile_map row column
  = Ok (Some it) →
  it.1 = (row, column)
  ∧ pending Image image_column get already_aligned tile_map it.
Proof.
  unfold image_step, pending.
  destruct (get row column) as [image|] eqn:Eget; [|done].
  destruct (already_aligned image) eqn:Edone; [done|].
  destruct (tile_map !! image_column image) as [tiles|] eqn:Etiles; [|done].
  intros [= <-]. split; [done|]. by exists image.
Qed.

Lemma yields_cells tile_map cs it :
  it ∈ (yields Image image_column get already_aligned tile_map cs).1 →
  (it.1.2, it.1.1) ∈ cs
  ∧ pending Image image_column get already_aligned tile_map it.
Proof.
  induction cs as [|[column row] cs IH]; simpl; [by intros ?%elem_of_nil|].
  destruct (image_step _ _ _ _ _ _ _) as [[it'|]|e] eqn:Estep; simpl.
  - apply image_step_pending in Estep as [Hcell Hpending].
    intros [->|Hin]%elem_of_cons.
    + rewrite Hcell. split; [by left|done].
    + destruct (IH Hin). split; [by right|done].
  - intros Hin. destruct (IH Hin). split; [by right|done].
  - by intros ?%elem_of_nil.
Qed.

Lemma yields_all tile_map cs column row image :
  (yields Image image_column get already_aligned tile_map cs).2 = None →
  (column, row) ∈ cs → get row column = Some image →
  already_aligned image = false →
  ∃ tiles, (row, column, tiles)
           ∈ (yields Image image_column get already_aligned tile_map cs).1.
Proof.
  intros Hend Hcell Hget Hnew.
  induction cs as [|[column' row'] cs IH]; [by apply elem_of_nil in Hcell|].
  simpl in *.
  destruct (image_step _ _ _ _ _ _ _) as [[it'|]|e] eqn:Estep; simpl in *;
    [| |done].
  - apply elem_of_cons in Hcell as [[= <- <-]|Hcell].
    + pose proof Estep as Hit. apply image_step_pending in Hit as [Hit _].
      destruct it' as [[r c] tiles]. simpl in Hit. injection Hit as -> ->.
      exists tiles. by left.
    + destruct (IH Hend Hcell) as [tiles ?]. exists tiles. by right.
  - apply elem_of_cons in Hcell as [[= <- <-]|Hcell]; [|by apply IH].
    exfalso. revert Estep. unfold image_step. rewrite Hget, Hnew.
    by destruct (tile_map !! _).
Qed.

Lemma elem_of_range a b i : i ∈ ReadMap.range a b ↔ (a ≤ i < b)%Z.
Proof.
  unfold ReadMap.range. change (map ?f ?l) with (f <$> l).
  rewrite list_elem_of_fmap. split.
  - intros (k & -> & Hk%elem_of_seq). lia.
  - intros Hi. exists (Z.to_nat (i - a)). split; [lia|].
    apply elem_of_seq. lia.
Qed.

Lemma elem_of_cells min_column max_column column row :
  (column, row) ∈ cells height min_column max_column
  ↔ (min_column ≤ column < max_column)%Z ∧ (0 ≤ row < height)%Z.
Proof.
  unfold cells. rewrite list_elem_of_bind. split.
  - intros (c & (r & [= <- <-]%list_elem_of_singleton & Hr)%list_elem_of_bind
              & Hc).
    by apply elem_of_range in Hr, Hc.
  - intros [Hc Hr]. exists column. split; [|by apply elem_of_range].
    apply list_elem_of_bind. exists row.
    split; [by left|by apply elem_of_range].
Qed.

(** X28. Between the end columns of a file, [iterate_all_images] hands out
    only images that are there and not aligned yet, of a row of the grid
    and of a column from the lower end column up to, but not including,
    the upper one; unless a column is missing from the tile map, it hands
    out every such image. *)
Theorem iterate_all_images_columns (left_column right_column : Z)
    (tile_map : gmap Z (list string)) :
  let run :=
    iterate_all_images Image image_column get height already_aligned
      (end_columns left_column right_column, tile_map) in
  (∀ it, it ∈ run.1 →
     (Z.min left_column right_column ≤ it.1.2
      < Z.max left_column right_column)%Z
     ∧ (0 ≤ it.1.1 < height)%Z
     ∧ pending Image image_column get already_aligned tile_map it)
  ∧ (run.2 = None →
     ∀ row column image,
       (Z.min left_column right_column ≤ column
        < Z.max left_column right_column)%Z →
       (0 ≤ row < height)%Z →
       get row column = Some image → already_aligned image = false →
       ∃ tiles, (row, column, tiles) ∈ run.1).
Proof.
  unfold iterate_all_images, end_columns. cbv zeta. split.
  - intros it [Hcell Hpending]%yields_cells.
    apply elem_of_cells in Hcell. tauto.
  - intros Hend row column image Hc Hr Hget Hnew.
    eapply yields_all; [done| |done..]. by apply elem_of_cells.
Qed.

End iterate_facts.
(** ** The further properties on the sample chip and the sample reads *)

Section more_sample_runs.
Import Aligner Notions Sample HitNotions FrameNotions RoughNotions.
#[local] Existing Instance chip_tiles.
#[local] Existing Instance numerics.

(** Hit classification of the sample chip: its mutual hits are
    one-to-one. *)
Lemma find_hits_mutual_one_to_one_witness :
  let s' := (find_hits None chip).2 in
  find_hits None chip = (Ok tt, s')
  ∧ one_to_one (mutual_hits (hits s')).
Proof.
  intros s'.
  assert (find_hits None chip = (Ok tt, s')) as Hrun
    by (vm_compute; reflexivity).
  split; [exact Hrun|].
  exact (proj1 (find_hits_mutual_one_to_one None chip s' Hrun)).
Defined.

(** The classification of the two nearest-neighbour relations of the
    sample chip has a threshold. *)
Lemma classify_hits_categories_witness :
  let s := (find_hits None chip).2 in
  let c2a : gset hit := {[ (0, 0); (1, 1); (2, 2); (3, 2) ]}%nat in
  let a2c : gset hit := {[ (0, 0); (1, 1); (2, 2) ]}%nat in
  let hs := hits s in
  classify_hits (single_hit_dist s) (ImageData.um_per_pixel (image_data s))
    c2a a2c = Ok hs
  ∧ ∃ threshold,
      good_hit_threshold (single_hit_dist s)
        (ImageData.um_per_pixel (image_data s)) (uncapped_exclusive c2a a2c)
      = Ok threshold.
Proof.
  intros s c2a a2c hs.
  assert (classify_hits (single_hit_dist s)
            (ImageData.um_per_pixel (image_data s)) c2a a2c = Ok hs) as Hrun
    by (vm_compute; reflexivity).
  split; [exact Hrun|].
  destruct (classify_hits_categories _ _ _ _ _ Hrun) as (threshold & Ht & _).
  exists threshold. exact Ht.
Defined.

(** On the sample chip the exclusive hit (0, 0) shares neither its
    cluster nor its read with the hit (1, 1). *)
Lemma find_hits_exclusive_alone_witness :
  let s' := (find_hits None chip).2 in
  find_hits None chip = (Ok tt, s')
  ∧ (0, 0)%nat ∈ exclusive_hits (hits s')
  ∧ (1, 1)%nat ∈ all_hits (hits s')
  ∧ (1, 1)%nat ≠ (0, 0)%nat
  ∧ (1, 1)%nat.1 ≠ (0, 0)%nat.1 ∧ (1, 1)%nat.2 ≠ (0, 0)%nat.2.
Proof.
  intros s'.
  assert (find_hits None chip = (Ok tt, s')) as Hrun
    by (vm_compute; reflexivity).
  assert ((0, 0)%nat ∈ exclusive_hits (hits s')) as H0
    by (apply (bool_decide_unpack _); vm_compute; exact I).
  assert ((1, 1)%nat ∈ all_hits (hits s')) as H1
    by (apply (bool_decide_unpack _); vm_compute; exact I).
  assert ((1, 1)%nat ≠ (0, 0)%nat) as Hne by discriminate.
  split; [exact Hrun|]. split; [exact H0|]. split; [exact H1|].
  split; [exact Hne|].
  exact (find_hits_exclusive_alone None chip s' Hrun _ _ H0 H1 Hne).
Defined.

(** On the sample chip four clusters and three reads in frame make one
    non-mutual and three mutual hits. *)
Lemma find_hits_covers_points_witness :
  let s' := (find_hits None chip).2 in
  find_hits None chip = (Ok tt, s')
  ∧ (size (non_mutual_hits (hits s')) + 2 * size (mutual_hits (hits s'))
     = length (clusters s') + length (aligned_rcs_in_frame s'))%nat.
Proof.
  intros s'.
  assert (find_hits None chip = (Ok tt, s')) as Hrun
    by (vm_compute; reflexivity).
  split; [exact Hrun|].
  exact (proj2 (proj2 (find_hits_covers_points None chip s' Hrun))).
Defined.

(** The reads of the sample chip in frame. *)
Lemma find_points_in_frame_same_reads_witness :
  let s' := (find_points_in_frame None chip).2 in
  find_points_in_frame None chip = (Ok tt, s')
  ∧ length (rcs_in_frame s') = length (aligned_rcs_in_frame s').
Proof.
  intros s'.
  assert (find_points_in_frame None chip = (Ok tt, s')) as Hrun
    by (vm_compute; reflexivity).
  split; [exact Hrun|].
  exact (proj1 (find_points_in_frame_same_reads None chip s' Hrun)).
Defined.

(** The mutual hit (2, 2) of the sample chip has a distance and a linear
    system. *)
Lemma find_hits_mutual_in_range_witness :
  let s' := (find_hits None chip).2 in
  find_hits None chip = (Ok tt, s')
  ∧ (∀ h, h ∈ [(2, 2)%nat] → h ∈ mutual_hits (hits s'))
  ∧ is_ok (hit_dists s' [(2, 2)%nat]) ∧ is_ok (system_of s' [(2, 2)%nat]).
Proof.
  intros s'.
  assert (find_hits None chip = (Ok tt, s')) as Hrun
    by (vm_compute; reflexivity).
  assert (∀ h, h ∈ [(2, 2)%nat] → h ∈ mutual_hits (hits s')) as Hin.
  { intros h ->%list_elem_of_singleton.
    apply (bool_decide_unpack _); vm_compute; exact I. }
  split; [exact Hrun|]. split; [exact Hin|].
  exact (find_hits_mutual_in_range None chip s' Hrun _ Hin).
Defined.

(** Rough alignment of the sample chip on its side-2 tiles: the hitting
    tile 2101 is a candidate and no control tile. *)
Lemma find_hitting_tiles_among_candidates_witness :
  let keys := ["lane1tile2101"; "lane1tile2102"] in
  let s' := (find_hitting_tiles false keys (6 # 5) chip).2 in
  find_hitting_tiles false keys (6 # 5) chip = (Ok tt, s')
  ∧ "lane1tile2101" ∈ hitting_tiles s'
  ∧ "lane1tile2101" ∈ keys
  ∧ is_Some (fastq_tiles chip !! "lane1tile2101")
  ∧ "lane1tile2101" ∉ control_tiles (possible_tiles false keys chip) chip.
Proof.
  intros keys s'.
  assert (find_hitting_tiles false keys (6 # 5) chip = (Ok tt, s')) as Hrun
    by (vm_compute; reflexivity).
  assert ("lane1tile2101" ∈ hitting_tiles s') as Hk
    by (apply (bool_decide_unpack _); vm_compute; exact I).
  split; [exact Hrun|]. split; [exact Hk|].
  exact (find_hitting_tiles_among_candidates false keys (6 # 5) chip s' Hrun
           _ Hk).
Defined.


(** Precision alignment of the sample chip with a minimum of one hit. *)
Lemma precision_align_only_returns_witness :
  let s' := (precision_align_only 1 chip).2 in
  precision_align_only 1 chip = (Ok tt, s')
  ∧ ∃ k pool, k ∈ hitting_tiles chip
              ∧ (tile_hits (9 # 10) k chip).1 = Ok pool
              ∧ (1 ≤ Z.of_nat (length pool))%Z.
Proof.
  intros s'.
  assert (precision_align_only 1 chip = (Ok tt, s')) as Hrun
    by (vm_compute; reflexivity).
  split; [exact Hrun|].
  exact (precision_align_only_returns 1 chip s' Hrun).
Defined.


End more_sample_runs.

Section image_sample_runs.
Import ImageData ImageNotions.



(** A 1 by 2 image padded by (1, 1) sits at row 1, column 1 of a 4 by 4
    image. *)
Lemma set_fft_embeds_witness :
  let im : pixels := [[5; 7]]%Q in
  let padded : pixels :=
    [[0; 0; 0; 0]; [0; 5; 7; 0]; [0; 0; 0; 0]; [0; 0; 0; 0]]%Q in
  set_fft im (1, 1)%Z = Ok padded
  ∧ ∀ i j x, pixel im i j = Some x →
             pixel padded (Z.to_nat 1 + i) (Z.to_nat 1 + j) = Some x.
Proof.
  intros im padded.
  assert (set_fft im (1, 1)%Z = Ok padded) as Hrun
    by (vm_compute; reflexivity).
  split; [exact Hrun|].
  exact (proj1 (proj2 (proj2 (set_fft_embeds im padded (1, 1)%Z Hrun)))).
Defined.

End image_sample_runs.

Section mapping_sample_runs.
Import Aligner Sample TileMappings.


End mapping_sample_runs.

Section driver_sample_runs.
Import Align.

(** Eight cores and a hundred images: six processes, chunks of 18. *)
Lemma calculate_process_count_bounds_witness :
  (0 ≤ 100)%Z
  ∧ (1 ≤ (calculate_process_count 8 100).1)%Z
  ∧ (1 ≤ (calculate_process_count 8 100).2 ≤ 32)%Z.
Proof.
  assert (0 ≤ 100)%Z as Hn by lia.
  split; [exact Hn|].
  destruct (calculate_process_count_bounds 8 100 4 Hn) as (Hp & Hc & _).
  split; [exact Hp|exact Hc].
Defined.

End driver_sample_runs.

Section read_sample_runs.
Import Aligner ReadMap ReadNames SampleReads.

(** The sample pair overlaps at length 4 only; at the last position the
    first read, of the higher quality, wins. *)
Lemma classify_seq_consensus_witness :
  let s := ["A"; "C"; "G"; "T"]%char in
  classify_seq mismatches reverse_complement log_p read1 read2 3 5
    [1; 2; 2]%Q = Ok (Some s)
  ∧ ∃ n,
      sig_lens mismatches (seq_of read1) (reverse_complement (seq_of read2))
        3 5 [1; 2; 2]%Q = [n]
      ∧ Forall (λ c, c ∈ ["A"; "C"; "G"; "T"]%char) s.
Proof.
  intros s.
  assert (classify_seq mismatches reverse_complement log_p read1 read2 3 5
            [1; 2; 2]%Q = Ok (Some s)) as Hrun
    by (vm_compute; reflexivity).
  split; [exact Hrun|].
  destruct (classify_seq_consensus mismatches reverse_complement log_p
              read1 read2 3 5 [1; 2; 2]%Q s Hrun) as (n & Hn & Hs & _).
  exists n. split; [exact Hn|exact Hs].
Defined.

(** The read GGAC ends with the target AC, and is as far from it as the
    read GGAT. *)
Lemma min_edit_dist_skips_last_witness :
  let target := ["A"; "C"]%char in
  let seq := ["G"; "G"; "A"]%char in
  length target ≤ length seq
  ∧ min_edit_dist mismatches target (seq ++ ["C"%char])
    = min_edit_dist mismatches target (seq ++ ["T"%char]).
Proof.
  intros target seq.
  assert (length target ≤ length seq) as Hlen by (simpl; lia).
  split; [exact Hlen|].
  exact (proj2 (min_edit_dist_skips_last mismatches target seq
                  "C"%char "T"%char Hlen)).
Defined.

(** Two reads of tile 2101 of lane 1, an empty line and a read of tile
    1101: the first read is stored under the key of its tile. *)
Lemma load_read_names_grouped_witness :
  let file_path := String.list_ascii_of_string "phix_read_names.txt" in
  let line := String.list_ascii_of_string "M1:7:FC:1:2101:15:17 " in
  let lines :=
    [line; String.list_ascii_of_string "M1:7:FC:1:2101:20:30";
     []; String.list_ascii_of_string "M1:7:FC:1:1101:20:30"] in
  let key := String.list_ascii_of_string "lane1tile2101" in
  file_path ≠ [] ∧ line ∈ lines ∧ read_key line = Some key
  ∧ ∃ names, load_read_names file_path lines !! key = Some names
             ∧ strip line ∈ names.
Proof.
  intros file_path line lines key.
  assert (file_path ≠ []) as Hpath by discriminate.
  assert (line ∈ lines) as Hline by (by left).
  assert (read_key line = Some key) as Hkey by (vm_compute; reflexivity).
  split; [exact Hpath|]. split; [exact Hline|]. split; [exact Hkey|].
  exact (proj1 (load_read_names_grouped file_path lines Hpath) line key
           Hline Hkey).
Defined.

End read_sample_runs.
